(** * ActionRecorder: the macro playback engine

    A shallow embedding of [actrec/functions/shared.py]: the command
    classifier, the recursion guard with [extract_properties], the
    execution-context resolver, [execute_individually], the interpreter [play],
    [run_queued_macros] and the render-complete drain
    [execute_render_complete], followed by the properties of the playback
    engine stated over these definitions.  The helpers of the add-on that
    work on names, collections, enum lists, command texts and categories
    ([check_for_duplicates], [insert_to_collection], [swap_collection_items],
    [get_categorized_view_3d_modes], [update_command], [split_and_keep], and
    [get_category_id] and [read_category_visibility] of
    [actrec/functions/categories.py]) are embedded after the engine, with
    their properties at the end.

    Conventions.
    - A Python call either returns a value or raises: [res A] is [Ok a] or
      [Raise e].  [play] returns [None], an error value, or raises.
    - [play] recurses without a bound (loop restart, Python-statement loops),
      so it is defined by recursion on a fuel; [None] means that the fuel ran
      out, or that a payload carries a number outside the modelled fragment
      (a non-integer [RepeatCount] or loop bound).
    - What the host application does when a command, a statement or a script
      is run is not in the sources: it is a parameter, [Runtime].
    - The calls of the host's API behave as in the host: the members of a
      context are read-only, so an assignment to one raises
      [AttributeError]; [select_set(True)] raises [RuntimeError] on an object
      that is not in the view layer; an assignment to the type of an area
      makes the host build the regions of the area anew. *)

From Stdlib Require Import String Ascii List ZArith Lia Bool Arith.
From Stdlib Require Import DecimalString DecimalN Permutation.
Import ListNotations.
Open Scope string_scope.
Open Scope list_scope.

Set Implicit Arguments.
Set Warnings "-register-all".

(** ** Python strings *)

Module PyStr.

(** [s.split(c)] for a one-character separator. *)
Fixpoint split (c : ascii) (s : string) : list string :=
  match s with
  | EmptyString => [EmptyString]
  | String a s' =>
      if Ascii.eqb a c then EmptyString :: split c s'
      else match split c s' with
           | [] => [String a EmptyString]
           | x :: xs => String a x :: xs
           end
  end.

(** [sep.join(l)] *)
Definition join (sep : string) (l : list string) : string := String.concat sep l.

(** [s.startswith(p)] *)
Definition startswith (p s : string) : bool := String.prefix p s.

(** [s[:-1]] *)
Fixpoint drop_last (s : string) : string :=
  match s with
  | EmptyString => EmptyString
  | String a EmptyString => EmptyString
  | String a s' => String a (drop_last s')
  end.

(** Whitespace removed by [str.strip()], for ASCII text. *)
Definition is_space (a : ascii) : bool :=
  let n := nat_of_ascii a in
  (((9 <=? n) && (n <=? 13)) || ((28 <=? n) && (n <=? 32)))%nat.

Fixpoint lstrip (s : string) : string :=
  match s with
  | EmptyString => EmptyString
  | String a s' => if is_space a then lstrip s' else s
  end.

Fixpoint rstrip (s : string) : string :=
  match s with
  | EmptyString => EmptyString
  | String a s' =>
      match rstrip s' with
      | EmptyString => if is_space a then EmptyString else String a EmptyString
      | r => String a r
      end
  end.

Definition strip (s : string) : string := rstrip (lstrip s).

(** [s.isidentifier()], for ASCII text. *)
Definition is_id_start (a : ascii) : bool :=
  let n := nat_of_ascii a in
  (((65 <=? n) && (n <=? 90)) || ((97 <=? n) && (n <=? 122)) || (n =? 95))%nat.

Definition is_id_char (a : ascii) : bool :=
  let n := nat_of_ascii a in
  is_id_start a || ((48 <=? n) && (n <=? 57))%nat.

Fixpoint all_chars (p : ascii -> bool) (s : string) : bool :=
  match s with
  | EmptyString => true
  | String a s' => p a && all_chars p s'
  end.

Definition isidentifier (s : string) : bool :=
  match s with
  | EmptyString => false
  | String a s' => is_id_start a && all_chars is_id_char s'
  end.

(** [s.replace(old, new)] for a non-empty [old]: [skip] counts the characters
    of the occurrence being replaced that are still to be dropped. *)
Fixpoint replace_from (old new : string) (skip : nat) (s : string) : string :=
  match s with
  | EmptyString => EmptyString
  | String a s' =>
      match skip with
      | S k => replace_from old new k s'
      | O =>
          if String.prefix old s
          then new ++ replace_from old new (String.length old - 1) s'
          else String a (replace_from old new 0 s')
      end
  end.

Definition replace (old new s : string) : string := replace_from old new 0 s.

(** The double quote character, and a string literal in which every
    apostrophe stands for a double quote. *)
Definition dquote : ascii := ascii_of_nat 34.

Fixpoint quoted (s : string) : string :=
  match s with
  | EmptyString => EmptyString
  | String a s' =>
      String (if Ascii.eqb a (ascii_of_nat 39) then dquote else a) (quoted s')
  end.

(** [set(l) == {a, b}] for distinct [a] and [b]. *)
Definition set_is_pair (l : list string) (a b : string) : bool :=
  forallb (fun x => String.eqb x a || String.eqb x b) l
  && existsb (String.eqb a) l && existsb (String.eqb b) l.

End PyStr.

(** ** Values, exceptions and results *)

(** A decoded JSON value.  A number with a fraction or an exponent is kept as
    mantissa and decimal exponent; only its truth value is ever used. *)
Inductive json : Type :=
| JNull
| JBool (b : bool)
| JInt (n : Z)
| JFloat (m e : Z)
| JStr (s : string)
| JArr (xs : list json)
| JObj (kvs : list (string * json)).

Inductive Exn : Type :=
| JSONDecodeError
| KeyError (key : string)
| IndexError
| TypeError
| AttributeError (attr : string)
| NameError (name : string)
| ReferenceError
| RuntimeError
| CommandError (msg : string).   (* raised by the host while it runs a command *)

(** What [play] hands back as an error: the exception it caught, or a
    message. *)
Inductive Err : Type :=
| ErrExn (e : Exn)
| ErrStr (s : string).

Inductive res (A : Type) : Type :=
| Ok (a : A)
| Raise (e : Exn).
Arguments Ok {A} a.
Arguments Raise {A} e.

Definition bind {A B : Type} (r : res A) (k : A -> res B) : res B :=
  match r with
  | Ok a => k a
  | Raise e => Raise e
  end.

Notation "x <- r ;; k" := (bind r (fun x => k))
  (at level 61, r at next level, right associativity).

Module Json.

Fixpoint assoc (k : string) (kvs : list (string * json)) : option json :=
  match kvs with
  | [] => None
  | (k', v) :: rest => if String.eqb k k' then Some v else assoc k rest
  end.

(** [data[k]] *)
Definition subscript (data : json) (k : string) : res json :=
  match data with
  | JObj kvs =>
      match assoc k kvs with
      | Some v => Ok v
      | None => Raise (KeyError k)
      end
  | _ => Raise TypeError
  end.

(** [data.get(k, default)] *)
Definition get (data : json) (k : string) (default : json) : res json :=
  match data with
  | JObj kvs =>
      match assoc k kvs with
      | Some v => Ok v
      | None => Ok default
      end
  | _ => Raise (AttributeError "get")
  end.

(** [v == s] for a string literal [s]. *)
Definition is_str (v : json) (s : string) : bool :=
  match v with
  | JStr t => String.eqb t s
  | _ => false
  end.

(** The truth value of [v]. *)
Definition truthy (v : json) : bool :=
  match v with
  | JNull => false
  | JBool b => b
  | JInt n => negb (Z.eqb n 0)
  | JFloat m _ => negb (Z.eqb m 0)
  | JStr s => negb (String.eqb s "")
  | JArr xs => match xs with [] => false | _ => true end
  | JObj kvs => match kvs with [] => false | _ => true end
  end.

(** Lists and dicts cannot be hashed: [v in {...}] raises on them. *)
Definition hashable (v : json) : bool :=
  match v with
  | JArr _ | JObj _ => false
  | _ => true
  end.

End Json.

(** ** The data model *)

(** A macro of an action.  Its [alert] flag is written by the interpreter and
    never read by it: the flags raised are kept in the [World], by macro id. *)
Record Macro : Type := mkMacro {
  id : string;
  command : string;
  active : bool;
  operator_execution_context : string;
  ui_type : string
}.

Record Action : Type := mkAction {
  action_id : string;
  execution_mode : string;
  macros : list Macro
}.

(** The host's user interface.  Areas are objects that [play] mutates
    ([ui_type]): they live in a store and are named by their index in it.
    When the type of an area is assigned the host builds the regions of the
    area anew for the editor of that type: [rebuilt] gives the regions that
    the area gets for each type. *)
Record Region : Type := mkRegion {
  region_id : nat;
  region_type : string
}.

Record Area : Type := mkArea {
  area_ui_type : string;
  regions : list Region;
  rebuilt : string -> list Region
}.

(** A screen has the attribute [areas]; [play] also reads an attribute [area]
    of it, which is [None] when the screen has no such attribute. *)
Record Screen : Type := mkScreen {
  areas : list nat;
  area : option (list nat)
}.

Record Window : Type := mkWindow {
  window_id : nat;
  screen : Screen
}.

(** The members given to [context.temp_override], also what [context.copy()]
    keeps of the context. *)
Record Target : Type := mkTarget {
  t_window : option Window;
  t_screen : option Screen;
  t_area : option nat;
  t_region : option Region
}.

(** The ambient state of the host: objects are named; [selected] holds the
    names whose selection flag is set. *)
Record Host : Type := mkHost {
  data_objects : list string;          (* bpy.data.objects *)
  view_layer_objects : list string;    (* context.view_layer.objects *)
  selected : list string;
  active_object : option string;       (* context.view_layer.objects.active *)
  area_store : list Area;
  windows : list Window;               (* context.window_manager.windows *)
  ctx_window : option Window;
  ctx_screen : option Screen;
  ctx_area : option nat;
  ctx_region : option Region
}.

(** One call of [exec] on a command. *)
Record Invocation : Type := mkInvocation {
  inv_macro : string;            (* the id of the macro *)
  inv_command : string;          (* the text given to exec *)
  inv_target : Target;           (* the override it ran under *)
  inv_object : option string     (* the object, when run per object *)
}.

(** A continuation registered with [bpy.app.timers.register]: the arguments
    bound to [run_queued_macros] and the delay. *)
Record TimerEntry : Type := mkTimerEntry {
  timer_context : option Target;
  timer_macros : list Macro;
  timer_action : Action;
  timer_action_type : string;
  timer_looping_count : Z;
  timer_macros_after_loop : option (list Macro);
  timer_macros_before_timer : option (list Macro);
  first_interval : json
}.

Record World : Type := mkWorld {
  host : Host;
  log : list Invocation;
  timers : list TimerEntry;
  render_complete_macros : list (string * string * string);
  action_alerts : list string;
  macro_alerts : list string
}.

(** What the sources leave to Python and to the host. *)
Record Runtime : Type := mkRuntime {
  json_loads : string -> option json;                      (* None: decode error *)
  py_exec : string -> Target -> Host -> Host * option Exn; (* exec(command) *)
  py_eval : string -> Host -> Host * res bool;             (* truth of eval(statement) *)
  as_module : string -> string -> Host -> Host * option string
    (* run the text named by the macro id; the formatted traceback on failure *)
}.

Definition with_host (w : World) (h : Host) : World :=
  mkWorld h (log w) (timers w) (render_complete_macros w)
          (action_alerts w) (macro_alerts w).

Definition add_log (w : World) (i : Invocation) : World :=
  mkWorld (host w) (log w ++ [i]) (timers w) (render_complete_macros w)
          (action_alerts w) (macro_alerts w).

Definition register_timer (w : World) (t : TimerEntry) : World :=
  mkWorld (host w) (log w) (timers w ++ [t]) (render_complete_macros w)
          (action_alerts w) (macro_alerts w).

Definition with_render_complete (w : World) (q : list (string * string * string)) : World :=
  mkWorld (host w) (log w) (timers w) q (action_alerts w) (macro_alerts w).

(** [action.alert = macro.alert = True] *)
Definition set_alert (w : World) (action : Action) (macro : Macro) : World :=
  mkWorld (host w) (log w) (timers w) (render_complete_macros w)
          (action_id action :: action_alerts w) (id macro :: macro_alerts w).

Definition mem (x : string) (l : list string) : bool := existsb (String.eqb x) l.

(** ** The event classifier *)

(** [split = macro.command.split(":")]; when [split[0] == 'ar.event'] the
    payload is [":".join(split[1:])]. *)
Definition event_payload (command : string) : option string :=
  match PyStr.split ":"%char command with
  | head :: rest =>
      if String.eqb head "ar.event" then Some (PyStr.join ":" rest) else None
  | [] => None
  end.

Definition is_event (macro : Macro) : bool :=
  match event_payload (command macro) with
  | Some _ => true
  | None => false
  end.

(** ** The recursion guard and the rewriting of a command *)

Fixpoint extract_properties_loop (properties new_props : list string)
         (prop_str : string) : list string :=
  match properties with
  | [] => new_props ++ [PyStr.strip prop_str]
  | p :: rest =>
      let prop := PyStr.split "="%char p in
      let prop0 := hd EmptyString prop in
      if PyStr.isidentifier (PyStr.strip prop0) && (1 <? length prop)%nat
      then extract_properties_loop rest (new_props ++ [PyStr.strip prop_str])
                                   (PyStr.join "=" prop)
      else extract_properties_loop rest new_props (prop_str ++ "," ++ prop0)
  end.

Definition extract_properties (properties : string) : list string :=
  tl (extract_properties_loop (PyStr.split ","%char properties) [] EmptyString).

Definition default_id : string :=
  "id=" ++ String PyStr.dquote (String PyStr.dquote EmptyString).

Definition local_play_message : string :=
  "Don't run Local Play with default properties, this may cause recursion".

(** The condition of the guard: [command.split("(")[1]] raises when the
    command has no parenthesis. *)
Definition is_default_local_play (command : string) : res bool :=
  if PyStr.startswith "bpy.ops.ar.local_play" command then
    match nth_error (PyStr.split "("%char command) 1 with
    | None => Raise IndexError
    | Some args =>
        Ok (PyStr.set_is_pair (extract_properties (PyStr.drop_last args))
                              default_id "index=-1")
    end
  else Ok false.

(** The text given to [exec]. *)
Definition exec_text (macro : Macro) : string :=
  let command := command macro in
  if PyStr.startswith "bpy.ops." command then
    let split := PyStr.split "("%char command in
    hd EmptyString split ++ "(" ++ String PyStr.dquote (operator_execution_context macro)
       ++ String PyStr.dquote ", " ++ PyStr.join "(" (tl split)
  else if PyStr.startswith "bpy.context." command then
    PyStr.replace "bpy.context." "context." command
  else command.

(** ** Objects and selection *)

Definition with_selected (h : Host) (sel : list string) : Host :=
  mkHost (data_objects h) (view_layer_objects h) sel (active_object h)
         (area_store h) (windows h)
         (ctx_window h) (ctx_screen h) (ctx_area h) (ctx_region h).

Definition with_active (h : Host) (name : string) : Host :=
  mkHost (data_objects h) (view_layer_objects h) (selected h) (Some name)
         (area_store h) (windows h)
         (ctx_window h) (ctx_screen h) (ctx_area h) (ctx_region h).

Definition with_area_store (h : Host) (store : list Area) : Host :=
  mkHost (data_objects h) (view_layer_objects h) (selected h) (active_object h)
         store (windows h)
         (ctx_window h) (ctx_screen h) (ctx_area h) (ctx_region h).

(** [context.selected_objects]: the objects of the view layer that are
    selected (an object of the view layer that was removed is not listed). *)
Definition selected_objects (h : Host) : list string :=
  filter (fun name => mem name (selected h) && mem name (data_objects h))
         (view_layer_objects h).

Definition remove_name (name : string) (l : list string) : list string :=
  filter (fun x => negb (String.eqb x name)) l.

(** [object.select_set(state)]: a removed object raises [ReferenceError].
    An object that is not in the view layer has no selection there:
    [select_set(True)] raises [RuntimeError] on it and [select_set(False)]
    does nothing. *)
Definition select_set (h : Host) (name : string) (state : bool) : res Host :=
  if mem name (data_objects h) then
    if mem name (view_layer_objects h) then
      Ok (with_selected h
            (if state
             then (if mem name (selected h) then selected h else selected h ++ [name])
             else remove_name name (selected h)))
    else if state then Raise RuntimeError else Ok h
  else Raise ReferenceError.

(** [with suppress(ReferenceError): object.select_set(state)]: any other
    exception goes on. *)
Definition select_set_suppressed (h : Host) (name : string) (state : bool)
  : res Host :=
  match select_set h name state with
  | Raise ReferenceError => Ok h
  | r => r
  end.

(** [context.<member> = value]: the members of a context are read-only, the
    assignment raises [AttributeError]. *)
Definition assign_context (h : Host) (member : string) : res Host :=
  Raise (AttributeError member).

(** [for object in names: object.select_set(state)]: the host reached, and
    the exception that stopped the loop if one did. *)
Fixpoint select_set_each (h : Host) (names : list string) (state : bool)
  : Host * option Exn :=
  match names with
  | [] => (h, None)
  | name :: rest =>
      match select_set h name state with
      | Ok h' => select_set_each h' rest state
      | Raise e => (h, Some e)
      end
  end.

(** ** The execution-context resolver *)

Definition area_get (h : Host) (a : nat) : res Area :=
  match nth_error (area_store h) a with
  | Some x => Ok x
  | None => Raise ReferenceError
  end.

Fixpoint set_nth {A : Type} (n : nat) (x : A) (l : list A) : list A :=
  match l, n with
  | [], _ => []
  | _ :: t, O => x :: t
  | y :: t, S k => y :: set_nth k x t
  end.

(** [area.ui_type = t] *)
Definition set_area_ui_type (h : Host) (a : nat) (t : string) : res Host :=
  x <- area_get h a ;;
  Ok (with_area_store h (set_nth a (mkArea t (rebuilt x t) (rebuilt x)) (area_store h))).

(** The search over the reversed window list: the first window whose screen's
    first area has the wanted type. *)
Fixpoint find_window (h : Host) (wanted : string) (ws : list Window)
  : res (option Window) :=
  match ws with
  | [] => Ok None
  | window :: rest =>
      match areas (screen window) with
      | [] => Raise IndexError
      | a0 :: _ =>
          x <- area_get h a0 ;;
          if String.eqb (area_ui_type x) wanted then Ok (Some window)
          else find_window h wanted rest
      end
  end.

(** [for region in reversed(temp_area.regions)]: every region of type
    WINDOW met on the way is assigned to [temp_region]. *)
Definition select_region (rs : list Region) (temp_region : option Region)
  : option Region :=
  fold_left
    (fun current region =>
       if negb (String.eqb (region_type region) "WINDOW") then current
       else Some region)
    (rev rs) temp_region.

(** A local variable of [play] that may not be bound yet. *)
Inductive Local (A : Type) : Type :=
| Unbound
| Bound (a : A).
Arguments Unbound {A}.
Arguments Bound {A} a.

(** Truth value of [area_type] once bound. *)
Definition area_type_set (area_type : option string) : option string :=
  match area_type with
  | Some t => if String.eqb t EmptyString then None else Some t
  | None => None
  end.

(** The state of the try block of a plain command: the host, the binding of
    [area_type], and the exception if one was raised. *)
Record Resolved : Type := mkResolved {
  r_host : Host;
  r_area_type : option string;
  r_target : res Target
}.

(** From [temp_window = context.window] to the end of the region loop. *)
Definition resolve_context (h : Host) (macro : Macro) : Resolved :=
  let temp_window := ctx_window h in
  let temp_screen := ctx_screen h in
  let temp_area := ctx_area h in
  let temp_region := ctx_region h in
  let finish (h' : Host) (area_type : option string) (tw : option Window)
             (ts : option Screen) (ta : option nat) : Resolved :=
    match ta with
    | None => mkResolved h' area_type (Ok (mkTarget tw ts ta temp_region))
    | Some a =>
        mkResolved h' area_type
          (x <- area_get h' a ;;
           Ok (mkTarget tw ts ta (select_region (regions x) temp_region)))
    end in
  match temp_area with
  | None => finish h None temp_window temp_screen temp_area
  | Some a =>
      if String.eqb (ui_type macro) EmptyString
      then finish h None temp_window temp_screen temp_area
      else
        match area_get h a with
        | Raise e => mkResolved h None (Raise e)
        | Ok x =>
            if String.eqb (area_ui_type x) (ui_type macro)
            then finish h None temp_window temp_screen temp_area
            else
              match find_window h (ui_type macro) (rev (windows h)) with
              | Raise e => mkResolved h None (Raise e)
              | Ok (Some window) =>
                  match area (screen window) with
                  | None => mkResolved h None (Raise (AttributeError "area"))
                  | Some [] => mkResolved h None (Raise IndexError)
                  | Some (a' :: _) =>
                      finish h None (Some window) (Some (screen window)) (Some a')
                  end
              | Ok None =>
                  match set_area_ui_type h a (ui_type macro) with
                  | Raise e => mkResolved h (Some (area_ui_type x)) (Raise e)
                  | Ok h' =>
                      finish h' (Some (area_ui_type x))
                             temp_window temp_screen temp_area
                  end
              end
        end
  end.

(** ** Running a command *)

Section Interpreter.

Variable R : Runtime.

(** The loop of [execute_individually] over the objects that were selected:
    select the object, assign it to three members of the context, make it the
    active object of the view layer, run the command, deselect the object.
    An exception leaves the function at once, with what was done so far. *)
Fixpoint individually_loop (macro_id command : string) (target : Target)
         (objects : list string) (w : World) : World * option Exn :=
  match objects with
  | [] => (w, None)
  | object :: rest =>
      match select_set (host w) object true with
      | Raise e => (w, Some e)
      | Ok h1 =>
          match (h <- assign_context h1 "selectable_objects" ;;
                 h <- assign_context h "object" ;;
                 assign_context h "active_object") with
          | Raise e => (with_host w h1, Some e)
          | Ok h2 =>
              let h3 := with_active h2 object in
              let w3 := add_log (with_host w h3)
                                (mkInvocation macro_id command target (Some object)) in
              match py_exec R command target h3 with
              | (h4, Some e) => (with_host w3 h4, Some e)
              | (h4, None) =>
                  match select_set_suppressed h4 object false with
                  | Raise e => (with_host w3 h4, Some e)
                  | Ok h5 =>
                      individually_loop macro_id command target rest (with_host w3 h5)
                  end
              end
          end
      end
  end.

(** The last loop: select again every object of the old selection. *)
Fixpoint reselect (h : Host) (objects : list string) : Host * option Exn :=
  match objects with
  | [] => (h, None)
  | object :: rest =>
      match select_set_suppressed h object true with
      | Ok h' => reselect h' rest
      | Raise e => (h, Some e)
      end
  end.

Definition execute_individually (macro_id command : string) (target : Target)
           (w : World) : World * option Exn :=
  let old_selected_objects := selected_objects (host w) in
  match select_set_each (host w) old_selected_objects false with
  | (h1, Some e) => (with_host w h1, Some e)
  | (h1, None) =>
      match individually_loop macro_id command target old_selected_objects
                              (with_host w h1) with
      | (w2, Some e) => (w2, Some e)
      | (w2, None) =>
          let (h3, raised) := reselect (host w2) old_selected_objects in
          (with_host w2 h3, raised)
      end
  end.

(** How one step of the main scan ends. *)
Inductive Flow : Type :=
| Next (w : World) (area_type : Local (option string))   (* on to the next macro *)
| Return (v : option Err) (w : World)                    (* play returns v *)
| Throw (e : Exn) (w : World).                           (* an exception leaves play *)

(** The handler of the try block: alert, restore the type of [base_area] when
    [area_type] is set, and return the exception. *)
Definition on_exception (action : Action) (macro : Macro) (base_area : option nat)
           (err : Exn) (w : World) (area_type : Local (option string)) : Flow :=
  let w1 := set_alert w action macro in
  match base_area with
  | None => Return (Some (ErrExn err)) w1
  | Some b =>
      match area_type with
      | Unbound => Throw (NameError "area_type") w1
      | Bound t =>
          match area_type_set t with
          | None => Return (Some (ErrExn err)) w1
          | Some t' =>
              match set_area_ui_type (host w1) b t' with
              | Ok h => Return (Some (ErrExn err)) (with_host w1 h)
              | Raise e => Throw e w1
              end
          end
      end
  end.

(** A plain command: the guard, the rewriting, the resolver, the invocation
    under the override and the restoration of the coerced area type. *)
Definition run_command (action : Action) (base_area : option nat) (macro : Macro)
           (w : World) (area_type : Local (option string)) : Flow :=
  match is_default_local_play (command macro) with
  | Raise e => on_exception action macro base_area e w area_type
  | Ok true => Return (Some (ErrStr local_play_message)) (set_alert w action macro)
  | Ok false =>
      let command := exec_text macro in
      let rc := resolve_context (host w) macro in
      let w1 := with_host w (r_host rc) in
      let area_type := r_area_type rc in
      match r_target rc with
      | Raise e => on_exception action macro base_area e w1 (Bound area_type)
      | Ok target =>
          let (w2, raised) :=
            if String.eqb (execution_mode action) "GROUP" then
              let (h2, r) := py_exec R command target (host w1) in
              (with_host (add_log w1 (mkInvocation (id macro) command target None)) h2, r)
            else execute_individually (id macro) command target w1 in
          match raised with
          | Some e => on_exception action macro base_area e w2 (Bound area_type)
          | None =>
              match t_area target, area_type_set area_type with
              | Some a, Some t =>
                  match set_area_ui_type (host w2) a t with
                  | Ok h3 => Next (with_host w2 h3) (Bound area_type)
                  | Raise e => on_exception action macro base_area e w2 (Bound area_type)
                  end
              | _, _ => Next w2 (Bound area_type)
              end
          end
      end
  end.

(** ** Select Object and Run Script *)

(** The names that [for object_name in data.get('Objects', [])] goes through. *)
Definition iterate (v : json) : res (list json) :=
  match v with
  | JArr xs => Ok xs
  | JObj kvs => Ok (map (fun kv => JStr (fst kv)) kvs)
  | JStr s => Ok (map (fun a => JStr (String a EmptyString)) (list_ascii_of_string s))
  | _ => Raise TypeError
  end.

(** Select every named object that exists; a name that is no string raises,
    with the objects before it selected. *)
Fixpoint select_named (h : Host) (names : list json) : Host * option Exn :=
  match names with
  | [] => (h, None)
  | JStr object_name :: rest =>
      if mem object_name (data_objects h) then
        match select_set h object_name true with
        | Ok h' => select_named h' rest
        | Raise e => (h, Some e)
        end
      else select_named h rest
  | _ :: _ => (h, Some TypeError)
  end.

Definition missing_object_message (name : string) : string :=
  name ++ " Object doesn't exist in the active view layer".

Definition select_object (action : Action) (macro : Macro) (data : json)
           (w : World) (area_type : Local (option string)) : Flow :=
  let selected_objects := selected_objects (host w) in
  match Json.get data "KeepSelection" (JBool false) with
  | Raise e => Throw e w
  | Ok keep =>
      match (if Json.truthy keep then (host w, None)
             else select_set_each (host w) selected_objects false) with
      | (h1, Some e) => Throw e (with_host w h1)
      | (h1, None) =>
          match (names <- Json.get data "Objects" (JArr []) ;; iterate names) with
          | Raise e => Throw e (with_host w h1)
          | Ok names =>
              match select_named h1 names with
              | (h2, Some e) => Throw e (with_host w h2)
              | (h2, None) =>
                  let w2 := with_host w h2 in
                  match Json.get data "Object" (JStr EmptyString) with
                  | Raise e => Throw e w2
                  | Ok main =>
                      if Json.is_str main EmptyString then Next w2 area_type
                      else
                        match main with
                        | JStr name =>
                            if negb (mem name (data_objects h2))
                               || negb (mem name (view_layer_objects h2))
                            then Return (Some (ErrStr (missing_object_message name)))
                                        (set_alert w2 action macro)
                            else
                              match select_set (with_active h2 name) name true with
                              | Ok h3 => Next (with_host w2 h3) area_type
                              | Raise e => Throw e w2
                              end
                        | _ => Throw TypeError w2
                        end
                  end
              end
          end
      end
  end.

(** The script text is run as a module named by the macro id; the host gives
    back the traceback, already formatted, when the script fails. *)
Definition run_script (action : Action) (macro : Macro) (data : json)
           (w : World) (area_type : Local (option string)) : Flow :=
  match Json.subscript data "ScriptText" with
  | Raise e => Throw e w
  | Ok (JStr text) =>
      match as_module R (id macro) text (host w) with
      | (h, Some error) => Return (Some (ErrStr error)) (set_alert (with_host w h) action macro)
      | (h, None) => Next (with_host w h) area_type
      end
  | Ok _ => Throw TypeError w
  end.

End Interpreter.

(** ** The interpreter *)

(** How a call of [play] ends. *)
Inductive Outcome : Type :=
| Returned (v : option Err)
| Raised (e : Exn).

(** [play] after its first three arguments: the macros (or [None]),
    [looping_count], [macros_after_loop] and [macros_before_timer]. *)
Definition play_t : Type :=
  option (list Macro) -> Z -> option (list Macro) -> option (list Macro) ->
  World -> option (Outcome * World).

(** [l[a:b]] for [a <= b] within the list, and [l[:-1-i]] *)
Definition slice {A : Type} (a b : nat) (l : list A) : list A :=
  firstn (b - a) (skipn a l).

Definition before_tail {A : Type} (i : nat) (l : list A) : list A :=
  firstn (length l - (1 + i)) l.

Definition err_truthy (v : option Err) : bool :=
  match v with
  | None => false
  | Some (ErrStr s) => negb (String.eqb s EmptyString)
  | Some (ErrExn _) => true
  end.

(** The context members kept by [context.copy()]. *)
Definition context_copy (h : Host) : Target :=
  mkTarget (ctx_window h) (ctx_screen h) (ctx_area h) (ctx_region h).

Section Play.

Variable R : Runtime.
Variable action : Action.
Variable action_type : string.

(** The payload of a macro: [None] for a plain command. *)
Definition decode (macro : Macro) : option (res json) :=
  match event_payload (command macro) with
  | None => None
  | Some payload =>
      Some (match json_loads R payload with
            | Some data => Ok data
            | None => Raise JSONDecodeError
            end)
  end.

(** The scan before the macros run: the first Render Complete event
    registers the id of the macro after it, and ends the scan. *)
Fixpoint prescan (macros : list Macro) (i : nat) (rest : list Macro) (w : World)
  : res World :=
  match rest with
  | [] => Ok w
  | macro :: rest' =>
      match decode macro with
      | None => prescan macros (S i) rest' w
      | Some r =>
          data <- r ;;
          type <- Json.subscript data "Type" ;;
          if Json.is_str type "Render Complete" then
            match nth_error macros (i + 1) with
            | None => Raise IndexError
            | Some next =>
                Ok (with_render_complete w
                      (render_complete_macros w
                         ++ [(action_type, action_id action, id next)]))
            end
          else prescan macros (S i) rest' w
      end
  end.

(** The search for the end of a loop: [j] runs over [macros[i + 1:]];
    [Some j] is the [end_index] of the break, [None] means that the scan ran
    out with [loop_count] not zero. *)
Fixpoint find_end (j : nat) (rest : list Macro) (loop_count : Z) : res (option nat) :=
  match rest with
  | [] => Ok None
  | process_macro :: rest' =>
      loop_count' <-
        (if active process_macro then
           match decode process_macro with
           | None => Ok loop_count
           | Some r =>
               process_data <- r ;;
               type <- Json.subscript process_data "Type" ;;
               if Json.is_str type "Loop" then Ok (loop_count + 1)%Z
               else if Json.is_str type "EndLoop" then Ok (loop_count - 1)%Z
               else Ok loop_count
           end
         else Ok loop_count) ;;
      if (loop_count' =? 0)%Z then Ok (Some j)
      else find_end (S j) rest' loop_count'
  end.

Variable rec : play_t.

(** [while eval(data["PyStatement"]): play(context, loop_macros, ...)]
    inside the try block: the value of [play] is dropped, an exception ends
    the loop.  [k] bounds the number of iterations. *)
Fixpoint while_statement (k : nat) (data : json) (loop_macros : list Macro)
         (w : World) : option (World * option Exn) :=
  match k with
  | O => None
  | S k' =>
      match Json.subscript data "PyStatement" with
      | Raise e => Some (w, Some e)
      | Ok (JStr statement) =>
          match py_eval R statement (host w) with
          | (h, Raise e) => Some (with_host w h, Some e)
          | (h, Ok false) => Some (with_host w h, None)
          | (h, Ok true) =>
              match rec (Some loop_macros) (-1)%Z None None (with_host w h) with
              | None => None
              | Some (Returned _, w') => while_statement k' data loop_macros w'
              | Some (Raised e, w') => Some (w', Some e)
              end
          end
      | Ok _ => Some (w, Some TypeError)
      end
  end.

(** [numpy.arange(start, stop, step)] over integers has
    [ceil((stop - start) / step)] elements. *)
Definition arange_length (start stop step : Z) : nat :=
  if (0 <? step)%Z then Z.to_nat ((stop - start + step - 1) / step)
  else Z.to_nat ((start - stop + (- step) - 1) / (- step)).

(** The deprecated count loop: the first error of [play] is returned. *)
Fixpoint count_loop (n : nat) (loop_macros : list Macro) (w : World)
  : option (option (Outcome * World) * World) :=
  match n with
  | O => Some (None, w)
  | S n' =>
      match rec (Some loop_macros) (-1)%Z None None w with
      | None => None
      | Some (Returned err, w') =>
          if err_truthy err then Some (Some (Returned err, w'), w')
          else count_loop n' loop_macros w'
      | Some (Raised e, w') => Some (Some (Raised e, w'), w')
      end
  end.

Definition as_int (v : json) : option Z :=
  match v with
  | JInt n => Some n
  | _ => None
  end.

(** What the Loop event does once its end is found: [inl] when [play]
    returns or raises there, [inr] when control goes on to the code after the
    chain of event types.  A repeat count or a bound of the count loop that is
    no integer, and a step of zero, are outside the model ([None]). *)
Definition run_loop (k : nat) (macros : list Macro) (i end_index : nat)
           (macro : Macro) (data : json) (macros_before_timer : option (list Macro))
           (w : World) : option (Flow + World) :=
  let loop_macros := slice (i + 1) end_index macros in
  match Json.subscript data "StatementType" with
  | Raise e => Some (inl (Throw e w))
  | Ok statement_type =>
      if Json.is_str statement_type "python" then
        match while_statement k data loop_macros w with
        | None => None
        | Some (w', Some err) =>
            Some (inl (Return (Some (ErrExn err)) (set_alert w' action macro)))
        | Some (w', None) => Some (inr w')
        end
      else if Json.is_str statement_type "count" then
        match Json.subscript data "Startnumber" with
        | Raise e => Some (inl (Throw e w))
        | Ok start =>
            match Json.subscript data "Endnumber" with
            | Raise e => Some (inl (Throw e w))
            | Ok stop =>
                match Json.subscript data "Stepnumber" with
                | Raise e => Some (inl (Throw e w))
                | Ok step =>
                    match as_int start, as_int stop, as_int step with
                    | Some a, Some b, Some s =>
                        if (s =? 0)%Z then None
                        else
                          match count_loop (arange_length a b s) loop_macros w with
                          | None => None
                          | Some (Some (Returned err, w'), _) => Some (inl (Return err w'))
                          | Some (Some (Raised e, w'), _) => Some (inl (Throw e w'))
                          | Some (None, w') => Some (inr w')
                          end
                    | _, _, _ => None
                    end
                end
            end
        end
      else
        match Json.subscript data "RepeatCount" with
        | Raise e => Some (inl (Throw e w))
        | Ok repeat_count =>
            match as_int repeat_count with
            | None => None
            | Some n =>
                match rec (Some loop_macros) n (Some (skipn (end_index + 1) macros))
                          macros_before_timer w with
                | None => None
                | Some (Returned v, w') => Some (inl (Return v w'))
                | Some (Raised e, w') => Some (inl (Throw e w'))
                end
            end
        end
  end.

(** The Timer event: the continuation is registered and [play] returns. *)
Definition run_timer (macros : list Macro) (i : nat) (data : json)
           (looping_count : Z) (macros_after_loop macros_before_timer : option (list Macro))
           (w : World) : Flow :=
  let timer_macros :=
    match macros_before_timer with
    | Some ((_ :: _) as before) => before ++ before_tail i macros
    | _ => macros
    end in
  match Json.subscript data "Time" with
  | Raise e => Throw e w
  | Ok time =>
      Return None
        (register_timer w
           (mkTimerEntry (Some (context_copy (host w))) (skipn (i + 1) macros)
                         action action_type looping_count
                         macros_after_loop (Some timer_macros) time))
  end.

(** The main scan, from index [i] where [rest = macros[i:]]: [Next] when the
    scan reaches the end of the macros. *)
Fixpoint scan (k : nat) (macros : list Macro) (looping_count : Z)
         (macros_after_loop macros_before_timer : option (list Macro))
         (base_area : option nat)
         (i : nat) (rest : list Macro) (w : World)
         (area_type : Local (option string)) : option Flow :=
  match rest with
  | [] => Some (Next w area_type)
  | macro :: rest' =>
      let continue (w' : World) (area_type' : Local (option string)) :=
        scan k macros looping_count macros_after_loop macros_before_timer
             base_area (S i) rest' w' area_type' in
      let command_then_continue (w' : World) :=
        match run_command R action base_area macro w' area_type with
        | Next w'' area_type' => continue w'' area_type'
        | flow => Some flow
        end in
      let after (flow : Flow) :=
        match flow with
        | Next w' area_type' => continue w' area_type'
        | _ => Some flow
        end in
      match decode macro with
      | None => command_then_continue w
      | Some (Raise e) => Some (Throw e w)
      | Some (Ok data) =>
          match Json.subscript data "Type" with
          | Raise e => Some (Throw e w)
          | Ok type =>
              if negb (Json.hashable type) then Some (Throw TypeError w)
              else if Json.is_str type "Render Complete" then Some (Return None w)
              else if Json.is_str type "Timer" then
                Some (run_timer macros i data looping_count macros_after_loop
                                macros_before_timer w)
              else if Json.is_str type "Loop" then
                match find_end (i + 1) (skipn (i + 1) macros) 1%Z with
                | Raise e => Some (Throw e w)
                | Ok None => continue w area_type
                | Ok (Some end_index) =>
                    match run_loop k macros i end_index macro data
                                   macros_before_timer w with
                    | None => None
                    | Some (inl flow) => Some flow
                    | Some (inr w') => command_then_continue w'
                    end
                end
              else if Json.is_str type "Select Object" then
                after (select_object action macro data w area_type)
              else if Json.is_str type "Run Script" then
                after (run_script R action macro data w area_type)
              else if Json.is_str type "EndLoop" then continue w area_type
              else command_then_continue w
          end
      end
  end.

(** The body of [play]: the filter, the pre-scan, the main scan and the
    restart of a counted loop. *)
Definition play_body (k : nat) : play_t :=
  fun macros looping_count macros_after_loop macros_before_timer w =>
  match macros with
  | None => Some (Raised TypeError, w)
  | Some all_macros =>
      let macros := filter active all_macros in
      match prescan macros 0 macros w with
      | Raise e => Some (Raised e, w)
      | Ok w1 =>
          let base_area := ctx_area (host w1) in
          match scan k macros looping_count macros_after_loop macros_before_timer
                     base_area 0 macros w1 Unbound with
          | None => None
          | Some (Return v w2) => Some (Returned v, w2)
          | Some (Throw e w2) => Some (Raised e, w2)
          | Some (Next w2 _) =>
              let looping_count := (looping_count - 1)%Z in
              if (0 <? looping_count)%Z then
                let loop_macros :=
                  match macros_before_timer with
                  | None => macros
                  | Some before => before
                  end in
                rec (Some loop_macros) looping_count macros_after_loop None w2
              else if (looping_count =? 0)%Z then
                rec macros_after_loop (-1)%Z None None w2
              else Some (Returned None, w2)
          end
      end
  end.

End Play.

(** [play], with the fuel that bounds the depth of its calls and the
    iterations of a statement loop. *)
Fixpoint play (R : Runtime) (action : Action) (action_type : string) (fuel : nat)
  : play_t :=
  match fuel with
  | O => fun _ _ _ _ _ => None
  | S fuel' => play_body R action action_type (play R action action_type fuel') fuel'
  end.

(** ** Deferred continuations *)

Definition with_context (h : Host) (t : Target) : Host :=
  mkHost (data_objects h) (view_layer_objects h) (selected h) (active_object h)
         (area_store h) (windows h)
         (t_window t) (t_screen t) (t_area t) (t_region t).

(** [run_queued_macros], the function a timer calls: [play] under the
    override built from the copied context, which is undone afterwards. *)
Definition run_queued_macros (R : Runtime) (fuel : nat) (entry : TimerEntry)
           (w : World) : option (option Exn * World) :=
  let saved := context_copy (host w) in
  let w1 :=
    match timer_context entry with
    | None => w
    | Some context_copy => with_host w (with_context (host w) context_copy)
    end in
  match play R (timer_action entry) (timer_action_type entry) fuel
             (Some (timer_macros entry)) (timer_looping_count entry)
             (timer_macros_after_loop entry) (timer_macros_before_timer entry) w1 with
  | None => None
  | Some (out, w2) =>
      Some (match out with
            | Returned _ => None
            | Raised e => Some e
            end,
            with_host w2 (with_context (host w2) saved))
  end.

(** The preferences of the add-on: the collections of actions by attribute
    name ([global_actions], [local_actions]). *)
Definition Preferences : Type := list (string * list Action).

Fixpoint getattr (prefs : Preferences) (name : string) : res (list Action) :=
  match prefs with
  | [] => Raise (AttributeError name)
  | (n, collection) :: rest =>
      if String.eqb n name then Ok collection else getattr rest name
  end.

(** [collection[key]] *)
Fixpoint collection_get (collection : list Action) (key : string) : res Action :=
  match collection with
  | [] => Raise (KeyError key)
  | a :: rest =>
      if String.eqb (action_id a) key then Ok a else collection_get rest key
  end.

(** [macros.find(key)]: the index of the macro, [None] for -1. *)
Fixpoint find (ms : list Macro) (key : string) : option nat :=
  match ms with
  | [] => None
  | m :: rest =>
      if String.eqb (id m) key then Some 0
      else match find rest key with
           | Some n => Some (S n)
           | None => None
           end
  end.

(** The value of the name [start] where [execute_render_complete] takes the
    slice [action.macros[start:]]: the function binds [start_index], and
    neither it nor the module binds [start]. *)
Definition start : res nat := Raise (NameError "start").

(** The while loop of [execute_render_complete] over the queue; an exception
    leaves it with the entry already popped. *)
Fixpoint drain (prefs : Preferences) (queue : list (string * string * string))
         (w : World) : World * option Exn :=
  match queue with
  | [] => (with_render_complete w [], None)
  | (action_type, action_id, start_id) :: rest =>
      let w1 := with_render_complete w rest in
      match (collection <- getattr prefs action_type ;;
             collection_get collection action_id) with
      | Raise e => (w1, Some e)
      | Ok action =>
          match find (macros action) start_id with
          | None => drain prefs rest w1
          | Some start_index =>
              match start with
              | Raise e => (w1, Some e)
              | Ok n =>
                  drain prefs rest
                    (register_timer w1
                       (mkTimerEntry None (skipn n (macros action)) action action_type
                                     (-1)%Z None None (JFloat 1 (-1))))
              end
          end
      end
  end.

Definition execute_render_complete (prefs : Preferences) (w : World)
  : World * option Exn :=
  drain prefs (render_complete_macros w) w.

(** ** Helpers of the add-on: Python text

    What [check_for_duplicates], [get_categorized_view_3d_modes] and
    [update_command] use of Python's strings, for ASCII text. *)

Module PyText.

Definition is_digit (a : ascii) : bool :=
  let n := nat_of_ascii a in ((48 <=? n) && (n <=? 57))%nat.

(** [s.isnumeric()] *)
Definition isnumeric (s : string) : bool :=
  match s with
  | EmptyString => false
  | String _ _ => PyStr.all_chars is_digit s
  end.

(** [needle in s] *)
Fixpoint contains (needle s : string) : bool :=
  String.prefix needle s
  || match s with
     | EmptyString => false
     | String _ s' => contains needle s'
     end.

(** [digits.zfill(width)] for a text without sign. *)
Definition zfill (width : nat) (digits : string) : string :=
  string_of_list_ascii (repeat "0"%char (width - String.length digits)) ++ digits.

(** [str(n)] for [0 <= n]. *)
Definition decimal (n : N) : string := NilZero.string_of_uint (N.to_uint n).

(** ["{:03d}".format(n)]: the sign counts in the width. *)
Definition format_03d (n : Z) : string :=
  if (n <? 0)%Z then "-" ++ zfill 2 (decimal (Z.abs_N n))
  else zfill 3 (decimal (Z.abs_N n)).

(** [s.split(c, 1)] *)
Fixpoint split_once (c : ascii) (s : string) : list string :=
  match s with
  | EmptyString => [EmptyString]
  | String a s' =>
      if Ascii.eqb a c then [EmptyString; s']
      else match split_once c s' with
           | [] => [String a EmptyString]
           | x :: xs => String a x :: xs
           end
  end.

End PyText.

(** ** Helpers of the add-on: names *)

(** [base_name] of [check_for_duplicates]: the name without its last piece
    when that piece is a number. *)
Definition base_name (name : string) : string :=
  let split := PyStr.split "."%char name in
  if PyText.isnumeric (last split EmptyString)
  then PyStr.join "." (removelast split)
  else name.

(** ["{0}.{1:03d}".format(base_name, num)] *)
Definition numbered (base_name : string) (num : Z) : string :=
  base_name ++ "." ++ PyText.format_03d num.

(** The loop [while name in check_list]; [None] when the fuel runs out. *)
Fixpoint rename (fuel : nat) (check_list : list string) (base_name name : string)
         (num : Z) : option string :=
  if mem name check_list then
    match fuel with
    | O => None
    | S fuel' =>
        rename fuel' check_list base_name (numbered base_name num) (num + 1)%Z
    end
  else Some name.

Definition check_for_duplicates (fuel : nat) (check_list : list string)
           (name : string) (num : Z) : option string :=
  rename fuel check_list (base_name name) name num.

(** ** Helpers of the add-on: collections

    A collection property is the list of its items.  [collection.move(src,
    dst)] takes the item at [src] out and puts it back at [dst]; an index
    outside the collection is outside the model ([None]).  The item that
    [add_data_to_collection] adds at the end and fills from the data is
    [new_item]. *)

Section Collections.

Variable Item : Type.

Definition remove_at (i : nat) (l : list Item) : list Item :=
  firstn i l ++ skipn (S i) l.

Definition insert_at (i : nat) (x : Item) (l : list Item) : list Item :=
  firstn i l ++ x :: skipn i l.

Definition in_range (l : list Item) (i : Z) : bool :=
  ((0 <=? i) && (i <? Z.of_nat (length l)))%Z.

Definition move (l : list Item) (src dst : Z) : option (list Item) :=
  if in_range l src && in_range l dst then
    match nth_error l (Z.to_nat src) with
    | Some x => Some (insert_at (Z.to_nat dst) x (remove_at (Z.to_nat src) l))
    | None => None
    end
  else None.

Definition add_data_to_collection (collection : list Item) (new_item : Item)
  : list Item :=
  collection ++ [new_item].

Definition insert_to_collection (collection : list Item) (index : Z)
           (new_item : Item) : option (list Item) :=
  let collection := add_data_to_collection collection new_item in
  if (index <? Z.of_nat (length collection))%Z
  then move collection (Z.of_nat (length collection) - 1)%Z index
  else Some collection.

Definition swap_collection_items (collection : list Item) (index_1 index_2 : Z)
  : option (list Item) :=
  let collection_length := Z.of_nat (length collection) in
  let index_1 :=
    if (collection_length <=? index_1)%Z then (collection_length - 1)%Z
    else index_1 in
  let index_2 :=
    if (collection_length <=? index_2)%Z then (collection_length - 1)%Z
    else index_2 in
  if (index_1 =? index_2)%Z then Some collection
  else
    let '(index_1, index_2) :=
      if (index_1 <? index_2)%Z then (index_2, index_1) else (index_1, index_2) in
    match move collection index_1 index_2 with
    | Some collection => move collection (index_2 + 1)%Z index_1
    | None => None
    end.

End Collections.

(** ** Helpers of the add-on: enum lists *)

Module Enum.

Record Item : Type := mkItem {
  identifier : string;
  name : string;
  description : string;
  icon : string;
  value : Z
}.

(** An element of an enum property list: a heading [(identifier, name,
    description)] or an item [(identifier, name, description, icon, value)]. *)
Inductive Entry : Type :=
| Heading (identifier name description : string)
| Choice (identifier name description icon : string) (value : Z).

(** [mode[0]] *)
Definition entry_identifier (e : Entry) : string :=
  match e with
  | Heading i _ _ => i
  | Choice i _ _ _ _ => i
  end.

End Enum.

Definition enum_items_to_enum_prop_list (items : list Enum.Item) (value_offset : Z)
  : list Enum.Entry :=
  map (fun item =>
         Enum.Choice (Enum.identifier item) (Enum.name item) (Enum.description item)
                     (Enum.icon item) (Enum.value item + value_offset)%Z)
      items.

Definition categorize (lists : list Enum.Entry * list Enum.Entry * list Enum.Entry)
           (mode : Enum.Entry)
  : list Enum.Entry * list Enum.Entry * list Enum.Entry :=
  let '(general, grease_pencil, curves) := lists in
  if PyText.contains "GPENCIL" (Enum.entry_identifier mode)
  then (general, grease_pencil ++ [mode], curves)
  else if PyText.contains "CURVES" (Enum.entry_identifier mode)
       then (general, grease_pencil, curves ++ [mode])
       else (general ++ [mode], grease_pencil, curves).

Definition get_categorized_view_3d_modes (items : list Enum.Item) (value_offset : Z)
  : list Enum.Entry :=
  let general := [Enum.Heading EmptyString "General" EmptyString] in
  let grease_pencil := [Enum.Heading EmptyString "Grease Pencil" EmptyString] in
  let curves := [Enum.Heading EmptyString "Curves" EmptyString] in
  let modes := enum_items_to_enum_prop_list items value_offset in
  let '(general, grease_pencil, curves) :=
    fold_left categorize modes (general, grease_pencil, curves) in
  general ++ grease_pencil ++ curves.

(** ** Helpers of the add-on: updating a command

    [update_command] asks the host for the properties of the operator,
    [eval("<operator>.get_rna_type().properties[1:]")]: [rna_properties] gives
    the identifiers of [properties], or the exception of the host. *)

Inductive UpdateError : Type :=
| UnpackError          (* ValueError: not enough values to unpack *)
| Propagated (e : Exn). (* an exception of the host other than KeyError, or IndexError *)

Inductive Update : Type :=
| Updated (command : string)
| NoCommand            (* the value False *)
| UpdateRaised (e : UpdateError).

(** The inner loop [for value in values]: the first value whose key is the
    identifier gives the input and is removed from the values. *)
Fixpoint take_value (identifier : string) (values : list (list string))
  : option (res string * list (list string)) :=
  match values with
  | [] => None
  | value :: rest =>
      if String.eqb (hd EmptyString value) identifier then
        Some (match nth_error value 1 with
              | Some v => Ok (hd EmptyString value ++ "=" ++ v)%string
              | None => Raise IndexError
              end, rest)
      else match take_value identifier rest with
           | Some (input, rest') => Some (input, value :: rest')
           | None => None
           end
  end.

Fixpoint collect_inputs (props : list string) (values : list (list string))
         (inputs : list string) : res (list string) :=
  match props with
  | [] => Ok inputs
  | identifier :: props' =>
      match take_value identifier values with
      | Some (Ok input, values') => collect_inputs props' values' (inputs ++ [input])
      | Some (Raise e, _) => Raise e
      | None => collect_inputs props' values inputs
      end
  end.

Definition update_command (rna_properties : string -> res (list string))
           (command : string) : Update :=
  if PyStr.startswith "bpy.ops." command then
    match PyText.split_once "("%char command with
    | [command; values] =>
        let values := extract_properties (PyStr.drop_last values) in
        let values := map (PyStr.split "="%char) values in
        match rna_properties command with
        | Raise (KeyError _) => NoCommand
        | Raise e => UpdateRaised (Propagated e)
        | Ok properties =>
            match collect_inputs (tl properties) values [] with
            | Ok inputs =>
                Updated (command ++ "(" ++ PyStr.join ", " inputs ++ ")")%string
            | Raise e => UpdateRaised (Propagated e)
            end
        end
    | _ => UpdateRaised UnpackError
    end
  else NoCommand.

(** ** Helpers of the add-on: text cut after its separators

    [split_and_keep] works on code points: a text is the list of the code
    points of its characters, each below [0x110000]. *)

Inductive or_value_error (A : Type) : Type :=
| Value (a : A)
| ValueError.
Arguments Value {A} a.
Arguments ValueError {A}.

(** [max(text)] *)
Definition max_char (text : list N) : or_value_error N :=
  match text with
  | [] => ValueError
  | c :: rest => Value (fold_left N.max rest c)
  end.

(** [chr(n)] *)
Definition chr (n : N) : or_value_error N :=
  if (n <? 0x110000)%N then Value n else ValueError.

(** [text.replace(s, new)] for a character [s]. *)
Definition replace_char (s : N) (new : list N) (text : list N) : list N :=
  flat_map (fun c => if (c =? s)%N then new else [c]) text.

(** [text.split(p)] for a character [p]. *)
Fixpoint split_char (p : N) (text : list N) : list (list N) :=
  match text with
  | [] => [[]]
  | c :: rest =>
      if (c =? p)%N then [] :: split_char p rest
      else match split_char p rest with
           | [] => [[c]]
           | x :: xs => (c :: x) :: xs
           end
  end.

Definition split_and_keep (sep text : list N) : or_value_error (list (list N)) :=
  match max_char text with
  | ValueError => ValueError
  | Value m =>
      match chr (m + 1) with
      | ValueError => ValueError
      | Value p =>
          Value (split_char p
                   (fold_left (fun text s => replace_char s [s; p] text) sep text))
      end
  end.

(** ** Helpers of the add-on: categories ([functions/categories.py])

    A category is looked up in the collection by its id. *)

Record CategoryArea : Type := mkCategoryArea {
  category_area_type : string;      (* area.type *)
  category_area_modes : list string (* the [type] of each of area.modes *)
}.

Record Category : Type := mkCategory {
  category_id : string;
  category_areas : list CategoryArea
}.

Record CategoryPreferences : Type := mkCategoryPreferences {
  categories : list Category;
  selected_category : string
}.

(** [categories.find(key)] *)
Fixpoint categories_find (collection : list Category) (key : string) : Z :=
  match collection with
  | [] => (-1)%Z
  | c :: rest =>
      if String.eqb (category_id c) key then 0%Z
      else let i := categories_find rest key in
           if (i =? -1)%Z then (-1)%Z else (i + 1)%Z
  end.

(** [categories.get(key, None)] *)
Fixpoint categories_get (collection : list Category) (key : string)
  : option Category :=
  match collection with
  | [] => None
  | c :: rest =>
      if String.eqb (category_id c) key then Some c else categories_get rest key
  end.

(** [categories[index]] for [0 <= index] *)
Definition categories_item (collection : list Category) (index : Z) : res Category :=
  match nth_error collection (Z.to_nat index) with
  | Some c => Ok c
  | None => Raise IndexError
  end.

Definition get_category_id (ActRec_pref : CategoryPreferences) (id : string)
           (index : Z) : res string :=
  if (categories_find (categories ActRec_pref) id =? -1)%Z then
    if (0 <=? index)%Z && (index <? Z.of_nat (length (categories ActRec_pref)))%Z
    then c <- categories_item (categories ActRec_pref) index ;; Ok (category_id c)
    else Ok (selected_category ActRec_pref)
  else Ok id.

Definition read_category_visibility (ActRec_pref : CategoryPreferences) (id : string)
  : option (list (string * string)) :=
  match categories_get (categories ActRec_pref) id with
  | Some category =>
      Some (fold_left
              (fun visibility area =>
                 let visibility :=
                   fold_left
                     (fun visibility mode =>
                        visibility ++ [(category_area_type area, mode)])
                     (category_area_modes area) visibility in
                 if (length (category_area_modes area) =? 0)%nat
                 then visibility ++ [(category_area_type area, "all")]
                 else visibility)
              (category_areas category) [])
  | None => None
  end.

(** ** A decoder and a host to run examples

    The theorems below hold for every [Runtime].  To evaluate [play] on
    concrete macros, [MiniJson.loads] decodes the JSON texts that the recorder
    writes for its events (objects, arrays, strings without escapes, integers,
    decimals, true, false, null), and [Demo.runtime] is a host in which the
    statement [raise ...] raises and every other command does nothing. *)

Module MiniJson.

Definition is_ws (a : ascii) : bool :=
  let n := nat_of_ascii a in
  ((n =? 32) || (n =? 9) || (n =? 10) || (n =? 13))%nat.

Fixpoint skip_ws (s : string) : string :=
  match s with
  | String a s' => if is_ws a then skip_ws s' else s
  | EmptyString => s
  end.

Definition digit (a : ascii) : option Z :=
  let n := nat_of_ascii a in
  if ((48 <=? n) && (n <=? 57))%nat then Some (Z.of_nat (n - 48)) else None.

(** The digits at the head of [s]: their value after [acc], how many, the rest. *)
Fixpoint digits (s : string) (acc : Z) (count : nat) : Z * nat * string :=
  match s with
  | String a s' =>
      match digit a with
      | Some d => digits s' (acc * 10 + d)%Z (S count)
      | None => (acc, count, s)
      end
  | EmptyString => (acc, count, s)
  end.

(** A leading zero is followed by no digit. *)
Definition leading_zero (s : string) : bool :=
  match s with
  | String "0" (String a _) =>
      match digit a with
      | Some _ => true
      | None => false
      end
  | _ => false
  end.

Definition unsigned (s : string) : option (json * string) :=
  if leading_zero s then None
  else
    match digits s 0%Z 0 with
    | (_, O, _) => None
    | (n, S _, String "." s1) =>
        match digits s1 n 0 with
        | (_, O, _) => None
        | (m, S c, rest) => Some (JFloat m (- Z.of_nat (S c)), rest)
        end
    | (n, S _, rest) => Some (JInt n, rest)
    end.

Definition negate (v : json) : json :=
  match v with
  | JInt n => JInt (- n)
  | JFloat m e => JFloat (- m) e
  | _ => v
  end.

Definition number (s : string) : option (json * string) :=
  match s with
  | String "-" s' =>
      match unsigned s' with
      | Some (v, rest) => Some (negate v, rest)
      | None => None
      end
  | _ => unsigned s
  end.

(** The characters up to the closing quote; a backslash is not decoded, and
    a control character is refused. *)
Fixpoint string_body (s : string) : option (string * string) :=
  match s with
  | EmptyString => None
  | String a s' =>
      if Ascii.eqb a PyStr.dquote then Some (EmptyString, s')
      else if Ascii.eqb a "\"%char || (nat_of_ascii a <? 32)%nat then None
      else match string_body s' with
           | Some (t, rest) => Some (String a t, rest)
           | None => None
           end
  end.

(** A repeated key keeps its place and takes the last value. *)
Fixpoint update (k : string) (v : json) (kvs : list (string * json))
  : list (string * json) :=
  match kvs with
  | [] => [(k, v)]
  | (k', v') :: rest =>
      if String.eqb k k' then (k, v) :: rest else (k', v') :: update k v rest
  end.

Definition drop_prefix (p s : string) : option string :=
  if String.prefix p s
  then Some (String.substring (String.length p) (String.length s - String.length p) s)
  else None.

Fixpoint value (fuel : nat) (s : string) : option (json * string) :=
  match fuel with
  | O => None
  | S f =>
      match skip_ws s with
      | String "{" s1 =>
          match skip_ws s1 with
          | String "}" rest => Some (JObj [], rest)
          | s2 => members f s2 []
          end
      | String "[" s1 =>
          match skip_ws s1 with
          | String "]" rest => Some (JArr [], rest)
          | s2 => elements f s2 []
          end
      | String a s1 =>
          if Ascii.eqb a PyStr.dquote then
            match string_body s1 with
            | Some (t, rest) => Some (JStr t, rest)
            | None => None
            end
          else
            match drop_prefix "true" (String a s1), drop_prefix "false" (String a s1),
                  drop_prefix "null" (String a s1) with
            | Some rest, _, _ => Some (JBool true, rest)
            | _, Some rest, _ => Some (JBool false, rest)
            | _, _, Some rest => Some (JNull, rest)
            | _, _, _ => number (String a s1)
            end
      | EmptyString => None
      end
  end
with members (fuel : nat) (s : string) (acc : list (string * json))
  : option (json * string) :=
  match fuel with
  | O => None
  | S f =>
      match skip_ws s with
      | String a s1 =>
          if Ascii.eqb a PyStr.dquote then
            match string_body s1 with
            | Some (k, s2) =>
                match skip_ws s2 with
                | String ":" s3 =>
                    match value f s3 with
                    | Some (v, s4) =>
                        match skip_ws s4 with
                        | String "," s5 => members f s5 (update k v acc)
                        | String "}" rest => Some (JObj (update k v acc), rest)
                        | _ => None
                        end
                    | None => None
                    end
                | _ => None
                end
            | None => None
            end
          else None
      | EmptyString => None
      end
  end
with elements (fuel : nat) (s : string) (acc : list json) : option (json * string) :=
  match fuel with
  | O => None
  | S f =>
      match value f s with
      | Some (v, s1) =>
          match skip_ws s1 with
          | String "," s2 => elements f s2 (acc ++ [v])
          | String "]" rest => Some (JArr (acc ++ [v]), rest)
          | _ => None
          end
      | None => None
      end
  end.

(** The whole text must be one value. *)
Definition loads (s : string) : option json :=
  match value (S (String.length s)) s with
  | Some (v, rest) =>
      match skip_ws rest with
      | EmptyString => Some v
      | _ => None
      end
  | None => None
  end.

End MiniJson.

Module Demo.

Definition runtime : Runtime :=
  mkRuntime
    MiniJson.loads
    (fun command _ h =>
       (h, if PyStr.startswith "raise " command
           then Some (CommandError command) else None))
    (fun statement h =>
       (h, if String.eqb statement "True" then Ok true
           else if String.eqb statement "False" then Ok false
           else Raise (CommandError statement)))
    (fun _ _ h => (h, None)).

(** The regions that the demo host builds when the type of an area is
    assigned: a header, a tool bar and a window region, all new. *)
Definition editor_regions (ui_type : string) : list Region :=
  [mkRegion 10 "HEADER"; mkRegion 11 "TOOLS"; mkRegion 12 "WINDOW"].

(** A host with one window on one 3D viewport whose regions are a header and
    a window region, and three objects of which two are selected. *)
Definition viewport : Area :=
  mkArea "VIEW_3D" [mkRegion 0 "HEADER"; mkRegion 1 "WINDOW"] editor_regions.

Definition main_screen : Screen := mkScreen [0] None.

Definition main_window : Window := mkWindow 0 main_screen.

Definition host0 : Host :=
  mkHost ["Cube"; "Light"; "Camera"] ["Cube"; "Light"; "Camera"]
         ["Cube"; "Light"] (Some "Cube")
         [viewport] [main_window]
         (Some main_window) (Some main_screen) (Some 0) (Some (mkRegion 0 "HEADER")).

Definition world0 : World := mkWorld host0 [] [] [] [] [].

Definition group : Action := mkAction "action" "GROUP" [].
Definition individual : Action := mkAction "action" "INDIVIDUAL" [].

(** A macro with the given id and command, active, with no required area. *)
Definition macro (name command : string) : Macro :=
  mkMacro name command true "EXEC_DEFAULT" EmptyString.

(** An event macro: the payload is written with apostrophes for quotes. *)
Definition event (name payload : string) : Macro :=
  macro name ("ar.event:" ++ PyStr.quoted payload).

End Demo.

(** * Properties of the playback engine *)

Unset Implicit Arguments.

(** ** What the properties are stated with *)

(** The ids of the macros whose command was given to [exec], in order. *)
Definition invoked (w : World) : list string := map inv_macro (log w).

(** A macro that the classifier takes for a plain command. *)
Definition plain (m : Macro) : Prop := is_event m = false.


(** The plain loop that the main scan amounts to on commands: one
    [run_command] per macro, in order, until one does not go on. *)
Fixpoint run_commands (R : Runtime) (action : Action) (base_area : option nat)
         (ms : list Macro) (w : World) (area_type : Local (option string)) : Flow :=
  match ms with
  | [] => Next w area_type
  | m :: rest =>
      match run_command R action base_area m w area_type with
      | Next w' area_type' => run_commands R action base_area rest w' area_type'
      | flow => flow
      end
  end.

(** A stand-in for the calls of [play] in a scan that makes none. *)
Definition no_play : play_t := fun _ _ _ _ _ => None.

(** A macro that is no Timer, Loop or EndLoop event: a plain command, or an
    event whose payload decodes and has another type. *)
Definition loop_free (R : Runtime) (m : Macro) : Prop :=
  decode R m = None
  \/ exists data type,
       decode R m = Some (Ok data)
       /\ Json.subscript data "Type" = Ok type
       /\ Json.is_str type "Timer" = false
       /\ Json.is_str type "Loop" = false
       /\ Json.is_str type "EndLoop" = false.

(** One direct pass over a body: what [play] does on the body alone, from
    its pre-scan to the end of its main scan.  [Next] when the scan reached
    the end of the body. *)
Definition pass (R : Runtime) (action : Action) (action_type : string)
           (body : list Macro) (w : World) : option Flow :=
  match prescan R action action_type body 0 body w with
  | Raise e => Some (Throw e w)
  | Ok w1 =>
      scan R action action_type no_play 0 body (-1)%Z None None
           (ctx_area (host w1)) 0 body w1 Unbound
  end.


(** The world a step ends in. *)
Definition flow_world (f : Flow) : World :=
  match f with
  | Next w _ => w
  | Return _ w => w
  | Throw _ w => w
  end.

(** A flow that stops the scan with an error or an exception. *)
Definition stops (f : Flow) : Prop :=
  match f with
  | Next _ _ => False
  | Return v _ => v <> None
  | Throw _ _ => True
  end.

(** A macro that the pre-scan passes over: a plain command, or an event whose
    payload decodes and has a type that is not Render Complete. *)
Definition prescan_passes (R : Runtime) (m : Macro) : Prop :=
  decode R m = None
  \/ exists data type,
       decode R m = Some (Ok data)
       /\ Json.subscript data "Type" = Ok type
       /\ Json.is_str type "Render Complete" = false.

(** [getattr(ActRec_pref, action_type)[action_id]] *)
Definition resolve_action (prefs : Preferences) (action_type action_id : string)
  : res Action :=
  collection <- getattr prefs action_type ;; collection_get collection action_id.

(** An entry of the queue whose action is found and whose resume macro is not
    among the macros of that action. *)
Definition resume_macro_absent (prefs : Preferences)
           (entry : string * string * string) : Prop :=
  let '(action_type, action_id, start_id) := entry in
  exists action,
    resolve_action prefs action_type action_id = Ok action
    /\ find (macros action) start_id = None.

Definition is_window (region : Region) : bool := String.eqb (region_type region) "WINDOW".

(** [rec'] gives every result that [rec] gives. *)
Definition extends (rec rec' : play_t) : Prop :=
  forall ms lc mal mbt w r, rec ms lc mal mbt w = Some r -> rec' ms lc mal mbt w = Some r.

(** The character [c] does not occur in [s]. *)
Definition no_char (c : ascii) (s : string) : Prop :=
  PyStr.all_chars (fun a => negb (Ascii.eqb a c)) s = true.

(** An entry of the queue whose action is found and holds the resume macro. *)
Definition resume_macro_present (prefs : Preferences)
           (entry : string * string * string) : Prop :=
  let '(action_type, action_id, start_id) := entry in
  exists action index,
    resolve_action prefs action_type action_id = Ok action
    /\ find (macros action) start_id = Some index.

(** The continuation that a Timer event at index [i] of [macros] registers. *)
Definition timer_entry (action : Action) (action_type : string)
           (macros : list Macro) (i : nat) (looping_count : Z)
           (macros_after_loop macros_before_timer : option (list Macro))
           (time : json) (h : Host) : TimerEntry :=
  mkTimerEntry (Some (context_copy h)) (skipn (i + 1) macros) action action_type
               looping_count macros_after_loop
               (Some match macros_before_timer with
                     | Some ((_ :: _) as before) => before ++ before_tail i macros
                     | _ => macros
                     end)
               time.


(** An index given to [swap_collection_items] names a position of the
    collection: the position itself, or the last one when the index is past
    the end. *)
Definition names_position (len : nat) (index : Z) (position : nat) : Prop :=
  index = Z.of_nat position \/ (Z.of_nat len <= index /\ S position = len)%Z.

(** The three groups of [get_categorized_view_3d_modes]. *)
Definition is_grease_pencil (mode : Enum.Entry) : bool :=
  PyText.contains "GPENCIL" (Enum.entry_identifier mode).

Definition is_curves (mode : Enum.Entry) : bool :=
  negb (is_grease_pencil mode) && PyText.contains "CURVES" (Enum.entry_identifier mode).

Definition is_general (mode : Enum.Entry) : bool :=
  negb (is_grease_pencil mode) && negb (is_curves mode).

(** What the docstring of [split_and_keep] describes: the text cut after each
    of its characters that is a separator. *)
Fixpoint cut_after_separators (sep text : list N) : list (list N) :=
  match text with
  | [] => [[]]
  | c :: rest =>
      if existsb (N.eqb c) sep then [c] :: cut_after_separators sep rest
      else match cut_after_separators sep rest with
           | [] => [[c]]
           | x :: xs => (c :: x) :: xs
           end
  end.

(** The areas and modes in which a category is visible. *)
Definition area_visibility (area : CategoryArea) : list (string * string) :=
  match category_area_modes area with
  | [] => [(category_area_type area, "all")]
  | modes => map (pair (category_area_type area)) modes
  end.

(** The test of [extract_properties] on a piece of text between two commas:
    the piece starts a property. *)
Definition starts_property (piece : string) : bool :=
  let prop := PyStr.split "="%char piece in
  PyStr.isidentifier (PyStr.strip (hd EmptyString prop)) && (1 <? length prop)%nat.

(** What [extract_properties] adds to a property for a piece that does not
    start one: the comma and the piece up to its first equals sign. *)
Definition continued (piece : string) : string :=
  "," ++ hd EmptyString (PyStr.split "="%char piece).

(** A property of the result: the piece that starts it and the pieces that
    follow up to the next start. *)
Definition property_text (group : string * list string) : string :=
  PyStr.strip (fst group ++ fold_right append EmptyString (map continued (snd group))).

(** A keyword argument [key=value] of an operator call. *)
Definition assignment (kv : string * string) : string := fst kv ++ "=" ++ snd kv.

Definition arguments (kvs : list (string * string)) : string :=
  PyStr.join ", " (map assignment kvs).

(** A key that is an identifier, with a value that holds no comma and no
    equals sign and does not end with a space. *)
Definition plain_assignment (kv : string * string) : Prop :=
  PyStr.isidentifier (fst kv) = true
  /\ no_char ","%char (snd kv)
  /\ no_char "="%char (snd kv)
  /\ PyStr.rstrip (snd kv) = snd kv.

(** The arguments that an operator still has, in the order of its
    properties: for each property the first argument with that key. *)
Definition known (properties : list string) (kvs : list (string * string))
  : list (string * string) :=
  flat_map (fun identifier =>
              match List.find (fun kv => String.eqb (fst kv) identifier) kvs with
              | Some kv => [kv]
              | None => []
              end)
           properties.

(** ** Inputs of the examples *)

(** A host as [Demo.runtime] that is given the text of an event to run: the
    text is no call, Python reads it as an annotation of [ar.event] and
    raises because the name [ar] is not bound. *)
Definition strict_runtime : Runtime :=
  mkRuntime
    MiniJson.loads
    (fun command target h =>
       if PyStr.startswith "ar.event:" command then (h, Some (NameError "ar"))
       else py_exec Demo.runtime command target h)
    (py_eval Demo.runtime)
    (as_module Demo.runtime).

(** Local Play with its default properties: the command the guard refuses. *)
Definition default_local_play : Macro :=
  Demo.macro "lp" (PyStr.quoted "bpy.ops.ar.local_play(id='', index=-1)").

(** A command that raises. *)
Definition failing : Macro := Demo.macro "bad" "raise Exception('boom')".

Module LoopExamples.

Definition A : Macro := Demo.macro "A" "bpy.ops.mesh.primitive_cube_add()".
Definition B : Macro := Demo.macro "B" "bpy.ops.object.shade_smooth()".
Definition C : Macro := Demo.macro "C" "bpy.ops.object.delete()".

(** A counted Loop event; the count is given as its decimal text. *)
Definition loop (repeat_count : string) : Macro :=
  Demo.event "loop"
    ("{'Type': 'Loop', 'StatementType': 'repeat', 'RepeatCount': " ++ repeat_count ++ "}").

Definition end_loop : Macro := Demo.event "end" "{'Type': 'EndLoop'}".

(** Select the camera, then make active an object that does not exist. *)
Definition select_ghost : Macro :=
  Demo.event "select" "{'Type': 'Select Object', 'Objects': ['Camera'], 'Object': 'Ghost'}".

Definition python_loop (statement : string) : Macro :=
  Demo.event "loop"
    ("{'Type': 'Loop', 'StatementType': 'python', 'PyStatement': '" ++ statement ++ "'}").

Definition timer (name : string) : Macro :=
  Demo.event name "{'Type': 'Timer', 'Time': 0.5}".

Definition render_complete (name : string) : Macro :=
  Demo.event name "{'Type': 'Render Complete'}".

(** A fresh call of [play] on the demo host under GROUP. *)
Definition run (fuel : nat) (ms : list Macro) : option (Outcome * World) :=
  play Demo.runtime Demo.group "global_actions" fuel (Some ms) (-1)%Z None None
       Demo.world0.

End LoopExamples.

Module QueueExamples.

(** An action with two macros, and the preferences that hold it. *)
Definition render : Action :=
  mkAction "render"
           "GROUP"
           [LoopExamples.render_complete "wait"; LoopExamples.A].

Definition prefs : Preferences := [("global_actions", [render]); ("local_actions", [])].

Definition queued (q : list (string * string * string)) : World :=
  with_render_complete Demo.world0 q.

End QueueExamples.

Module RegionExamples.

(** A 3D viewport in quad view: a header and four regions of type WINDOW. *)
Definition quad_view : Area :=
  mkArea "VIEW_3D"
         [mkRegion 0 "HEADER"; mkRegion 1 "WINDOW"; mkRegion 2 "WINDOW";
          mkRegion 3 "WINDOW"; mkRegion 4 "WINDOW"]
         Demo.editor_regions.

Definition host : Host :=
  mkHost ["Cube"] ["Cube"] ["Cube"] (Some "Cube")
         [quad_view] [Demo.main_window]
         (Some Demo.main_window) (Some Demo.main_screen) (Some 0)
         (Some (mkRegion 0 "HEADER")).

Definition world : World := mkWorld host [] [] [] [] [].

End RegionExamples.

Module AreaExamples.

(** A command that asks for the image editor, played in the 3D viewport of
    the demo host, where no window shows an image editor. *)
Definition in_image_editor : Macro :=
  mkMacro "paint" "bpy.ops.image.new()" true "EXEC_DEFAULT" "IMAGE_EDITOR".

End AreaExamples.

Module WindowExamples.

(** The demo host with a second window that shows an image editor; as in the
    host application, a screen has no attribute [area]. *)
Definition image_editor : Area :=
  mkArea "IMAGE_EDITOR" [mkRegion 5 "WINDOW"] Demo.editor_regions.

Definition image_window : Window := mkWindow 1 (mkScreen [1] None).

Definition host : Host :=
  mkHost ["Cube"] ["Cube"] ["Cube"] (Some "Cube")
         [Demo.viewport; image_editor] [Demo.main_window; image_window]
         (Some Demo.main_window) (Some Demo.main_screen) (Some 0)
         (Some (mkRegion 0 "HEADER")).

Definition world : World := mkWorld host [] [] [] [] [].

End WindowExamples.

Module SelectExamples.

(** The cube is in the view layer and selected; a second object exists in
    the data of the file and is not in the view layer. *)
Definition host : Host :=
  mkHost ["Cube"; "Hidden"] ["Cube"] ["Cube"] (Some "Cube")
         [Demo.viewport] [Demo.main_window]
         (Some Demo.main_window) (Some Demo.main_screen) (Some 0)
         (Some (mkRegion 0 "HEADER")).

Definition world : World := mkWorld host [] [] [] [] [].

End SelectExamples.

(** ** The classifier *)

Lemma split_not_nil (c : ascii) (s : string) : PyStr.split c s <> [].
Proof.
  destruct s as [| a s]; cbn [PyStr.split]; [discriminate |].
  destruct (Ascii.eqb a c); [discriminate |].
  destruct (PyStr.split c s); discriminate.
Qed.

(** Joining the pieces of a split with the separator gives the text back. *)
Lemma join_split (c : ascii) (s : string) :
  PyStr.join (String c EmptyString) (PyStr.split c s) = s.
Proof.
  unfold PyStr.join.
  induction s as [| a s IH]; cbn [PyStr.split]; [reflexivity |].
  destruct (Ascii.eqb a c) eqn:Hac.
  - apply Ascii.eqb_eq in Hac. subst a.
    pose proof (split_not_nil c s) as Hne.
    destruct (PyStr.split c s) as [| x xs]; [contradiction |].
    change (String.concat (String c EmptyString) (EmptyString :: x :: xs))
      with (String c (String.concat (String c EmptyString) (x :: xs))).
    rewrite IH. reflexivity.
  - pose proof (split_not_nil c s) as Hne.
    destruct (PyStr.split c s) as [| x xs]; [contradiction |].
    rewrite <- IH. destruct xs; reflexivity.
Qed.

(** A command is taken for an event when it is the reserved word alone or
    starts with the reserved word and a colon; what follows the colon is the
    payload. *)
Lemma event_payload_spec (command payload : string) :
  event_payload command = Some payload
  <-> (command = "ar.event" /\ payload = EmptyString)
      \/ command = ("ar.event:" ++ payload)%string.
Proof.
  unfold event_payload. split.
  - intro H. pose proof (join_split ":"%char command) as Hjoin.
    destruct (PyStr.split ":"%char command) as [| head rest]; [discriminate |].
    destruct (String.eqb head "ar.event") eqn:Hhead; [| discriminate].
    apply String.eqb_eq in Hhead. subst head. inversion H; subst payload.
    rewrite <- Hjoin. unfold PyStr.join.
    destruct rest as [| x xs]; [left; split; reflexivity | right; reflexivity].
  - intros [[Hc Hp] | Hc]; subst.
    + reflexivity.
    + change (PyStr.split ":"%char ("ar.event:" ++ payload)%string)
        with ("ar.event" :: PyStr.split ":"%char payload).
      cbn [String.eqb Ascii.eqb Bool.eqb]. f_equal. apply join_split.
Qed.

Lemma is_event_spec (m : Macro) :
  is_event m = true
  <-> command m = "ar.event" \/ exists payload, command m = ("ar.event:" ++ payload)%string.
Proof.
  unfold is_event. split.
  - destruct (event_payload (command m)) as [payload |] eqn:H; [| discriminate].
    intros _. apply event_payload_spec in H.
    destruct H as [[H _] | H]; [left; exact H | right; exists payload; exact H].
  - intros [H | [payload H]].
    + rewrite H. reflexivity.
    + assert (Hp : event_payload (command m) = Some payload)
        by (apply event_payload_spec; right; exact H).
      rewrite Hp. reflexivity.
Qed.

(** ** Plain commands in the scans *)

Section PlainCommands.

Variable R : Runtime.
Variable action : Action.
Variable action_type : string.

Lemma decode_plain (m : Macro) : plain m -> decode R m = None.
Proof.
  unfold plain, is_event, decode.
  destruct (event_payload (command m)); [discriminate | reflexivity].
Qed.

Lemma prescan_plain (macros rest : list Macro) (w : World) :
  Forall plain rest ->
  forall i, prescan R action action_type macros i rest w = Ok w.
Proof.
  induction 1 as [| m rest Hm _ IH]; intro i; cbn [prescan].
  - reflexivity.
  - rewrite (decode_plain m Hm). apply IH.
Qed.

Lemma scan_plain (rec : play_t) (k : nat) (macros : list Macro) (lc : Z)
      (mal mbt : option (list Macro)) (base : option nat) (rest : list Macro) :
  Forall plain rest ->
  forall i w area_type,
    scan R action action_type rec k macros lc mal mbt base i rest w area_type
    = Some (run_commands R action base rest w area_type).
Proof.
  induction 1 as [| m rest Hm _ IH]; intros i w area_type; cbn [scan run_commands].
  - reflexivity.
  - rewrite (decode_plain m Hm).
    destruct (run_command R action base m w area_type); try reflexivity.
    apply IH.
Qed.

End PlainCommands.

(** ** What a command adds to the log *)

Lemma on_exception_stops (action : Action) (m : Macro) (base : option nat)
      (e : Exn) (w : World) (area_type : Local (option string)) :
  stops (on_exception action m base e w area_type)
  /\ invoked (flow_world (on_exception action m base e w area_type)) = invoked w.
Proof.
  unfold on_exception.
  destruct base as [b |]; [| split; [discriminate | reflexivity]].
  destruct area_type as [| t]; [split; [exact I | reflexivity] |].
  destruct (area_type_set t) as [t' |]; [| split; [discriminate | reflexivity]].
  destruct (set_area_ui_type (host (set_alert w action m)) b t');
    split; cbn; try discriminate; try exact I; reflexivity.
Qed.

Section GroupMode.

Variable R : Runtime.
Variable action : Action.
Hypothesis group_mode : execution_mode action = "GROUP".

(** Under GROUP a command that goes on was given to [exec] once; one that
    stops was given to it once or not at all. *)
Lemma run_command_group (base : option nat) (m : Macro) (w : World)
      (area_type : Local (option string)) :
  let f := run_command R action base m w area_type in
  match f with
  | Next w' _ => invoked w' = invoked w ++ [id m]
  | _ => stops f
         /\ (invoked (flow_world f) = invoked w
             \/ invoked (flow_world f) = invoked w ++ [id m])
  end.
Proof.
  unfold run_command.
  destruct (is_default_local_play (command m)) as [[|] | e].
  - cbn. split; [discriminate | left; reflexivity].
  - destruct (r_target (resolve_context (host w) m)) as [target | e].
    + rewrite group_mode. cbn [String.eqb Ascii.eqb Bool.eqb].
      destruct (py_exec R (exec_text m) target
                        (host (with_host w (r_host (resolve_context (host w) m)))))
        as [h2 [e |]].
      * match goal with
        | |- context [on_exception ?a ?mm ?b ?ee ?ww ?at'] =>
            destruct (on_exception_stops a mm b ee ww at') as [Hs Hl];
            destruct (on_exception a mm b ee ww at')
        end; try contradiction; (split; [exact Hs |]); right;
          rewrite Hl; unfold invoked; cbn; rewrite map_app; reflexivity.
      * destruct (t_area target) as [a |];
          [destruct (area_type_set (r_area_type (resolve_context (host w) m))) as [t |] |].
        -- match goal with
           | |- context [set_area_ui_type ?hh a t] => destruct (set_area_ui_type hh a t)
           end.
           ++ unfold invoked; cbn; rewrite map_app; reflexivity.
           ++ match goal with
              | |- context [on_exception ?a ?mm ?b ?ee ?ww ?at'] =>
                  destruct (on_exception_stops a mm b ee ww at') as [Hs Hl];
                  destruct (on_exception a mm b ee ww at')
              end; try contradiction; (split; [exact Hs |]); right;
                rewrite Hl; unfold invoked; cbn; rewrite map_app; reflexivity.
        -- unfold invoked; cbn; rewrite map_app; reflexivity.
        -- unfold invoked; cbn; rewrite map_app; reflexivity.
    + match goal with
      | |- context [on_exception ?a ?mm ?b ?ee ?ww ?at'] =>
          destruct (on_exception_stops a mm b ee ww at') as [Hs Hl];
          destruct (on_exception a mm b ee ww at')
      end; try contradiction; (split; [exact Hs |]); left; rewrite Hl; reflexivity.
  - match goal with
    | |- context [on_exception ?a ?mm ?b ?ee ?ww ?at'] =>
        destruct (on_exception_stops a mm b ee ww at') as [Hs Hl];
        destruct (on_exception a mm b ee ww at')
    end; try contradiction; (split; [exact Hs |]); left; rewrite Hl; reflexivity.
Qed.

(** The commands given to [exec] by the plain loop are a prefix of the
    macros, and all of them when the loop reaches its end. *)
Lemma run_commands_group (base : option nat) (ms : list Macro) :
  forall (w : World) (area_type : Local (option string)),
    let f := run_commands R action base ms w area_type in
    exists n,
      invoked (flow_world f) = invoked w ++ firstn n (map id ms)
      /\ match f with
         | Next _ _ => n = length ms
         | _ => stops f
         end.
Proof.
  induction ms as [| m rest IH]; intros w area_type; cbn [run_commands].
  - exists 0. cbn. rewrite app_nil_r. split; reflexivity.
  - pose proof (run_command_group base m w area_type) as H. cbn zeta in H.
    destruct (run_command R action base m w area_type) as [w' at' | v w' | e w'].
    + destruct (IH w' at') as [n [Hl Hn]]. exists (S n). cbn [map firstn length].
      split.
      * rewrite Hl, H, <- app_assoc. reflexivity.
      * destruct (run_commands R action base rest w' at'); [congruence | exact Hn ..].
    + destruct H as [Hs [Hl | Hl]].
      * exists 0. cbn in *. rewrite app_nil_r. split; assumption.
      * exists 1. cbn in *. split; assumption.
    + destruct H as [Hs [Hl | Hl]].
      * exists 0. cbn in *. rewrite app_nil_r. split; assumption.
      * exists 1. cbn in *. split; assumption.
Qed.

End GroupMode.

(** ** Sequences of plain commands *)

Lemma Forall_plain_filter (ms : list Macro) :
  Forall plain ms -> Forall plain (filter active ms).
Proof.
  intro H. apply Forall_forall. intros m Hm.
  apply filter_In in Hm. destruct Hm as [Hm _].
  exact (proj1 (Forall_forall plain ms) H m Hm).
Qed.

(** C1, as amended.  For a sequence of plain commands played with the default
    loop state, [play] ends and does what the plain loop over the active
    macros does: one [run_command] per active macro, in order, until one is
    refused or fails.  Under GROUP the commands given to [exec] are a prefix
    of the active macros in their order, each once and never an inactive one,
    and all of them when [play] returns no error. *)
Theorem play_plain_sequence (R : Runtime) (action : Action) (action_type : string)
        (fuel : nat) (ms : list Macro) (mal mbt : option (list Macro)) (w : World) :
  Forall plain ms ->
  play R action action_type (S fuel) (Some ms) (-1)%Z mal mbt w
  = match run_commands R action (ctx_area (host w)) (filter active ms) w Unbound with
    | Next w' _ => Some (Returned None, w')
    | Return v w' => Some (Returned v, w')
    | Throw e w' => Some (Raised e, w')
    end
  /\ (execution_mode action = "GROUP" ->
      exists out w' n,
        play R action action_type (S fuel) (Some ms) (-1)%Z mal mbt w = Some (out, w')
        /\ invoked w' = invoked w ++ firstn n (map id (filter active ms))
        /\ (out = Returned None ->
            invoked w' = invoked w ++ map id (filter active ms))).
Proof.
  intros Hplain.
  apply Forall_plain_filter in Hplain.
  assert (Hplay :
            play R action action_type (S fuel) (Some ms) (-1)%Z mal mbt w
            = match run_commands R action (ctx_area (host w)) (filter active ms)
                                 w Unbound with
              | Next w' _ => Some (Returned None, w')
              | Return v w' => Some (Returned v, w')
              | Throw e w' => Some (Raised e, w')
              end).
  { cbn [play]. unfold play_body.
    rewrite (prescan_plain R action action_type _ _ w Hplain).
    rewrite (scan_plain R action action_type _ _ _ _ _ _ _ _ Hplain).
    destruct (run_commands R action (ctx_area (host w)) (filter active ms) w Unbound);
      reflexivity. }
  split; [exact Hplay |].
  intro Hgroup. rewrite Hplay.
  destruct (run_commands_group R action Hgroup (ctx_area (host w))
                               (filter active ms) w Unbound) as [n [Hl Hn]].
  destruct (run_commands R action (ctx_area (host w)) (filter active ms) w Unbound)
    as [w' a | v w' | e w']; cbn in Hl, Hn.
  - exists (Returned None), w', n. repeat split; try assumption.
    intros _. rewrite Hl, Hn, <- length_map with (f := id), firstn_all. reflexivity.
  - exists (Returned v), w', n. repeat split; try assumption.
    intro H. inversion H. contradiction.
  - exists (Raised e), w', n. repeat split; try assumption.
    intro H. discriminate.
Qed.

(** The theorem applied to three commands of which the second is inactive. *)
Lemma play_plain_sequence_witness :
  let ms := [Demo.macro "A" "bpy.ops.mesh.primitive_cube_add()";
             mkMacro "B" "bpy.ops.object.delete()" false "EXEC_DEFAULT" EmptyString;
             Demo.macro "C" "bpy.ops.object.shade_smooth()"] in
  exists out w' n,
    play Demo.runtime Demo.group "global_actions" 1 (Some ms) (-1)%Z None None Demo.world0
    = Some (out, w')
    /\ invoked w' = invoked Demo.world0 ++ firstn n ["A"; "C"]
    /\ (out = Returned None -> invoked w' = invoked Demo.world0 ++ ["A"; "C"]).
Proof.
  apply (play_plain_sequence Demo.runtime Demo.group "global_actions" 0
           [Demo.macro "A" "bpy.ops.mesh.primitive_cube_add()";
            mkMacro "B" "bpy.ops.object.delete()" false "EXEC_DEFAULT" EmptyString;
            Demo.macro "C" "bpy.ops.object.shade_smooth()"]
           None None Demo.world0).
  - repeat constructor.
  - reflexivity.
Defined.

(** C1 as stated fails: the sequence holds one plain, active command, which
    the recursion guard refuses; [play] returns the guard's message and the
    command is never invoked. *)
Lemma plain_sequence_counterexample :
  plain default_local_play
  /\ active default_local_play = true
  /\ play Demo.runtime Demo.group "global_actions" 1
          (Some [default_local_play]) (-1)%Z None None Demo.world0
     = Some (Returned (Some (ErrStr local_play_message)),
             set_alert Demo.world0 Demo.group default_local_play)
  /\ ~ (exists fuel out w',
          play Demo.runtime Demo.group "global_actions" fuel
               (Some [default_local_play]) (-1)%Z None None Demo.world0 = Some (out, w')
          /\ invoked w' = invoked Demo.world0 ++ map id (filter active [default_local_play])).
Proof.
  split; [reflexivity |]. split; [reflexivity |]. split; [reflexivity |].
  intros [fuel [out [w' [Hplay Hlog]]]].
  destruct fuel as [| fuel]; [discriminate |].
  vm_compute in Hplay. inversion Hplay; subst. discriminate Hlog.
Qed.

(** ** Counted loops *)



Section CountedLoop.

Variable R : Runtime.
Variable action : Action.
Variable action_type : string.

Lemma loop_free_plain (m : Macro) : plain m -> loop_free R m.
Proof.
  intro H. left. apply decode_plain, H.
Qed.



(** A pass over plain commands is the plain loop over them. *)
Lemma pass_plain (body : list Macro) (w : World) :
  Forall plain body ->
  pass R action action_type body w
  = Some (run_commands R action (ctx_area (host w)) body w Unbound).
Proof.
  intro H. unfold pass.
  rewrite (prescan_plain R action action_type _ _ w H).
  apply scan_plain, H.
Qed.


Variable rec : play_t.


End CountedLoop.




(** Two inputs that the amended C2 leaves out.  With [RepeatCount = 0] the
    body is run once and the command after the loop never: the count reaches
    -1, the value that means no loop.  With a counted loop inside the body the
    inner loop returns from the pass, so the outer count and the macros after
    the outer loop are dropped. *)
Example counted_loop_zero :
  option_map (fun r => (fst r, invoked (snd r)))
    (LoopExamples.run 5 [LoopExamples.loop "0"; LoopExamples.A;
                         LoopExamples.end_loop; LoopExamples.C])
  = Some (Returned None, ["A"]).
Proof. vm_compute. reflexivity. Qed.

Example counted_loop_nested :
  option_map (fun r => (fst r, invoked (snd r)))
    (LoopExamples.run 9 [LoopExamples.loop "2"; LoopExamples.A;
                         LoopExamples.loop "2"; LoopExamples.B;
                         LoopExamples.end_loop; LoopExamples.end_loop;
                         LoopExamples.C])
  = Some (Returned None, ["A"; "B"; "B"]).
Proof. vm_compute. reflexivity. Qed.

(** ** Timers *)

(** What the Timer event registers, for every runtime: the macros after the
    timer, and as the macros before the timer the carried list followed by
    [macros[:-1-i]], the macros without their last [i + 1]. *)
Lemma run_timer_registers (action : Action) (action_type : string)
      (macros : list Macro) (i : nat) (data time : json) (lc : Z)
      (mal : option (list Macro)) (b : Macro) (before : list Macro) (w : World) :
  Json.subscript data "Time" = Ok time ->
  run_timer action action_type macros i data lc mal (Some (b :: before)) w
  = Return None
      (register_timer w
         (mkTimerEntry (Some (context_copy (host w))) (skipn (i + 1) macros)
            action action_type lc mal
            (Some ((b :: before) ++ firstn (length macros - (1 + i)) macros)) time)).
Proof.
  intro Htime. unfold run_timer. rewrite Htime. reflexivity.
Qed.

(** C3 at its failing input: two timers and a command, played afresh.  The
    first timer registers the macros after it and the whole sequence as the
    macros before the timer.  When that continuation runs, the second timer is
    at index 0 of [T2; A] with a carried list that is not empty: nothing was
    run in this pass, yet the continuation carries the carried list followed
    by [T2], not by the empty [activeMacros[:0]].  No command is invoked. *)
Theorem timer_continuation_before_slice :
  let T1 := LoopExamples.timer "T1" in
  let T2 := LoopExamples.timer "T2" in
  let A := LoopExamples.A in
  exists e1 e2 w1 w2,
    LoopExamples.run 1 [T1; T2; A] = Some (Returned None, w1)
    /\ timers w1 = [e1]
    /\ timer_macros e1 = [T2; A]
    /\ timer_macros_before_timer e1 = Some [T1; T2; A]
    /\ run_queued_macros Demo.runtime 1 e1 w1 = Some (None, w2)
    /\ timers w2 = [e1; e2]
    /\ timer_macros e2 = [A]
    /\ timer_macros_before_timer e2 = Some ([T1; T2; A] ++ [T2])
    /\ timer_macros_before_timer e2 <> Some ([T1; T2; A] ++ firstn 0 [T2; A])
    /\ invoked w2 = [].
Proof.
  cbv zeta.
  destruct (LoopExamples.run 1 [LoopExamples.timer "T1"; LoopExamples.timer "T2";
                                LoopExamples.A]) as [[out w1] |] eqn:H1;
    vm_compute in H1; [| discriminate].
  inversion H1 as [[Hout Hw1]]. clear H1.
  match type of Hw1 with
  | mkWorld _ _ [?e] _ _ _ = _ => pose (e1 := e)
  end.
  destruct (run_queued_macros Demo.runtime 1 e1 w1) as [[r w2] |] eqn:H2;
    subst w1; vm_compute in H2; [| discriminate].
  inversion H2 as [[Hr Hw2]]. clear H2.
  match type of Hw2 with
  | mkWorld _ _ [_; ?e] _ _ _ = _ => exists e1, e
  end.
  eexists. eexists.
  repeat split; try reflexivity.
  vm_compute. discriminate.
Qed.

(** ** Loops driven by a Python statement *)

(** The step of the main scan on a Loop event of type python whose statement
    loop ends without an exception, for every runtime: the Loop macro itself
    goes to [run_command], and the scan goes on at the next index, which is
    the first macro of the body. *)
Lemma scan_python_loop (R : Runtime) (action : Action) (action_type : string)
      (rec : play_t) (k : nat) (macros : list Macro) (lc : Z)
      (mal mbt : option (list Macro)) (base : option nat) (i end_index : nat)
      (lm : Macro) (rest : list Macro) (data : json)
      (w w' : World) (area_type : Local (option string)) :
  decode R lm = Some (Ok data) ->
  Json.subscript data "Type" = Ok (JStr "Loop") ->
  Json.subscript data "StatementType" = Ok (JStr "python") ->
  find_end R (i + 1) (skipn (i + 1) macros) 1 = Ok (Some end_index) ->
  while_statement R rec k data (slice (i + 1) end_index macros) w = Some (w', None) ->
  scan R action action_type rec k macros lc mal mbt base i (lm :: rest) w area_type
  = match run_command R action base lm w' area_type with
    | Next w'' area_type' =>
        scan R action action_type rec k macros lc mal mbt base (S i) rest w'' area_type'
    | flow => Some flow
    end.
Proof.
  intros Hd Ht Hst Hend Hwhile.
  cbn [scan]. rewrite Hd, Ht. cbn. rewrite Hend.
  unfold run_loop. rewrite Hst. cbn. rewrite Hwhile. reflexivity.
Qed.

(** C4 at its failing input: a python Loop whose statement is false, a body
    of one command, the EndLoop and one command after it.  The statement is
    evaluated once and the body is not played by the loop; then the Loop
    macro's own command text is given to [exec].  On a host that lets it
    pass, the scan goes on with the body, which runs once; on a host that
    raises on it, [play] returns that exception with the alert set on the
    Loop macro, and the command after the loop never runs. *)
Theorem python_loop_false_falls_through :
  let L := LoopExamples.python_loop "False" in
  let ms := [L; LoopExamples.A; LoopExamples.end_loop; LoopExamples.B] in
  (exists w,
      play Demo.runtime Demo.group "global_actions" 2 (Some ms) (-1)%Z None None
           Demo.world0 = Some (Returned None, w)
      /\ map inv_command (log w)
         = [command L; exec_text LoopExamples.A; exec_text LoopExamples.B]
      /\ invoked w = ["loop"; "A"; "B"])
  /\ (exists w,
         play strict_runtime Demo.group "global_actions" 2 (Some ms) (-1)%Z None None
              Demo.world0 = Some (Returned (Some (ErrExn (NameError "ar"))), w)
         /\ map inv_command (log w) = [command L]
         /\ macro_alerts w = ["loop"]
         /\ action_alerts w = ["action"]).
Proof.
  cbv zeta. split.
  - eexists. split; [vm_compute; reflexivity |]. split; vm_compute; reflexivity.
  - eexists. split; [vm_compute; reflexivity |]. repeat split; vm_compute; reflexivity.
Qed.

(** ** A Loop with no EndLoop *)

(** C5, as amended.  When the scan for the end of a Loop event runs out with
    the depth not back to zero, the Loop event is skipped: the main scan goes
    on with the macro after it, in the same world, as the ordinary
    continuation of the scan. *)
Theorem unmatched_loop_is_skipped (R : Runtime) (action : Action)
        (action_type : string) (rec : play_t) (k : nat) (macros : list Macro)
        (lc : Z) (mal mbt : option (list Macro)) (base : option nat) (i : nat)
        (lm : Macro) (rest : list Macro) (data : json) (w : World)
        (area_type : Local (option string)) :
  decode R lm = Some (Ok data) ->
  Json.subscript data "Type" = Ok (JStr "Loop") ->
  find_end R (i + 1) (skipn (i + 1) macros) 1 = Ok None ->
  scan R action action_type rec k macros lc mal mbt base i (lm :: rest) w area_type
  = scan R action action_type rec k macros lc mal mbt base (S i) rest w area_type.
Proof.
  intros Hd Ht Hend.
  cbn [scan]. rewrite Hd, Ht. cbn. rewrite Hend. reflexivity.
Qed.

(** The theorem applied to a counted Loop followed by one command and no
    EndLoop. *)
Lemma unmatched_loop_is_skipped_witness :
  let L := LoopExamples.loop "2" in
  let rec := play Demo.runtime Demo.group "global_actions" 3 in
  scan Demo.runtime Demo.group "global_actions" rec 3 [L; LoopExamples.A] (-1)%Z
       None None (Some 0) 0 [L; LoopExamples.A] Demo.world0 Unbound
  = scan Demo.runtime Demo.group "global_actions" rec 3 [L; LoopExamples.A] (-1)%Z
         None None (Some 0) 1 [LoopExamples.A] Demo.world0 Unbound.
Proof.
  apply (unmatched_loop_is_skipped Demo.runtime Demo.group "global_actions"
           (play Demo.runtime Demo.group "global_actions" 3) 3
           [LoopExamples.loop "2"; LoopExamples.A] (-1)%Z None None (Some 0) 0
           (LoopExamples.loop "2") [LoopExamples.A]
           (JObj [("Type", JStr "Loop"); ("StatementType", JStr "repeat");
                  ("RepeatCount", JInt 2)])
           Demo.world0 Unbound); reflexivity.
Defined.

(** C5 as stated fails: a counted Loop with [RepeatCount = 2] and no EndLoop,
    followed by one command.  Were the command taken as the body of the loop,
    [play] would do what it does on that body with the count 2 and nothing
    after the loop, and run the command twice; it runs it once, as the
    continuation of the main scan. *)
Lemma unmatched_loop_counterexample :
  let L := LoopExamples.loop "2" in
  let A := LoopExamples.A in
  find_end Demo.runtime 1 [A] 1 = Ok None
  /\ option_map (fun r => (fst r, invoked (snd r))) (LoopExamples.run 4 [L; A])
     = Some (Returned None, ["A"])
  /\ option_map (fun r => (fst r, invoked (snd r)))
       (play Demo.runtime Demo.group "global_actions" 3 (Some [A]) 2%Z (Some []) None
             Demo.world0)
     = Some (Returned None, ["A"; "A"])
  /\ LoopExamples.run 4 [L; A]
     <> play Demo.runtime Demo.group "global_actions" 3 (Some [A]) 2%Z (Some []) None
             Demo.world0.
Proof.
  cbv zeta.
  split; [reflexivity |].
  split; [vm_compute; reflexivity |].
  split; [vm_compute; reflexivity |].
  intro H. apply (f_equal (option_map (fun r => invoked (snd r)))) in H.
  vm_compute in H. discriminate.
Qed.

Lemma find_end_plain (R : Runtime) (rest : list Macro) :
  Forall plain rest -> forall j, find_end R j rest 1 = Ok None.
Proof.
  induction 1 as [| m rest Hm _ IH]; intro j; cbn [find_end]; [reflexivity |].
  rewrite (decode_plain R m Hm). destruct (active m); cbn; apply IH.
Qed.

(** ** Select Object *)

(** When the pre-scan passes and the main scan returns, [play] returns that
    value. *)
Lemma play_returns_scan (R : Runtime) (action : Action) (action_type : string)
      (fuel : nat) (ms : list Macro) (lc : Z) (mal mbt : option (list Macro))
      (w w1 w2 : World) (v : option Err) :
  prescan R action action_type (filter active ms) 0 (filter active ms) w = Ok w1 ->
  scan R action action_type (play R action action_type fuel) fuel (filter active ms)
       lc mal mbt (ctx_area (host w1)) 0 (filter active ms) w1 Unbound
  = Some (Return v w2) ->
  play R action action_type (S fuel) (Some ms) lc mal mbt w = Some (Returned v, w2).
Proof.
  intros Hpre Hscan. cbn [play]. unfold play_body. rewrite Hpre, Hscan. reflexivity.
Qed.

(** The main scan over a prefix of plain commands is the plain loop over it,
    and then the scan of what follows. *)
Lemma scan_plain_prefix (R : Runtime) (action : Action) (action_type : string)
      (rec : play_t) (k : nat) (macros : list Macro) (lc : Z)
      (mal mbt : option (list Macro)) (base : option nat) (pre rest : list Macro) :
  Forall plain pre ->
  forall i w area_type,
    scan R action action_type rec k macros lc mal mbt base i (pre ++ rest) w area_type
    = match run_commands R action base pre w area_type with
      | Next w1 area_type1 =>
          scan R action action_type rec k macros lc mal mbt base (i + length pre)
               rest w1 area_type1
      | flow => Some flow
      end.
Proof.
  induction 1 as [| m pre Hm _ IH]; intros i w area_type;
    cbn [app run_commands length].
  - rewrite Nat.add_0_r. reflexivity.
  - cbn [scan]. rewrite (decode_plain R m Hm).
    destruct (run_command R action base m w area_type); try reflexivity.
    replace (i + S (length pre)) with (S i + length pre) by lia. apply IH.
Qed.

Lemma mem_In (x : string) (l : list string) : mem x l = true <-> In x l.
Proof.
  unfold mem. rewrite existsb_exists. split.
  - intros [y [Hy Heq]]. apply String.eqb_eq in Heq. subst. exact Hy.
  - intro H. exists x. split; [exact H | apply String.eqb_refl].
Qed.

Lemma selected_objects_exist (h : Host) :
  Forall (fun n => mem n (data_objects h) = true) (selected_objects h).
Proof.
  apply Forall_forall. intros n Hn. unfold selected_objects in Hn.
  apply filter_In in Hn. destruct Hn as [_ Hn].
  apply andb_true_iff in Hn. tauto.
Qed.

Lemma selected_objects_layer (h : Host) :
  Forall (fun n => mem n (view_layer_objects h) = true) (selected_objects h).
Proof.
  apply Forall_forall. intros n Hn. unfold selected_objects in Hn.
  apply filter_In in Hn. destruct Hn as [Hn _]. apply mem_In. exact Hn.
Qed.

Lemma selected_objects_In (h : Host) (n : string) :
  In n (selected_objects h)
  <-> In n (view_layer_objects h) /\ In n (selected h) /\ In n (data_objects h).
Proof.
  unfold selected_objects. rewrite filter_In, andb_true_iff, !mem_In. tauto.
Qed.

(** What [select_set] does to the selection of an object that exists and is
    in the view layer. *)
Lemma select_set_spec (h : Host) (name : string) (state : bool) :
  mem name (data_objects h) = true ->
  mem name (view_layer_objects h) = true ->
  exists h',
    select_set h name state = Ok h'
    /\ data_objects h' = data_objects h
    /\ view_layer_objects h' = view_layer_objects h
    /\ active_object h' = active_object h
    /\ (forall n, In n (selected h')
                  <-> if state then In n (selected h) \/ n = name
                      else In n (selected h) /\ n <> name).
Proof.
  intros Hmem Hlayer. unfold select_set. rewrite Hmem, Hlayer.
  eexists. split; [reflexivity |].
  cbn. split; [reflexivity |]. split; [reflexivity |]. split; [reflexivity |]. intro n.
  destruct state.
  - destruct (mem name (selected h)) eqn:Hs.
    + split; [tauto |]. intros [H | H]; [exact H |]. subst n. apply mem_In, Hs.
    + rewrite in_app_iff. cbn. split; intros [H | H]; auto.
      * destruct H as [H | []]; auto.
  - unfold remove_name. rewrite filter_In, negb_true_iff, String.eqb_neq. tauto.
Qed.

(** An object that exists outside the view layer cannot be selected. *)
Lemma select_set_outside (h : Host) (name : string) :
  mem name (data_objects h) = true ->
  mem name (view_layer_objects h) = false ->
  select_set h name true = Raise RuntimeError.
Proof.
  intros Hmem Hlayer. unfold select_set. rewrite Hmem, Hlayer. reflexivity.
Qed.

Lemma select_set_each_false_spec (names : list string) :
  forall h,
    Forall (fun n => mem n (data_objects h) = true) names ->
    Forall (fun n => mem n (view_layer_objects h) = true) names ->
    exists h',
      select_set_each h names false = (h', None)
      /\ data_objects h' = data_objects h
      /\ view_layer_objects h' = view_layer_objects h
      /\ active_object h' = active_object h
      /\ (forall n, In n (selected h') <-> In n (selected h) /\ ~ In n names).
Proof.
  induction names as [| x names IH]; intros h Hall Hlayer; cbn [select_set_each].
  - exists h. split; [reflexivity |]. split; [reflexivity |]. split; [reflexivity |].
    split; [reflexivity |]. intro n. cbn. tauto.
  - inversion Hall as [| y l Hx Hrest]; subst y l.
    inversion Hlayer as [| y l Hx' Hrest']; subst y l.
    destruct (select_set_spec h x false Hx Hx') as [h1 [Heq [Hd [Hv [Ha Hsel]]]]].
    rewrite Heq.
    destruct (IH h1) as [h' [Heq' [Hd' [Hv' [Ha' Hsel']]]]].
    { rewrite Hd. exact Hrest. }
    { rewrite Hv. exact Hrest'. }
    exists h'. split; [exact Heq' |]. split; [congruence |]. split; [congruence |].
    split; [congruence |].
    intro n. rewrite Hsel', Hsel. cbn. intuition congruence.
Qed.

(** The first step of the event: the selection is kept, or every selected
    object of the context is deselected. *)
Lemma clear_selection_spec (keep : json) (h : Host) :
  exists h1,
    (if Json.truthy keep then (h, None)
     else select_set_each h (selected_objects h) false) = (h1, None)
    /\ data_objects h1 = data_objects h
    /\ view_layer_objects h1 = view_layer_objects h
    /\ active_object h1 = active_object h
    /\ (forall n, In n (selected h1)
                  <-> In n (selected h)
                      /\ (Json.truthy keep = true \/ ~ In n (selected_objects h))).
Proof.
  destruct (Json.truthy keep).
  - exists h. split; [reflexivity |]. split; [reflexivity |].
    split; [reflexivity |]. split; [reflexivity |]. intro n. tauto.
  - destruct (select_set_each_false_spec _ h (selected_objects_exist h)
                                         (selected_objects_layer h))
      as [h1 [Heq [Hd [Hv [Ha Hsel]]]]].
    exists h1. split; [exact Heq |]. split; [exact Hd |]. split; [exact Hv |].
    split; [exact Ha |].
    intro n. rewrite Hsel. intuition discriminate.
Qed.

(** The loop over [Objects], when every named object that exists is in the
    view layer: each of them is selected, the names that no object has are
    passed over. *)
Lemma select_named_spec (objs : list string) :
  forall h,
    (forall o, In o objs -> In o (data_objects h) -> In o (view_layer_objects h)) ->
    exists h',
      select_named h (map JStr objs) = (h', None)
      /\ data_objects h' = data_objects h
      /\ view_layer_objects h' = view_layer_objects h
      /\ active_object h' = active_object h
      /\ (forall n, In n (selected h')
                    <-> In n (selected h) \/ (In n objs /\ In n (data_objects h))).
Proof.
  induction objs as [| x objs IH]; intros h Hlayer; cbn [map select_named].
  - exists h. split; [reflexivity |]. split; [reflexivity |]. split; [reflexivity |].
    split; [reflexivity |]. intro n. cbn. tauto.
  - destruct (mem x (data_objects h)) eqn:Hx.
    + assert (Hx' : mem x (view_layer_objects h) = true).
      { apply mem_In. apply Hlayer; [left; reflexivity | apply mem_In; exact Hx]. }
      destruct (select_set_spec h x true Hx Hx') as [h1 [Heq [Hd [Hv [Ha Hsel]]]]].
      rewrite Heq. destruct (IH h1) as [h' [Heq' [Hd' [Hv' [Ha' Hsel']]]]].
      { intros o Ho Hdata. rewrite Hv. apply Hlayer; [right; exact Ho |].
        rewrite <- Hd. exact Hdata. }
      exists h'. split; [exact Heq' |]. split; [congruence |]. split; [congruence |].
      split; [congruence |].
      intro n. rewrite Hsel', Hsel, Hd. cbn. apply mem_In in Hx.
      intuition (subst; auto).
    + destruct (IH h) as [h' [Heq' [Hd' [Hv' [Ha' Hsel']]]]].
      { intros o Ho Hdata. apply Hlayer; [right; exact Ho | exact Hdata]. }
      exists h'. split; [exact Heq' |]. split; [exact Hd' |]. split; [exact Hv' |].
      split; [exact Ha' |].
      intro n. rewrite Hsel'. cbn.
      assert (Hnot : ~ In x (data_objects h))
        by (intro Hin; apply mem_In in Hin; congruence).
      intuition (subst; auto; contradiction).
Qed.



(** The same event played from the start of a sequence: [play] returns the
    message, the command after the event is not run, and the camera is
    selected. *)
Example select_missing_object_play :
  option_map (fun r => (fst r, invoked (snd r), selected (host (snd r)),
                        macro_alerts (snd r), action_alerts (snd r)))
    (LoopExamples.run 1 [LoopExamples.select_ghost; LoopExamples.A])
  = Some (Returned (Some (ErrStr "Ghost Object doesn't exist in the active view layer")),
          [], ["Camera"], ["select"], ["action"]).
Proof. vm_compute. reflexivity. Qed.


(** ** A command run per object *)

(** C7 at its failing input: the action runs its commands per object, and
    two objects are selected.  [execute_individually] deselects both, selects
    the first and assigns it to [context.selectable_objects], which raises
    [AttributeError]: the command is given to [exec] for no object, [play]
    returns the exception with the alert set, and the first object is left
    selected alone. *)
Theorem execute_individually_never_invokes :
  selected_objects Demo.host0 = ["Cube"; "Light"]
  /\ execution_mode Demo.individual = "INDIVIDUAL"
  /\ (exists w,
         execute_individually Demo.runtime "A" (exec_text LoopExamples.A)
                              (mkTarget None None None None) Demo.world0
         = (w, Some (AttributeError "selectable_objects"))
         /\ log w = []
         /\ selected_objects (host w) = ["Cube"])
  /\ (exists w,
         play Demo.runtime Demo.individual "global_actions" 1 (Some [LoopExamples.A])
              (-1)%Z None None Demo.world0
         = Some (Returned (Some (ErrExn (AttributeError "selectable_objects"))), w)
         /\ log w = []
         /\ macro_alerts w = ["A"]
         /\ action_alerts w = ["action"]
         /\ selected_objects (host w) = ["Cube"]).
Proof.
  split; [reflexivity |]. split; [reflexivity |]. split.
  - eexists. split; [vm_compute; reflexivity |]. split; reflexivity.
  - eexists. split; [vm_compute; reflexivity |]. repeat split; reflexivity.
Qed.

(** ** The render-complete queue *)

Lemma collection_get_missing (collection : list Action) (key : string) :
  Forall (fun a => action_id a <> key) collection ->
  collection_get collection key = Raise (KeyError key).
Proof.
  induction 1 as [| a rest Ha _ IH]; cbn [collection_get]; [reflexivity |].
  apply String.eqb_neq in Ha. rewrite Ha. exact IH.
Qed.

Lemma drain_skips (prefs : Preferences) (q1 q2 : list (string * string * string)) :
  Forall (resume_macro_absent prefs) q1 ->
  forall w, drain prefs (q1 ++ q2) w = drain prefs q2 w.
Proof.
  induction 1 as [| [[t a] s] q1 [action [Hres Hfind]] _ IH]; intro w;
    cbn [app drain]; [reflexivity |].
  fold (resolve_action prefs t a). rewrite Hres, Hfind, IH.
  destruct q2 as [| [[t2 a2] s2] q2]; reflexivity.
Qed.

(** C8, as amended.  The drain pops the entries from the front of the queue.
    Entries whose resume macro is absent from the macros of their action are
    skipped with no error and no continuation registered: a queue of such
    entries is emptied and nothing else changes.  When the next entry names
    an action that is no longer in its collection, the lookup raises
    [KeyError] out of the callback: the entry is popped, the entries after it
    stay in the queue, and no continuation is registered. *)
Theorem render_complete_drain (prefs : Preferences) (w : World)
        (skipped : list (string * string * string)) :
  Forall (resume_macro_absent prefs) skipped ->
  (render_complete_macros w = skipped ->
   execute_render_complete prefs w = (with_render_complete w [], None))
  /\ (forall action_type key start_id rest collection,
         render_complete_macros w = skipped ++ (action_type, key, start_id) :: rest ->
         getattr prefs action_type = Ok collection ->
         Forall (fun a => action_id a <> key) collection ->
         execute_render_complete prefs w
         = (with_render_complete w rest, Some (KeyError key))).
Proof.
  intro Hskip. unfold execute_render_complete. split.
  - intro Hq. rewrite Hq, <- (app_nil_r skipped), (drain_skips prefs _ [] Hskip).
    reflexivity.
  - intros t a s rest collection Hq Hattr Hmissing.
    rewrite Hq, (drain_skips prefs _ _ Hskip). cbn [drain].
    rewrite Hattr. cbn [bind]. rewrite (collection_get_missing _ _ Hmissing).
    reflexivity.
Qed.

(** The theorem applied to a queue of one entry whose macro was deleted,
    followed by an entry whose action was deleted and one more entry. *)
Lemma render_complete_drain_witness :
  let stale := ("global_actions", "render", "deleted") in
  let gone := ("global_actions", "gone", "A") in
  let last := ("global_actions", "render", "A") in
  (render_complete_macros (QueueExamples.queued [stale]) = [stale] ->
   execute_render_complete QueueExamples.prefs (QueueExamples.queued [stale])
   = (with_render_complete (QueueExamples.queued [stale]) [], None))
  /\ execute_render_complete QueueExamples.prefs (QueueExamples.queued [stale; gone; last])
     = (with_render_complete (QueueExamples.queued [stale; gone; last]) [last],
        Some (KeyError "gone")).
Proof.
  cbv zeta.
  assert (H : Forall (resume_macro_absent QueueExamples.prefs)
                     [("global_actions", "render", "deleted")]).
  { constructor; [| constructor]. exists QueueExamples.render. split; reflexivity. }
  destruct (render_complete_drain QueueExamples.prefs
              (QueueExamples.queued [("global_actions", "render", "deleted")])
              _ H) as [Hempty _].
  destruct (render_complete_drain QueueExamples.prefs
              (QueueExamples.queued [("global_actions", "render", "deleted");
                                     ("global_actions", "gone", "A");
                                     ("global_actions", "render", "A")])
              _ H) as [_ Hgone].
  split; [exact Hempty |].
  apply (Hgone "global_actions" "gone" "A" [("global_actions", "render", "A")]
               [QueueExamples.render]); try reflexivity.
  constructor; [discriminate | constructor].
Defined.

(** C8 as stated fails: the one entry of the queue names an action that was
    deleted.  The callback does not treat it as a no-op: it raises
    [KeyError]. *)
Lemma render_complete_counterexample :
  let w := QueueExamples.queued [("global_actions", "gone", "A")] in
  execute_render_complete QueueExamples.prefs w
  = (with_render_complete w [], Some (KeyError "gone"))
  /\ snd (execute_render_complete QueueExamples.prefs w) <> None.
Proof.
  cbv zeta. split; [reflexivity | discriminate].
Qed.

(** The entry that C8 as amended leaves out: the action and the resume macro
    both exist.  The slice of the macros is taken with the unbound name
    [start], so the callback raises [NameError] and registers nothing. *)
Example render_complete_resume :
  let w := QueueExamples.queued [("global_actions", "render", "A")] in
  execute_render_complete QueueExamples.prefs w
  = (with_render_complete w [], Some (NameError "start"))
  /\ timers (fst (execute_render_complete QueueExamples.prefs w)) = [].
Proof.
  cbv zeta. split; reflexivity.
Qed.

(** ** The target region *)

(** The region loop has no break: of the regions of type WINDOW the one kept
    is the last one met in reverse, the first of the list. *)
Lemma select_region_first (rs : list Region) (temp_region : option Region) :
  select_region rs temp_region
  = match List.find is_window rs with
    | Some region => Some region
    | None => temp_region
    end.
Proof.
  unfold select_region.
  induction rs as [| r rs IH]; cbn [rev List.find]; [reflexivity |].
  rewrite fold_left_app, IH. cbn [fold_left].
  unfold is_window at 2. destruct (String.eqb (region_type r) "WINDOW"); cbn.
  - reflexivity.
  - reflexivity.
Qed.

(** C9 at its failing input: the area has several regions of type WINDOW.  The
    last of them in the list is region 4; the command is run with region 1,
    the first of them, as its target region. *)
Theorem target_region_is_first_window :
  let rs := regions RegionExamples.quad_view in
  List.find is_window (rev rs) = Some (mkRegion 4 "WINDOW")
  /\ select_region rs (Some (mkRegion 0 "HEADER")) = Some (mkRegion 1 "WINDOW")
  /\ option_map (fun r => map (fun i => t_region (inv_target i)) (log (snd r)))
       (play Demo.runtime Demo.group "global_actions" 1 (Some [LoopExamples.A])
             (-1)%Z None None RegionExamples.world)
     = Some [Some (mkRegion 1 "WINDOW")].
Proof.
  cbv zeta. split; [reflexivity |]. split; [reflexivity |].
  vm_compute. reflexivity.
Qed.

(** ** The pre-scan for Render Complete *)

Lemma prescan_passes_over (R : Runtime) (action : Action) (action_type : string)
      (macros pre rest : list Macro) (w : World) :
  Forall (prescan_passes R) pre ->
  forall i,
    prescan R action action_type macros i (pre ++ rest) w
    = prescan R action action_type macros (i + length pre) rest w.
Proof.
  induction 1 as [| m pre Hm _ IH]; intro i; cbn [app prescan length].
  - rewrite Nat.add_0_r. reflexivity.
  - replace (i + S (length pre)) with (S i + length pre) by lia.
    destruct Hm as [Hm | [data [type [Hd [Ht Hrc]]]]].
    + rewrite Hm. apply IH.
    + rewrite Hd. cbn [bind]. rewrite Ht. cbn [bind]. rewrite Hrc. apply IH.
Qed.

(** C10, as amended.  The active macros end with a Render Complete event and
    hold no other one before it (the macros before it are commands, or events
    that decode with another type).  Then the pre-scan reads [macros[i + 1]]
    past the end: [play] raises [IndexError] with the world as it was, no
    command run and nothing registered.  With a macro after the event, the
    pre-scan registers the id of that macro. *)
Theorem render_complete_last (R : Runtime) (action : Action) (action_type : string)
        (ms pre : list Macro) (rc : Macro) (data : json) :
  filter active ms = pre ++ [rc] ->
  Forall (prescan_passes R) pre ->
  decode R rc = Some (Ok data) ->
  Json.subscript data "Type" = Ok (JStr "Render Complete") ->
  (forall fuel lc mal mbt w,
      play R action action_type (S fuel) (Some ms) lc mal mbt w
      = Some (Raised IndexError, w))
  /\ (forall next rest w,
         prescan R action action_type (pre ++ rc :: next :: rest) 0
                 (pre ++ rc :: next :: rest) w
         = Ok (with_render_complete w
                 (render_complete_macros w
                    ++ [(action_type, action_id action, id next)]))).
Proof.
  intros Hms Hpre Hd Ht. split.
  - intros fuel lc mal mbt w. cbn [play]. unfold play_body. rewrite Hms.
    rewrite (prescan_passes_over R action action_type _ pre [rc] w Hpre 0).
    cbn [prescan Nat.add]. rewrite Hd. cbn [bind]. rewrite Ht. cbn.
    assert (Hnone : nth_error (pre ++ [rc]) (length pre + 1) = None).
    { apply nth_error_None. rewrite length_app. cbn. lia. }
    rewrite Hnone. reflexivity.
  - intros next rest w.
    rewrite (prescan_passes_over R action action_type _ pre (rc :: next :: rest) w Hpre 0).
    cbn [prescan Nat.add]. rewrite Hd. cbn [bind]. rewrite Ht. cbn.
    assert (Hnext : nth_error (pre ++ rc :: next :: rest) (length pre + 1) = Some next).
    { rewrite nth_error_app2 by lia.
      replace (length pre + 1 - length pre) with 1 by lia. reflexivity. }
    rewrite Hnext. reflexivity.
Qed.

(** The theorem applied to a command followed by a Render Complete event. *)
Lemma render_complete_last_witness :
  let rc := LoopExamples.render_complete "wait" in
  (forall fuel lc mal mbt w,
      play Demo.runtime Demo.group "global_actions" (S fuel)
           (Some [LoopExamples.A; rc]) lc mal mbt w
      = Some (Raised IndexError, w))
  /\ (forall next rest w,
         prescan Demo.runtime Demo.group "global_actions"
                 ([LoopExamples.A] ++ rc :: next :: rest) 0
                 ([LoopExamples.A] ++ rc :: next :: rest) w
         = Ok (with_render_complete w
                 (render_complete_macros w
                    ++ [("global_actions", action_id Demo.group, id next)]))).
Proof.
  apply (render_complete_last Demo.runtime Demo.group "global_actions"
           [LoopExamples.A; LoopExamples.render_complete "wait"]
           [LoopExamples.A] (LoopExamples.render_complete "wait")
           (JObj [("Type", JStr "Render Complete")]));
    try reflexivity.
  constructor; [left; reflexivity | constructor].
Defined.

(** C10 as stated fails: the last active macro is a Render Complete event, and
    so is the first.  The pre-scan stops at the first one and registers the
    macro after it; the main scan returns on it.  [play] returns with no
    error. *)
Lemma render_complete_last_counterexample :
  let ms := [LoopExamples.render_complete "first"; LoopExamples.A;
             LoopExamples.render_complete "last"] in
  last (filter active ms) LoopExamples.A = LoopExamples.render_complete "last"
  /\ LoopExamples.run 1 ms
     = Some (Returned None,
             with_render_complete Demo.world0 [("global_actions", "action", "A")])
  /\ (forall fuel w, LoopExamples.run fuel ms <> Some (Raised IndexError, w)).
Proof.
  cbv zeta. split; [reflexivity |]. split; [vm_compute; reflexivity |].
  intros fuel w H. destruct fuel as [| fuel]; [discriminate |].
  vm_compute in H. discriminate.
Qed.

(** ** More fuel changes no result *)

Section FuelMonotone.

Variable R : Runtime.
Variable action : Action.
Variable action_type : string.
Variables rec rec' : play_t.
Hypothesis Hrec : extends rec rec'.

Lemma while_statement_mono (data : json) (loop_macros : list Macro) :
  forall k k' w r,
    k <= k' ->
    while_statement R rec k data loop_macros w = Some r ->
    while_statement R rec' k' data loop_macros w = Some r.
Proof.
  induction k as [| k IH]; intros k' w r Hle H; [discriminate |].
  destruct k' as [| k']; [lia |].
  cbn [while_statement] in *.
  destruct (Json.subscript data "PyStatement") as [[| | | | statement | |] | e];
    try exact H.
  destruct (py_eval R statement (host w)) as [h [[|] | e]]; try exact H.
  destruct (rec (Some loop_macros) (-1)%Z None None (with_host w h))
    as [[[v | e] w'] |] eqn:Hr; [| | discriminate].
  - rewrite (Hrec _ _ _ _ _ _ Hr). apply IH; [lia | exact H].
  - rewrite (Hrec _ _ _ _ _ _ Hr). exact H.
Qed.

Lemma count_loop_mono (loop_macros : list Macro) :
  forall n w r,
    count_loop rec n loop_macros w = Some r ->
    count_loop rec' n loop_macros w = Some r.
Proof.
  induction n as [| n IH]; intros w r H; cbn [count_loop] in *; [exact H |].
  destruct (rec (Some loop_macros) (-1)%Z None None w) as [[[v | e] w'] |] eqn:Hr;
    [| | discriminate]; rewrite (Hrec _ _ _ _ _ _ Hr).
  - destruct (err_truthy v); [exact H | apply IH; exact H].
  - exact H.
Qed.

Lemma run_loop_mono (k k' : nat) (macros : list Macro) (i end_index : nat)
      (macro : Macro) (data : json) (mbt : option (list Macro)) (w : World)
      (r : Flow + World) :
  k <= k' ->
  run_loop R action rec k macros i end_index macro data mbt w = Some r ->
  run_loop R action rec' k' macros i end_index macro data mbt w = Some r.
Proof.
  intros Hle. unfold run_loop.
  destruct (Json.subscript data "StatementType") as [st | e]; [| trivial].
  destruct (Json.is_str st "python").
  - destruct (while_statement R rec k data (slice (i + 1) end_index macros) w)
      as [[w' o] |] eqn:Hw; [| discriminate].
    rewrite (while_statement_mono _ _ _ _ _ _ Hle Hw). trivial.
  - destruct (Json.is_str st "count").
    + destruct (Json.subscript data "Startnumber") as [a | e]; [| trivial].
      destruct (Json.subscript data "Endnumber") as [b | e]; [| trivial].
      destruct (Json.subscript data "Stepnumber") as [s | e]; [| trivial].
      destruct (as_int a) as [za |]; [| trivial].
      destruct (as_int b) as [zb |]; [| trivial].
      destruct (as_int s) as [zs |]; [| trivial].
      destruct (zs =? 0)%Z; [trivial |].
      destruct (count_loop rec (arange_length za zb zs)
                           (slice (i + 1) end_index macros) w) as [c |] eqn:Hc;
        [| discriminate].
      rewrite (count_loop_mono _ _ _ _ Hc). trivial.
    + destruct (Json.subscript data "RepeatCount") as [n | e]; [| trivial].
      destruct (as_int n) as [zn |]; [| trivial].
      destruct (rec (Some (slice (i + 1) end_index macros)) zn
                    (Some (skipn (end_index + 1) macros)) mbt w) as [p |] eqn:Hr;
        [| discriminate].
      rewrite (Hrec _ _ _ _ _ _ Hr). trivial.
Qed.

Lemma scan_mono (k k' : nat) (macros : list Macro) (lc : Z)
      (mal mbt : option (list Macro)) (base : option nat) (rest : list Macro) :
  k <= k' ->
  forall i w area_type f,
    scan R action action_type rec k macros lc mal mbt base i rest w area_type = Some f ->
    scan R action action_type rec' k' macros lc mal mbt base i rest w area_type = Some f.
Proof.
  intro Hle.
  induction rest as [| macro rest IH]; intros i w area_type f H; [exact H |].
  cbn [scan] in *.
  destruct (decode R macro) as [[data | e] |]; try exact H.
  - destruct (Json.subscript data "Type") as [type | e]; [| exact H].
    destruct (negb (Json.hashable type)); [exact H |].
    destruct (Json.is_str type "Render Complete"); [exact H |].
    destruct (Json.is_str type "Timer"); [exact H |].
    destruct (Json.is_str type "Loop").
    + destruct (find_end R (i + 1) (skipn (i + 1) macros) 1) as [[end_index |] | e];
        [| apply IH; exact H | exact H].
      destruct (run_loop R action rec k macros i end_index macro data mbt w)
        as [[flow | w'] |] eqn:Hl; [| | discriminate];
        rewrite (run_loop_mono _ _ _ _ _ _ _ _ _ _ Hle Hl); [exact H |].
      destruct (run_command R action base macro w' area_type);
        [apply IH; exact H | exact H ..].
    + destruct (Json.is_str type "Select Object").
      * destruct (select_object action macro data w area_type);
          [apply IH; exact H | exact H ..].
      * destruct (Json.is_str type "Run Script").
        -- destruct (run_script R action macro data w area_type);
             [apply IH; exact H | exact H ..].
        -- destruct (Json.is_str type "EndLoop"); [apply IH; exact H |].
           destruct (run_command R action base macro w area_type);
             [apply IH; exact H | exact H ..].
  - destruct (run_command R action base macro w area_type);
      [apply IH; exact H | exact H ..].
Qed.

Lemma play_body_mono (k k' : nat) :
  k <= k' ->
  extends (play_body R action action_type rec k) (play_body R action action_type rec' k').
Proof.
  intros Hle ms lc mal mbt w r H. unfold play_body in *.
  destruct ms as [all_macros |]; [| exact H].
  destruct (prescan R action action_type (filter active all_macros) 0
                    (filter active all_macros) w) as [w1 | e]; [| exact H].
  destruct (scan R action action_type rec k (filter active all_macros) lc mal mbt
                 (ctx_area (host w1)) 0 (filter active all_macros) w1 Unbound)
    as [flow |] eqn:Hs; [| discriminate].
  rewrite (scan_mono _ _ _ _ _ _ _ _ Hle _ _ _ _ Hs).
  destruct flow as [w2 a | v w2 | e w2]; try exact H.
  destruct (0 <? lc - 1)%Z; [apply Hrec; exact H |].
  destruct (lc - 1 =? 0)%Z; [apply Hrec; exact H | exact H].
Qed.

End FuelMonotone.

(** A result of [play] stays the same with more fuel. *)
Lemma play_fuel_mono (R : Runtime) (action : Action) (action_type : string)
      (fuel fuel' : nat) :
  fuel <= fuel' ->
  extends (play R action action_type fuel) (play R action action_type fuel').
Proof.
  revert fuel'.
  induction fuel as [| fuel IH]; intros fuel' Hle; [intros ms lc mal mbt w r H; discriminate |].
  destruct fuel' as [| fuel']; [lia |].
  cbn [play]. apply play_body_mono; [apply IH |]; lia.
Qed.

(** * Further properties of the engine *)

(** ** The text given to exec *)

Lemma split_app_sep (c : ascii) (head rest : string) :
  no_char c head ->
  PyStr.split c (head ++ String c rest) = head :: PyStr.split c rest.
Proof.
  unfold no_char.
  induction head as [| a head IH]; intro H; cbn [append PyStr.split].
  - rewrite Ascii.eqb_refl. reflexivity.
  - cbn [PyStr.all_chars] in H. apply andb_true_iff in H. destruct H as [Ha H].
    apply negb_true_iff in Ha. rewrite Ha, (IH H). reflexivity.
Qed.

(** X1.  An operator call [head(args)], where [head] starts with bpy.ops. and
    holds no parenthesis, is given to exec with the operator execution
    context of the macro, quoted, as its first argument and the arguments
    unchanged after it. *)
Theorem exec_text_operator (macro : Macro) (head args : string) :
  command macro = (head ++ "(" ++ args)%string ->
  no_char "("%char head ->
  PyStr.startswith "bpy.ops." (command macro) = true ->
  exec_text macro
  = (head ++ "(" ++ String PyStr.dquote (operator_execution_context macro)
          ++ String PyStr.dquote ", " ++ args)%string.
Proof.
  intros Hcmd Hhead Hstart. unfold exec_text. rewrite Hstart, Hcmd.
  change (head ++ "(" ++ args)%string with (head ++ String "("%char args)%string.
  rewrite (split_app_sep "("%char head args Hhead). cbn [hd tl].
  rewrite (join_split "("%char args). reflexivity.
Qed.

Lemma exec_text_operator_witness :
  exec_text (Demo.macro "A" "bpy.ops.mesh.primitive_cube_add(size=(2, 2))")
  = ("bpy.ops.mesh.primitive_cube_add" ++ "("
       ++ String PyStr.dquote "EXEC_DEFAULT" ++ String PyStr.dquote ", "
       ++ "size=(2, 2))")%string.
Proof.
  apply (exec_text_operator
           (Demo.macro "A" "bpy.ops.mesh.primitive_cube_add(size=(2, 2))")
           "bpy.ops.mesh.primitive_cube_add" "size=(2, 2))");
    reflexivity.
Defined.

(** ** Alerts *)

Lemma individually_loop_alerts (R : Runtime) (macro_id command : string)
      (target : Target) (objects : list string) :
  forall w,
    action_alerts (fst (individually_loop R macro_id command target objects w))
    = action_alerts w
    /\ macro_alerts (fst (individually_loop R macro_id command target objects w))
       = macro_alerts w.
Proof.
  induction objects as [| o rest IH]; intro w; cbn [individually_loop].
  - split; reflexivity.
  - destruct (select_set (host w) o true) as [h1 | e]; [| split; reflexivity].
    cbn [assign_context bind]. split; reflexivity.
Qed.

Lemma execute_individually_alerts (R : Runtime) (macro_id command : string)
      (target : Target) (w : World) :
  action_alerts (fst (execute_individually R macro_id command target w))
  = action_alerts w
  /\ macro_alerts (fst (execute_individually R macro_id command target w))
     = macro_alerts w.
Proof.
  unfold execute_individually.
  destruct (select_set_each (host w) (selected_objects (host w)) false)
    as [h1 [e |]]; [split; reflexivity |].
  destruct (individually_loop_alerts R macro_id command target
              (selected_objects (host w)) (with_host w h1)) as [Ha Hm].
  destruct (individually_loop R macro_id command target (selected_objects (host w))
              (with_host w h1)) as [w2 [e |]]; cbn [fst] in *; [split; assumption |].
  destruct (reselect (host w2) (selected_objects (host w))) as [h3 raised].
  cbn [fst]. split; assumption.
Qed.

Lemma on_exception_alerts (action : Action) (m : Macro) (base : option nat)
      (e : Exn) (w : World) (area_type : Local (option string)) :
  action_alerts (flow_world (on_exception action m base e w area_type))
  = action_id action :: action_alerts w
  /\ macro_alerts (flow_world (on_exception action m base e w area_type))
     = id m :: macro_alerts w.
Proof.
  unfold on_exception.
  destruct base as [b |]; [| split; reflexivity].
  destruct area_type as [| t]; [split; reflexivity |].
  destruct (area_type_set t) as [t' |]; [| split; reflexivity].
  destruct (set_area_ui_type (host (set_alert w action m)) b t'); split; reflexivity.
Qed.

(** X2.  A plain command that lets the scan go on leaves the alert flags as
    they were; a command that ends [play] (refused by the guard, failed to
    resolve, raised) has the alert set on its macro and on the action, and on
    nothing else. *)
Theorem run_command_alerts (R : Runtime) (action : Action) (base : option nat)
        (m : Macro) (w : World) (area_type : Local (option string)) :
  match run_command R action base m w area_type with
  | Next w' _ => action_alerts w' = action_alerts w /\ macro_alerts w' = macro_alerts w
  | f => action_alerts (flow_world f) = action_id action :: action_alerts w
         /\ macro_alerts (flow_world f) = id m :: macro_alerts w
  end.
Proof.
  assert (Hrun : forall rc w1 target,
             let r := if String.eqb (execution_mode action) "GROUP"
                      then let (h2, r) := py_exec R (exec_text m) target (host w1) in
                           (with_host (add_log w1 (mkInvocation (id m) (exec_text m)
                                                                target None)) h2, r)
                      else execute_individually R (id m) (exec_text m) target w1 in
             rc = r ->
             action_alerts (fst rc) = action_alerts w1
             /\ macro_alerts (fst rc) = macro_alerts w1).
  { intros rc w1 target r Hrc. subst rc r.
    destruct (String.eqb (execution_mode action) "GROUP").
    - destruct (py_exec R (exec_text m) target (host w1)); split; reflexivity.
    - apply execute_individually_alerts. }
  unfold run_command.
  destruct (is_default_local_play (command m)) as [[|] | e].
  - split; reflexivity.
  - set (rc := resolve_context (host w) m).
    destruct (r_target rc) as [target | e].
    + specialize (Hrun _ (with_host w (r_host rc)) target eq_refl).
      cbv zeta in Hrun.
      destruct (if String.eqb (execution_mode action) "GROUP"
                then let (h2, r) := py_exec R (exec_text m) target
                                            (host (with_host w (r_host rc))) in
                     (with_host (add_log (with_host w (r_host rc))
                                         (mkInvocation (id m) (exec_text m) target None))
                                h2, r)
                else execute_individually R (id m) (exec_text m) target
                                          (with_host w (r_host rc)))
        as [w2 [e |]]; cbn [fst] in Hrun; destruct Hrun as [Ha Hm].
      * match goal with
        | |- context [on_exception ?a ?mm ?b ?ee ?ww ?at'] =>
            destruct (on_exception_alerts a mm b ee ww at') as [Ha' Hm'];
            pose proof (on_exception_stops a mm b ee ww at') as [Hs _];
            destruct (on_exception a mm b ee ww at')
        end; [contradiction | |]; cbn in *; rewrite Ha', Hm', Ha, Hm;
          split; reflexivity.
      * destruct (t_area target) as [a |];
          [destruct (area_type_set (r_area_type rc)) as [t |] |];
          try (cbn; split; assumption).
        destruct (set_area_ui_type (host w2) a t); [cbn; split; assumption |].
        match goal with
        | |- context [on_exception ?a ?mm ?b ?ee ?ww ?at'] =>
            destruct (on_exception_alerts a mm b ee ww at') as [Ha' Hm'];
            pose proof (on_exception_stops a mm b ee ww at') as [Hs _];
            destruct (on_exception a mm b ee ww at')
        end; [contradiction | |]; cbn in *; rewrite Ha', Hm', Ha, Hm;
          split; reflexivity.
    + match goal with
      | |- context [on_exception ?a ?mm ?b ?ee ?ww ?at'] =>
          destruct (on_exception_alerts a mm b ee ww at') as [Ha' Hm'];
          pose proof (on_exception_stops a mm b ee ww at') as [Hs _];
          destruct (on_exception a mm b ee ww at')
      end; [contradiction | |]; cbn in *; rewrite Ha', Hm'; split; reflexivity.
  - match goal with
    | |- context [on_exception ?a ?mm ?b ?ee ?ww ?at'] =>
        destruct (on_exception_alerts a mm b ee ww at') as [Ha' Hm'];
        pose proof (on_exception_stops a mm b ee ww at') as [Hs _];
        destruct (on_exception a mm b ee ww at')
    end; [contradiction | |]; cbn in *; rewrite Ha', Hm'; split; reflexivity.
Qed.

(** ** The classifier and the target region *)

(** X3.  A command is taken for an event exactly when it is the reserved word
    ar.event alone or starts with ar.event and a colon; the text given to the
    JSON decoder is all that follows that first colon, later colons
    included (and the empty text for the word alone). *)
Theorem classifier_payload (m : Macro) (payload : string) :
  (is_event m = true
   <-> command m = "ar.event" \/ exists p, command m = ("ar.event:" ++ p)%string)
  /\ (event_payload (command m) = Some payload
      <-> (command m = "ar.event" /\ payload = EmptyString)
          \/ command m = ("ar.event:" ++ payload)%string).
Proof.
  split; [apply is_event_spec | apply event_payload_spec].
Qed.

(** X4.  Of the regions of the area the command runs in, the one given to the
    override is the first of type WINDOW in the order of the list; when the
    area has none, the region of the context is kept. *)
Theorem region_is_first_window (rs : list Region) (temp_region : option Region) :
  select_region rs temp_region
  = match List.find is_window rs with
    | Some region => Some region
    | None => temp_region
    end
  /\ (forall region, select_region rs temp_region = Some region ->
                     Some region = temp_region
                     \/ (In region rs /\ region_type region = "WINDOW")).
Proof.
  rewrite select_region_first. split; [reflexivity |].
  intros region H. destruct (List.find is_window rs) as [r |] eqn:Hfind.
  - right. inversion H; subst r. apply find_some in Hfind.
    destruct Hfind as [Hin Hw]. split; [exact Hin |].
    unfold is_window in Hw. apply String.eqb_eq, Hw.
  - left. symmetry. exact H.
Qed.

(** ** Counted loops that do not repeat *)



(** ** Resuming after a render *)

(** X6.  In the drain of the render-complete queue, entries whose action is
    found and whose resume macro is no longer among its macros are passed
    over.  The first entry whose action and resume macro both exist schedules
    nothing: taking the slice of the macros raises [NameError] on the name
    start.  The callback ends there with that entry popped, the entries after
    it left in the queue and no timer registered. *)
Theorem render_complete_resume_raises (prefs : Preferences) (w : World)
        (skipped rest : list (string * string * string))
        (entry : string * string * string) :
  Forall (resume_macro_absent prefs) skipped ->
  resume_macro_present prefs entry ->
  render_complete_macros w = skipped ++ entry :: rest ->
  execute_render_complete prefs w
  = (with_render_complete w rest, Some (NameError "start")).
Proof.
  intros Hskip Hpresent Hq. unfold execute_render_complete.
  rewrite Hq, (drain_skips prefs _ _ Hskip).
  destruct entry as [[t a] s]. destruct Hpresent as [action [index [Hres Hfind]]].
  cbn [drain]. fold (resolve_action prefs t a). rewrite Hres, Hfind. reflexivity.
Qed.

Lemma render_complete_resume_raises_witness :
  let entry := ("global_actions", "render", "A") in
  let later := ("global_actions", "render", "wait") in
  execute_render_complete QueueExamples.prefs (QueueExamples.queued [entry; later])
  = (with_render_complete (QueueExamples.queued [entry; later]) [later],
     Some (NameError "start")).
Proof.
  apply (render_complete_resume_raises QueueExamples.prefs
           (QueueExamples.queued [("global_actions", "render", "A");
                                  ("global_actions", "render", "wait")])
           [] [("global_actions", "render", "wait")]
           ("global_actions", "render", "A")).
  - constructor.
  - exists QueueExamples.render, 1. split; reflexivity.
  - reflexivity.
Defined.

(** ** A command run per object, for every host *)

(** X7.  [execute_individually] gives the command to [exec] for no object,
    whatever the host does with commands.  With no object selected it does
    nothing.  With objects selected it deselects them and selects the first;
    the assignment to [context.selectable_objects] then raises
    [AttributeError]: the first object is left selected alone, and the
    active object is what it was. *)
Theorem execute_individually_stops_at_first (R : Runtime) (macro_id command : string)
        (target : Target) (w : World) :
  match selected_objects (host w) with
  | [] => execute_individually R macro_id command target w = (w, None)
  | first :: _ =>
      exists w',
        execute_individually R macro_id command target w
        = (w', Some (AttributeError "selectable_objects"))
        /\ log w' = log w
        /\ (forall n, In n (selected_objects (host w')) <-> n = first)
        /\ active_object (host w') = active_object (host w)
  end.
Proof.
  unfold execute_individually.
  pose proof (selected_objects_exist (host w)) as Hexist.
  pose proof (selected_objects_layer (host w)) as Hlayer.
  pose proof (selected_objects_In (host w)) as Hin.
  revert Hexist Hlayer Hin.
  destruct (selected_objects (host w)) as [| first others]; intros Hexist Hlayer Hin.
  - destruct w; reflexivity.
  - destruct (select_set_each_false_spec _ (host w) Hexist Hlayer)
      as [h1 [Heach [Hd1 [Hv1 [Ha1 Hs1]]]]].
    rewrite Heach. cbn [individually_loop host with_host].
    inversion Hexist as [| x l Hfirst _]; subst x l.
    inversion Hlayer as [| x l Hfirst' _]; subst x l.
    destruct (select_set_spec h1 first true) as [h2 [Hset [Hd2 [Hv2 [Ha2 Hs2]]]]];
      [rewrite Hd1; exact Hfirst | rewrite Hv1; exact Hfirst' |].
    rewrite Hset. cbn [assign_context bind].
    eexists. split; [reflexivity |]. cbn [log host with_host].
    split; [reflexivity |]. split; [| congruence].
    intro n. rewrite selected_objects_In, Hv2, Hv1, Hd2, Hd1, Hs2, Hs1. split.
    + intros [Hv [[[Hs Hout] | Hn] Hd]]; [| exact Hn].
      exfalso. apply Hout. apply Hin. tauto.
    + intros ->. apply mem_In in Hfirst. apply mem_In in Hfirst'. tauto.
Qed.

(** ** The selection after a Select Object event *)

(** X8.  A Select Object event that names no main object, while every object
    named in [Objects] that exists is in the view layer, goes on to the next
    macro with nothing run and no alert.  Without KeepSelection the objects
    selected afterwards are exactly the existing objects that [Objects]
    names; with KeepSelection they are those and the ones that were selected
    before.  The active object stays what it was. *)
Theorem select_object_selection (action : Action) (macro : Macro) (data keep : json)
        (objs : list string) (w : World) (area_type : Local (option string)) :
  Json.get data "KeepSelection" (JBool false) = Ok keep ->
  Json.get data "Objects" (JArr []) = Ok (JArr (map JStr objs)) ->
  Json.get data "Object" (JStr EmptyString) = Ok (JStr EmptyString) ->
  (forall o, In o objs -> In o (data_objects (host w)) ->
             In o (view_layer_objects (host w))) ->
  exists w',
    select_object action macro data w area_type = Next w' area_type
    /\ (forall n,
           In n (selected_objects (host w'))
           <-> (Json.truthy keep = true /\ In n (selected_objects (host w)))
               \/ (In n objs /\ In n (data_objects (host w))))
    /\ active_object (host w') = active_object (host w)
    /\ log w' = log w
    /\ macro_alerts w' = macro_alerts w
    /\ action_alerts w' = action_alerts w.
Proof.
  intros Hkeep Hobjs Hobj Hlayer. unfold select_object. rewrite Hkeep.
  destruct (clear_selection_spec keep (host w)) as [h1 [Hh1 [Hd1 [Hv1 [Ha1 Hs1]]]]].
  rewrite Hh1, Hobjs. cbn [bind iterate].
  destruct (select_named_spec objs h1) as [h2 [Hh2 [Hd2 [Hv2 [Ha2 Hs2]]]]].
  { intros o Ho Hdata. rewrite Hv1. apply Hlayer; [exact Ho |].
    rewrite <- Hd1. exact Hdata. }
  rewrite Hh2, Hobj. cbn [Json.is_str String.eqb].
  eexists. split; [reflexivity |]. cbn [host with_host].
  split; [| split; [congruence | repeat split]].
  intro n. rewrite !selected_objects_In, Hv2, Hd2, Hv1, Hd1, Hs2, Hs1, Hd1.
  rewrite selected_objects_In.
  pose proof (Hlayer n) as Hn.
  destruct (Json.truthy keep); intuition discriminate.
Qed.

Lemma select_object_selection_witness :
  let data := JObj [("Type", JStr "Select Object");
                    ("Objects", JArr [JStr "Light"; JStr "Camera"; JStr "Nope"])] in
  exists w',
    select_object Demo.group LoopExamples.A data Demo.world0 Unbound = Next w' Unbound
    /\ (forall n,
           In n (selected_objects (host w'))
           <-> (Json.truthy (JBool false) = true
                /\ In n (selected_objects (host Demo.world0)))
               \/ (In n ["Light"; "Camera"; "Nope"]
                   /\ In n (data_objects (host Demo.world0))))
    /\ active_object (host w') = active_object (host Demo.world0)
    /\ log w' = log Demo.world0
    /\ macro_alerts w' = macro_alerts Demo.world0
    /\ action_alerts w' = action_alerts Demo.world0.
Proof.
  apply (select_object_selection Demo.group LoopExamples.A
           (JObj [("Type", JStr "Select Object");
                  ("Objects", JArr [JStr "Light"; JStr "Camera"; JStr "Nope"])])
           (JBool false) ["Light"; "Camera"; "Nope"] Demo.world0 Unbound);
    try reflexivity.
  intros o _ H. exact H.
Defined.

(** ** Suspension at a Timer and at a Render Complete event *)

Lemma plain_prescan_passes (R : Runtime) (pre : list Macro) :
  Forall plain pre -> Forall (prescan_passes R) pre.
Proof.
  intro H. eapply Forall_impl; [| exact H].
  intros m Hm. left. apply decode_plain, Hm.
Qed.

(** X9.  The active macros are plain commands, a Timer event, and the macros
    after it.  [play] runs the commands before the timer; when they all go
    on it registers one continuation, which holds the macros after the timer,
    the loop state it was called with and the delay of the event, and returns
    with no error; no macro after the timer is run in this call.  When a
    command before the timer stops, [play] ends with that result and registers
    nothing. *)
Theorem timer_suspends (R : Runtime) (action : Action) (action_type : string)
        (f : nat) (ms pre rest : list Macro) (T : Macro) (data time : json)
        (lc : Z) (mal mbt : option (list Macro)) (w w0 : World) :
  filter active ms = pre ++ T :: rest ->
  Forall plain pre ->
  decode R T = Some (Ok data) ->
  Json.subscript data "Type" = Ok (JStr "Timer") ->
  Json.subscript data "Time" = Ok time ->
  prescan R action action_type (pre ++ T :: rest) 0 (pre ++ T :: rest) w = Ok w0 ->
  play R action action_type (S f) (Some ms) lc mal mbt w
  = match run_commands R action (ctx_area (host w0)) pre w0 Unbound with
    | Next w1 _ =>
        Some (Returned None,
              register_timer w1
                (timer_entry action action_type (pre ++ T :: rest) (length pre)
                             lc mal mbt time (host w1)))
    | Return v w1 => Some (Returned v, w1)
    | Throw e w1 => Some (Raised e, w1)
    end
  /\ timer_macros (timer_entry action action_type (pre ++ T :: rest) (length pre)
                               lc mal mbt time (host w0)) = rest.
Proof.
  intros Hms Hpre Hd Ht Htime Hprescan. split.
  - cbn [play]. unfold play_body. rewrite Hms, Hprescan.
    rewrite (scan_plain_prefix R action action_type _ _ _ _ _ _ _ pre (T :: rest) Hpre).
    destruct (run_commands R action (ctx_area (host w0)) pre w0 Unbound)
      as [w1 a | v w1 | e w1]; try reflexivity.
    cbn [scan Nat.add]. rewrite Hd, Ht. cbn.
    unfold run_timer. rewrite Htime. reflexivity.
  - unfold timer_entry. cbn [timer_macros].
    rewrite skipn_app, skipn_all2 by lia.
    replace (length pre + 1 - length pre) with 1 by lia. reflexivity.
Qed.

Lemma timer_suspends_witness :
  let T := LoopExamples.timer "T" in
  let ms := [LoopExamples.A; T; LoopExamples.B] in
  play Demo.runtime Demo.group "global_actions" 1 (Some ms) (-1)%Z None None Demo.world0
  = match run_commands Demo.runtime Demo.group (ctx_area (host Demo.world0))
                       [LoopExamples.A] Demo.world0 Unbound with
    | Next w1 _ =>
        Some (Returned None,
              register_timer w1
                (timer_entry Demo.group "global_actions" ([LoopExamples.A] ++ T :: [LoopExamples.B])
                             (length [LoopExamples.A]) (-1)%Z None None
                             (JFloat 5 (-1)) (host w1)))
    | Return v w1 => Some (Returned v, w1)
    | Throw e w1 => Some (Raised e, w1)
    end
  /\ timer_macros (timer_entry Demo.group "global_actions"
                               ([LoopExamples.A] ++ T :: [LoopExamples.B])
                               (length [LoopExamples.A]) (-1)%Z None None
                               (JFloat 5 (-1)) (host Demo.world0))
     = [LoopExamples.B].
Proof.
  apply (timer_suspends Demo.runtime Demo.group "global_actions" 0
           [LoopExamples.A; LoopExamples.timer "T"; LoopExamples.B]
           [LoopExamples.A] [LoopExamples.B] (LoopExamples.timer "T")
           (JObj [("Type", JStr "Timer"); ("Time", JFloat 5 (-1))]) (JFloat 5 (-1))
           (-1)%Z None None Demo.world0 Demo.world0);
    try reflexivity.
  repeat constructor.
Defined.

(** X10.  The active macros are plain commands, a Render Complete event, and
    at least one macro after it.  [play] first adds to the queue the action
    type, the id of the action and the id of the macro after the event, then
    runs the commands before the event and returns with no error when they all
    went on: no macro after the event is run and no timer is registered. *)
Theorem render_complete_suspends (R : Runtime) (action : Action)
        (action_type : string) (f : nat) (ms pre rest : list Macro)
        (rc next : Macro) (data : json) (lc : Z) (mal mbt : option (list Macro))
        (w : World) :
  filter active ms = pre ++ rc :: next :: rest ->
  Forall plain pre ->
  decode R rc = Some (Ok data) ->
  Json.subscript data "Type" = Ok (JStr "Render Complete") ->
  let queued :=
    with_render_complete w
      (render_complete_macros w ++ [(action_type, action_id action, id next)]) in
  play R action action_type (S f) (Some ms) lc mal mbt w
  = match run_commands R action (ctx_area (host w)) pre queued Unbound with
    | Next w1 _ => Some (Returned None, w1)
    | Return v w1 => Some (Returned v, w1)
    | Throw e w1 => Some (Raised e, w1)
    end.
Proof.
  intros Hms Hpre Hd Ht queued. cbn [play]. unfold play_body. rewrite Hms.
  rewrite (prescan_passes_over R action action_type _ pre (rc :: next :: rest) w
             (plain_prescan_passes R pre Hpre) 0).
  cbn [prescan Nat.add]. rewrite Hd. cbn [bind]. rewrite Ht. cbn.
  assert (Hnext : nth_error (pre ++ rc :: next :: rest) (length pre + 1) = Some next).
  { rewrite nth_error_app2 by lia.
    replace (length pre + 1 - length pre) with 1 by lia. reflexivity. }
  rewrite Hnext. fold queued.
  rewrite (scan_plain_prefix R action action_type _ _ _ _ _ _ _ pre
             (rc :: next :: rest) Hpre).
  change (ctx_area (host queued)) with (ctx_area (host w)).
  destruct (run_commands R action (ctx_area (host w)) pre queued Unbound)
    as [w1 a | v w1 | e w1]; try reflexivity.
  cbn [scan]. rewrite Hd, Ht. reflexivity.
Qed.

Lemma render_complete_suspends_witness :
  let rc := LoopExamples.render_complete "wait" in
  let ms := [LoopExamples.A; rc; LoopExamples.B; LoopExamples.C] in
  let queued :=
    with_render_complete Demo.world0
      (render_complete_macros Demo.world0
         ++ [("global_actions", action_id Demo.group, id LoopExamples.B)]) in
  play Demo.runtime Demo.group "global_actions" 1 (Some ms) (-1)%Z None None Demo.world0
  = match run_commands Demo.runtime Demo.group (ctx_area (host Demo.world0))
                       [LoopExamples.A] queued Unbound with
    | Next w1 _ => Some (Returned None, w1)
    | Return v w1 => Some (Returned v, w1)
    | Throw e w1 => Some (Raised e, w1)
    end.
Proof.
  apply (render_complete_suspends Demo.runtime Demo.group "global_actions" 0
           [LoopExamples.A; LoopExamples.render_complete "wait"; LoopExamples.B;
            LoopExamples.C]
           [LoopExamples.A] [LoopExamples.C] (LoopExamples.render_complete "wait")
           LoopExamples.B (JObj [("Type", JStr "Render Complete")])
           (-1)%Z None None Demo.world0);
    try reflexivity.
  repeat constructor.
Defined.

(** ** The type of the area after a command *)





(** ** The main object of a Select Object event *)

(** X25.  A Select Object event whose main object exists and is in the
    active view layer, while every object named in [Objects] that exists is
    in the view layer, goes on to the next macro with nothing run and no
    alert: the main object is the active object and is selected, with the
    existing objects that [Objects] names and, under KeepSelection, the ones
    that were selected before; no other object is selected. *)
Theorem select_object_main (action : Action) (macro : Macro) (data keep : json)
        (objs : list string) (name : string) (w : World)
        (area_type : Local (option string)) :
  Json.get data "KeepSelection" (JBool false) = Ok keep ->
  Json.get data "Objects" (JArr []) = Ok (JArr (map JStr objs)) ->
  Json.get data "Object" (JStr EmptyString) = Ok (JStr name) ->
  name <> EmptyString ->
  In name (data_objects (host w)) ->
  In name (view_layer_objects (host w)) ->
  (forall o, In o objs -> In o (data_objects (host w)) ->
             In o (view_layer_objects (host w))) ->
  exists w',
    select_object action macro data w area_type = Next w' area_type
    /\ active_object (host w') = Some name
    /\ (forall n,
           In n (selected_objects (host w'))
           <-> n = name
               \/ (Json.truthy keep = true /\ In n (selected_objects (host w)))
               \/ (In n objs /\ In n (data_objects (host w))))
    /\ log w' = log w
    /\ macro_alerts w' = macro_alerts w
    /\ action_alerts w' = action_alerts w.
Proof.
  intros Hkeep Hobjs Hobj Hname Hdata Hview Hlayer. unfold select_object. rewrite Hkeep.
  destruct (clear_selection_spec keep (host w)) as [h1 [Hh1 [Hd1 [Hv1 [Ha1 Hs1]]]]].
  rewrite Hh1, Hobjs. cbn [bind iterate].
  destruct (select_named_spec objs h1) as [h2 [Hh2 [Hd2 [Hv2 [Ha2 Hs2]]]]].
  { intros o Ho Ho'. rewrite Hv1. apply Hlayer; [exact Ho |].
    rewrite <- Hd1. exact Ho'. }
  rewrite Hh2, Hobj. cbn [Json.is_str].
  apply String.eqb_neq in Hname. rewrite Hname.
  assert (Hm1 : mem name (data_objects h2) = true)
    by (apply mem_In; rewrite Hd2, Hd1; exact Hdata).
  assert (Hm2 : mem name (view_layer_objects h2) = true)
    by (apply mem_In; rewrite Hv2, Hv1; exact Hview).
  rewrite Hm1, Hm2. cbn [negb orb].
  destruct (select_set_spec (with_active h2 name) name true Hm1 Hm2)
    as [h3 [Hh3 [Hd3 [Hv3 [Ha3 Hs3]]]]].
  rewrite Hh3. eexists. split; [reflexivity |]. cbn [host with_host].
  split; [rewrite Ha3; reflexivity |].
  split; [| repeat split].
  intro n. rewrite !selected_objects_In, Hv3, Hd3, Hs3.
  cbn [view_layer_objects data_objects selected with_active].
  rewrite Hv2, Hd2, Hv1, Hd1, Hs2, Hs1, Hd1. rewrite selected_objects_In.
  pose proof (Hlayer n) as Hn.
  destruct (Json.truthy keep); intuition (subst; auto; discriminate).
Qed.

Lemma select_object_main_witness :
  let data := JObj [("Type", JStr "Select Object"); ("Object", JStr "Camera");
                    ("KeepSelection", JBool true)] in
  exists w',
    select_object Demo.group LoopExamples.A data Demo.world0 Unbound = Next w' Unbound
    /\ active_object (host w') = Some "Camera"
    /\ (forall n,
           In n (selected_objects (host w'))
           <-> n = "Camera"
               \/ (Json.truthy (JBool true) = true
                   /\ In n (selected_objects (host Demo.world0)))
               \/ (In n [] /\ In n (data_objects (host Demo.world0))))
    /\ log w' = log Demo.world0
    /\ macro_alerts w' = macro_alerts Demo.world0
    /\ action_alerts w' = action_alerts Demo.world0.
Proof.
  apply (select_object_main Demo.group LoopExamples.A
           (JObj [("Type", JStr "Select Object"); ("Object", JStr "Camera");
                  ("KeepSelection", JBool true)])
           (JBool true) [] "Camera" Demo.world0 Unbound);
    try reflexivity.
  - discriminate.
  - cbn. tauto.
  - cbn. tauto.
  - intros o [].
Defined.

(** ** A command run in another window *)

(** X24.  A command that requires an area type which the area of the context
    does not have, while the first area of some window shows that type: the
    resolver then reads the attribute [area] of the screen of that window.
    When the screen has no such attribute the command is not run: [play]
    returns AttributeError with the alert set, and IndexError when the
    attribute is empty.  Otherwise the command is run, under GROUP once, in
    that window, its screen and the first area of the attribute, and the
    type of no area is changed for it. *)
Theorem command_in_found_window (R : Runtime) (action : Action) (base : option nat)
        (m : Macro) (w : World) (a : nat) (x : Area) (window : Window)
        (area_type : Local (option string)) :
  is_default_local_play (command m) = Ok false ->
  ctx_area (host w) = Some a ->
  nth_error (area_store (host w)) a = Some x ->
  ui_type m <> EmptyString ->
  area_ui_type x <> ui_type m ->
  find_window (host w) (ui_type m) (rev (windows (host w))) = Ok (Some window) ->
  let f := run_command R action base m w area_type in
  match area (screen window) with
  | None => f = Return (Some (ErrExn (AttributeError "area"))) (set_alert w action m)
  | Some [] => f = Return (Some (ErrExn IndexError)) (set_alert w action m)
  | Some (a' :: _) =>
      forall x',
        nth_error (area_store (host w)) a' = Some x' ->
        execution_mode action = "GROUP" ->
        exists inv,
          log (flow_world f) = log w ++ [inv]
          /\ inv_command inv = exec_text m
          /\ inv_target inv
             = mkTarget (Some window) (Some (screen window)) (Some a')
                        (select_region (regions x') (ctx_region (host w)))
          /\ fst (py_exec R (exec_text m) (inv_target inv) (host w))
             = host (flow_world f)
  end.
Proof.
  intros Hguard Hctx Hnth Hui Hdiff Hfind. cbv zeta.
  unfold run_command. rewrite Hguard.
  apply String.eqb_neq in Hui. apply String.eqb_neq in Hdiff.
  assert (Hw : with_host w (host w) = w) by (destruct w; reflexivity).
  destruct (area (screen window)) as [[| a' rest] |] eqn:Harea.
  - assert (Hrc : resolve_context (host w) m
                  = mkResolved (host w) None (Raise IndexError)).
    { unfold resolve_context. rewrite Hctx, Hui. unfold area_get.
      rewrite Hnth, Hdiff, Hfind, Harea. reflexivity. }
    rewrite Hrc. cbn [r_target r_host r_area_type]. rewrite Hw.
    unfold on_exception. destruct base; reflexivity.
  - intros x' Hnth' Hgroup.
    assert (Hrc : resolve_context (host w) m
                  = mkResolved (host w) None
                      (Ok (mkTarget (Some window) (Some (screen window)) (Some a')
                                    (select_region (regions x') (ctx_region (host w)))))).
    { unfold resolve_context. rewrite Hctx, Hui. unfold area_get.
      rewrite Hnth, Hdiff, Hfind, Harea, Hnth'. reflexivity. }
    rewrite Hrc. cbn [r_target r_host r_area_type]. rewrite Hw, Hgroup.
    cbn [String.eqb Ascii.eqb Bool.eqb].
    destruct (py_exec R (exec_text m) _ (host w)) as [h2 r] eqn:Hexec.
    destruct r as [e |].
    + unfold on_exception. cbn [area_type_set].
      eexists. split; [destruct base; cbn; reflexivity |].
      cbn [inv_command inv_target]. split; [reflexivity |]. split; [reflexivity |].
      rewrite Hexec. destruct base; reflexivity.
    + cbn [t_area area_type_set].
      eexists. split; [cbn; reflexivity |].
      cbn [inv_command inv_target]. split; [reflexivity |]. split; [reflexivity |].
      rewrite Hexec. reflexivity.
  - assert (Hrc : resolve_context (host w) m
                  = mkResolved (host w) None (Raise (AttributeError "area"))).
    { unfold resolve_context. rewrite Hctx, Hui. unfold area_get.
      rewrite Hnth, Hdiff, Hfind, Harea. reflexivity. }
    rewrite Hrc. cbn [r_target r_host r_area_type]. rewrite Hw.
    unfold on_exception. destruct base; reflexivity.
Qed.

Lemma command_in_found_window_witness :
  run_command Demo.runtime Demo.group (Some 0) AreaExamples.in_image_editor
              WindowExamples.world Unbound
  = Return (Some (ErrExn (AttributeError "area")))
           (set_alert WindowExamples.world Demo.group AreaExamples.in_image_editor).
Proof.
  apply (command_in_found_window Demo.runtime Demo.group (Some 0)
           AreaExamples.in_image_editor WindowExamples.world 0 Demo.viewport
           WindowExamples.image_window Unbound);
    try reflexivity; discriminate.
Defined.

(** ** A statement loop whose statement raises *)

(** X26.  The active macros are plain commands, then a Loop event of type
    python whose end is found.  When the commands go on and the statement
    raises the first time it is evaluated, [play] returns that exception with
    the alert set on the Loop macro and on the action: the body is not
    played, and no macro after the Loop event is run. *)
Theorem python_loop_statement_raises (R : Runtime) (action : Action)
        (action_type : string) (f : nat) (ms pre rest : list Macro) (L : Macro)
        (data : json) (statement : string) (end_index : nat) (lc : Z)
        (mal mbt : option (list Macro)) (w w0 w1 : World)
        (area_type : Local (option string)) (h : Host) (e : Exn) :
  filter active ms = pre ++ L :: rest ->
  Forall plain pre ->
  decode R L = Some (Ok data) ->
  Json.subscript data "Type" = Ok (JStr "Loop") ->
  Json.subscript data "StatementType" = Ok (JStr "python") ->
  Json.subscript data "PyStatement" = Ok (JStr statement) ->
  find_end R (length pre + 1) rest 1 = Ok (Some end_index) ->
  prescan R action action_type (pre ++ L :: rest) 0 (pre ++ L :: rest) w = Ok w0 ->
  run_commands R action (ctx_area (host w0)) pre w0 Unbound = Next w1 area_type ->
  py_eval R statement (host w1) = (h, Raise e) ->
  play R action action_type (S (S f)) (Some ms) lc mal mbt w
  = Some (Returned (Some (ErrExn e)), set_alert (with_host w1 h) action L).
Proof.
  intros Hms Hpre Hd Ht Hst Hpy Hend Hscan0 Hrun Heval.
  apply play_returns_scan with (w1 := w0); rewrite Hms; [exact Hscan0 |].
  rewrite (scan_plain_prefix R action action_type _ _ _ lc mal mbt _ pre (L :: rest) Hpre).
  rewrite Hrun. cbn [Nat.add scan]. rewrite Hd, Ht. cbn.
  replace (skipn (length pre + 1) (pre ++ L :: rest)) with rest.
  - rewrite Hend. unfold run_loop. rewrite Hst. cbn.
    rewrite Hpy, Heval. reflexivity.
  - rewrite skipn_app, skipn_all2 by lia.
    replace (length pre + 1 - length pre) with 1 by lia. reflexivity.
Qed.

Lemma python_loop_statement_raises_witness :
  play Demo.runtime Demo.group "global_actions" 2
       (Some [LoopExamples.A; LoopExamples.python_loop "count < 3"; LoopExamples.B;
              LoopExamples.end_loop; LoopExamples.C])
       (-1)%Z None None Demo.world0
  = Some (Returned (Some (ErrExn (CommandError "count < 3"))),
          set_alert
            (with_host
               (add_log Demo.world0
                  (mkInvocation "A" (exec_text LoopExamples.A)
                     (mkTarget (Some Demo.main_window) (Some Demo.main_screen) (Some 0)
                               (Some (mkRegion 1 "WINDOW")))
                     None))
               Demo.host0)
            Demo.group (LoopExamples.python_loop "count < 3")).
Proof.
  apply (python_loop_statement_raises Demo.runtime Demo.group "global_actions" 0
           [LoopExamples.A; LoopExamples.python_loop "count < 3"; LoopExamples.B;
            LoopExamples.end_loop; LoopExamples.C]
           [LoopExamples.A] [LoopExamples.B; LoopExamples.end_loop; LoopExamples.C]
           (LoopExamples.python_loop "count < 3")
           (JObj [("Type", JStr "Loop"); ("StatementType", JStr "python");
                  ("PyStatement", JStr "count < 3")])
           "count < 3" 3 (-1)%Z None None Demo.world0 Demo.world0
           (add_log Demo.world0
              (mkInvocation "A" (exec_text LoopExamples.A)
                 (mkTarget (Some Demo.main_window) (Some Demo.main_screen) (Some 0)
                           (Some (mkRegion 1 "WINDOW")))
                 None))
           (Bound None) Demo.host0 (CommandError "count < 3"));
    try reflexivity.
  repeat constructor.
Defined.

(** * Properties of the helpers *)

(** ** Collections *)

Lemma nth_error_middle {A : Type} (a b : list A) (x : A) :
  nth_error (a ++ x :: b) (length a) = Some x.
Proof.
  rewrite nth_error_app2 by lia. rewrite Nat.sub_diag. reflexivity.
Qed.

Lemma remove_at_middle {A : Type} (a b : list A) (x : A) :
  remove_at (length a) (a ++ x :: b) = a ++ b.
Proof.
  unfold remove_at. induction a as [| y a IH]; cbn [length app firstn skipn].
  - reflexivity.
  - cbn [skipn] in IH. rewrite IH. reflexivity.
Qed.

Lemma insert_at_middle {A : Type} (a b : list A) (x : A) :
  insert_at (length a) x (a ++ b) = a ++ x :: b.
Proof.
  unfold insert_at. induction a as [| y a IH]; cbn [length app firstn skipn].
  - reflexivity.
  - rewrite IH. reflexivity.
Qed.

(** Moving the item in the middle of [a ++ x :: b] to the position that
    splits the rest as [c ++ d]. *)
Lemma move_middle {A : Type} (a b c d : list A) (x : A) :
  a ++ b = c ++ d ->
  move (a ++ x :: b) (Z.of_nat (length a)) (Z.of_nat (length c))
  = if (length c <=? length a + length b)%nat
    then Some (c ++ x :: d) else None.
Proof.
  intro H. unfold move, in_range.
  rewrite length_app. cbn [length].
  assert (Hlen : length a + length b = length c + length d)
    by (rewrite <- !length_app, H; reflexivity).
  replace ((0 <=? Z.of_nat (length a))%Z) with true by (symmetry; apply Z.leb_le; lia).
  replace ((Z.of_nat (length a) <? Z.of_nat (length a + S (length b)))%Z) with true
    by (symmetry; apply Z.ltb_lt; lia).
  replace ((0 <=? Z.of_nat (length c))%Z) with true by (symmetry; apply Z.leb_le; lia).
  replace ((Z.of_nat (length c) <? Z.of_nat (length a + S (length b)))%Z) with true
    by (symmetry; apply Z.ltb_lt; lia).
  replace (length c <=? length a + length b)%nat with true
    by (symmetry; apply Nat.leb_le; lia).
  cbn [andb]. rewrite !Nat2Z.id, nth_error_middle, remove_at_middle, H.
  rewrite insert_at_middle. reflexivity.
Qed.

(** X12.  [insert_to_collection] with an index that is not negative puts the
    new item at that index and keeps the order of the items that were there;
    an index past the end puts it last. *)
Theorem insert_to_collection_at {A : Type} (collection : list A) (index : Z)
        (new_item : A) :
  (0 <= index)%Z ->
  insert_to_collection collection index new_item
  = Some (firstn (Z.to_nat index) collection
            ++ new_item :: skipn (Z.to_nat index) collection).
Proof.
  intro Hindex. unfold insert_to_collection, add_data_to_collection.
  rewrite length_app. cbn [length].
  destruct (index <? Z.of_nat (length collection + 1))%Z eqn:Hlt.
  - apply Z.ltb_lt in Hlt.
    replace (Z.of_nat (length collection + 1) - 1)%Z with (Z.of_nat (length collection))
      by lia.
    replace index with (Z.of_nat (length (firstn (Z.to_nat index) collection))) at 1
      by (rewrite length_firstn; lia).
    rewrite (move_middle collection [] (firstn (Z.to_nat index) collection)
                         (skipn (Z.to_nat index) collection)).
    + rewrite length_firstn. cbn [length].
      replace (_ <=? _)%nat with true by (symmetry; apply Nat.leb_le; lia).
      reflexivity.
    + rewrite app_nil_r, firstn_skipn. reflexivity.
  - apply Z.ltb_ge in Hlt.
    rewrite firstn_all2, skipn_all2 by lia. reflexivity.
Qed.

Lemma insert_to_collection_at_witness :
  insert_to_collection ["a"; "b"; "c"] 1 "x" = Some ["a"; "x"; "b"; "c"]
  /\ insert_to_collection ["a"; "b"; "c"] 7 "x" = Some ["a"; "b"; "c"; "x"].
Proof.
  split.
  - apply (insert_to_collection_at ["a"; "b"; "c"] 1 "x"). lia.
  - apply (insert_to_collection_at ["a"; "b"; "c"] 7 "x"). lia.
Defined.

(** X13.  [swap_collection_items] exchanges the items at the two positions
    that its indices name, in either order of the indices, and leaves every
    other item where it was; an index past the end names the last item. *)
Theorem swap_collection_items_exchanges {A : Type} (a b c : list A) (x y : A)
        (index_1 index_2 : Z) :
  let collection := a ++ x :: b ++ y :: c in
  let first := length a in
  let second := length a + 1 + length b in
  (names_position (length collection) index_1 first
   /\ names_position (length collection) index_2 second)
  \/ (names_position (length collection) index_1 second
      /\ names_position (length collection) index_2 first) ->
  swap_collection_items collection index_1 index_2 = Some (a ++ y :: b ++ x :: c).
Proof.
  cbv zeta. rewrite !length_app. cbn [length]. rewrite !length_app. cbn [length].
  set (n := length a + S (length b + S (length c))).
  intro H.
  assert (Hmoves :
            match move (a ++ x :: b ++ y :: c) (Z.of_nat (length a + 1 + length b))
                       (Z.of_nat (length a)) with
            | Some l => move l (Z.of_nat (length a) + 1)%Z
                             (Z.of_nat (length a + 1 + length b))
            | None => None
            end = Some (a ++ y :: b ++ x :: c)).
  { replace (length a + 1 + length b) with (length (a ++ x :: b))
      by (rewrite length_app; cbn [length]; lia).
    replace (a ++ x :: b ++ y :: c) with ((a ++ x :: b) ++ y :: c)
      by (rewrite <- app_assoc; reflexivity).
    rewrite (move_middle (a ++ x :: b) c a (x :: b ++ c))
      by (rewrite <- app_assoc; reflexivity).
    replace (_ <=? _)%nat with true
      by (symmetry; apply Nat.leb_le; rewrite length_app; lia).
    replace (Z.of_nat (length a) + 1)%Z with (Z.of_nat (length (a ++ [y]))) 
      by (rewrite length_app; cbn [length]; lia).
    replace (a ++ y :: x :: b ++ c) with ((a ++ [y]) ++ x :: b ++ c)
      by (rewrite <- app_assoc; reflexivity).
    replace (length (a ++ x :: b)) with (length (a ++ y :: b))
      by (rewrite !length_app; reflexivity).
    rewrite (move_middle (a ++ [y]) (b ++ c) (a ++ y :: b) c)
      by (rewrite <- !app_assoc; reflexivity).
    replace (_ <=? _)%nat with true
      by (symmetry; apply Nat.leb_le; rewrite !length_app; cbn [length]; lia).
    rewrite <- app_assoc. reflexivity. }
  unfold swap_collection_items. rewrite !length_app. cbn [length].
  rewrite !length_app. cbn [length]. fold n.
  unfold names_position in H.
  destruct H as [[H1 H2] | [H1 H2]].
  - assert (E1 : (if (Z.of_nat n <=? index_1)%Z then (Z.of_nat n - 1)%Z else index_1)
                 = Z.of_nat (length a)).
    { destruct (Z.leb_spec (Z.of_nat n) index_1); subst n; lia. }
    assert (E2 : (if (Z.of_nat n <=? index_2)%Z then (Z.of_nat n - 1)%Z else index_2)
                 = Z.of_nat (length a + 1 + length b)).
    { destruct (Z.leb_spec (Z.of_nat n) index_2); subst n; lia. }
    rewrite E1, E2.
    replace (Z.of_nat (length a) =? Z.of_nat (length a + 1 + length b))%Z with false
      by (symmetry; apply Z.eqb_neq; lia).
    replace (Z.of_nat (length a) <? Z.of_nat (length a + 1 + length b))%Z with true
      by (symmetry; apply Z.ltb_lt; lia).
    exact Hmoves.
  - assert (E1 : (if (Z.of_nat n <=? index_1)%Z then (Z.of_nat n - 1)%Z else index_1)
                 = Z.of_nat (length a + 1 + length b)).
    { destruct (Z.leb_spec (Z.of_nat n) index_1); subst n; lia. }
    assert (E2 : (if (Z.of_nat n <=? index_2)%Z then (Z.of_nat n - 1)%Z else index_2)
                 = Z.of_nat (length a)).
    { destruct (Z.leb_spec (Z.of_nat n) index_2); subst n; lia. }
    rewrite E1, E2.
    replace (Z.of_nat (length a + 1 + length b) =? Z.of_nat (length a))%Z with false
      by (symmetry; apply Z.eqb_neq; lia).
    replace (Z.of_nat (length a + 1 + length b) <? Z.of_nat (length a))%Z with false
      by (symmetry; apply Z.ltb_ge; lia).
    exact Hmoves.
Qed.

Lemma swap_collection_items_exchanges_witness :
  swap_collection_items ["a"; "b"; "c"; "d"] 9 1 = Some ["a"; "d"; "c"; "b"].
Proof.
  apply (swap_collection_items_exchanges ["a"] ["c"] [] "b" "d" 9%Z 1%Z).
  right. split.
  - right. cbn. lia.
  - left. reflexivity.
Defined.

(** ** Names that are taken *)

Lemma all_chars_impl (p q : ascii -> bool) (s : string) :
  (forall a, p a = true -> q a = true) ->
  PyStr.all_chars p s = true -> PyStr.all_chars q s = true.
Proof.
  intro Hpq. induction s as [| a s IH]; cbn [PyStr.all_chars]; [reflexivity |].
  intro H. apply andb_true_iff in H. destruct H as [Ha Hs].
  rewrite (Hpq a Ha), (IH Hs). reflexivity.
Qed.

Lemma all_chars_app (p : ascii -> bool) (s t : string) :
  PyStr.all_chars p (s ++ t)%string = PyStr.all_chars p s && PyStr.all_chars p t.
Proof.
  induction s as [| a s IH]; cbn [append PyStr.all_chars]; [reflexivity |].
  rewrite IH, andb_assoc. reflexivity.
Qed.

Lemma zeros_digits (k : nat) :
  PyStr.all_chars PyText.is_digit (string_of_list_ascii (repeat "0"%char k)) = true.
Proof.
  induction k as [| k IH]; cbn [repeat string_of_list_ascii PyStr.all_chars];
    [reflexivity | rewrite IH; reflexivity].
Qed.

Lemma decimal_digits (n : N) : PyStr.all_chars PyText.is_digit (PyText.decimal n) = true.
Proof.
  unfold PyText.decimal.
  assert (H : forall u, PyStr.all_chars PyText.is_digit (NilEmpty.string_of_uint u) = true).
  { induction u as [| u IH | u IH | u IH | u IH | u IH | u IH | u IH | u IH | u IH | u IH];
      cbn [NilEmpty.string_of_uint PyStr.all_chars]; [reflexivity | exact IH ..]. }
  destruct (N.to_uint n); try apply H. reflexivity.
Qed.

Lemma decimal_not_empty (n : N) : PyText.decimal n <> EmptyString.
Proof.
  unfold PyText.decimal. destruct (N.to_uint n); discriminate.
Qed.

Lemma zfill_digits (w : nat) (n : N) :
  PyStr.all_chars PyText.is_digit (PyText.zfill w (PyText.decimal n)) = true.
Proof.
  unfold PyText.zfill. rewrite all_chars_app, zeros_digits, decimal_digits. reflexivity.
Qed.

Lemma zfill_not_empty (w : nat) (n : N) :
  PyText.zfill w (PyText.decimal n) <> EmptyString.
Proof.
  unfold PyText.zfill. pose proof (decimal_not_empty n) as H.
  destruct (string_of_list_ascii _); [exact H | discriminate].
Qed.

(** The padded digits read back as the number. *)
Lemma zfill_value (w : nat) (n : N) :
  exists u, NilEmpty.uint_of_string (PyText.zfill w (PyText.decimal n)) = Some u
            /\ N.of_uint u = n.
Proof.
  assert (Hd : exists u, NilEmpty.uint_of_string (PyText.decimal n) = Some u
                         /\ N.of_uint u = n).
  { unfold PyText.decimal. pose proof (Unsigned.of_to n) as Hn.
    destruct (N.to_uint n) eqn:E;
      try (eexists; split; [apply NilEmpty.usu | exact Hn]).
    exists (Decimal.D0 Decimal.Nil). split; [reflexivity | exact Hn]. }
  destruct Hd as [u [Hu Hn]]. unfold PyText.zfill.
  induction (w - String.length (PyText.decimal n)) as [| k IH];
    cbn [repeat string_of_list_ascii append].
  - exists u. split; assumption.
  - destruct IH as [u' [Hu' Hn']]. exists (Decimal.D0 u'). split.
    + cbn [NilEmpty.uint_of_string]. rewrite Hu'. reflexivity.
    + exact Hn'.
Qed.

Lemma zfill_inj (w : nat) (n m : N) :
  PyText.zfill w (PyText.decimal n) = PyText.zfill w (PyText.decimal m) -> n = m.
Proof.
  intro H. destruct (zfill_value w n) as [u [Hu Hn]].
  destruct (zfill_value w m) as [v [Hv Hm]].
  rewrite H, Hv in Hu. inversion Hu; subst v. congruence.
Qed.

Lemma format_03d_inj (n m : Z) : PyText.format_03d n = PyText.format_03d m -> n = m.
Proof.
  unfold PyText.format_03d.
  destruct (Z.ltb_spec n 0) as [Hn | Hn]; destruct (Z.ltb_spec m 0) as [Hm | Hm]; intro H.
  - cbn [append] in H. inversion H as [H']. apply zfill_inj in H'. lia.
  - exfalso. pose proof (zfill_digits 3 (Z.abs_N m)) as Hd.
    rewrite <- H in Hd. cbn in Hd. discriminate.
  - exfalso. pose proof (zfill_digits 3 (Z.abs_N n)) as Hd.
    rewrite H in Hd. cbn in Hd. discriminate.
  - apply zfill_inj in H. lia.
Qed.

Lemma append_inj_l (s t u : string) : (s ++ t = s ++ u)%string -> t = u.
Proof.
  induction s as [| a s IH]; cbn [append]; intro H; [exact H |].
  inversion H. auto.
Qed.

Lemma numbered_inj (base : string) (n m : Z) :
  numbered base n = numbered base m -> n = m.
Proof.
  unfold numbered. intro H. apply append_inj_l in H.
  cbn [append] in H. inversion H as [H']. apply format_03d_inj. exact H'.
Qed.

(** Of [n + 1] consecutive numbers, one gives a name that is not among [n]
    names. *)
Lemma numbered_free (check_list : list string) (base : string) (num : Z) :
  exists k,
    k <= length check_list
    /\ ~ In (numbered base (num + Z.of_nat k)) check_list
    /\ forall j, j < k -> In (numbered base (num + Z.of_nat j)) check_list.
Proof.
  assert (Hsearch : forall n,
             (exists k, k < n
                        /\ ~ In (numbered base (num + Z.of_nat k)) check_list
                        /\ forall j, j < k ->
                                     In (numbered base (num + Z.of_nat j)) check_list)
             \/ forall j, j < n -> In (numbered base (num + Z.of_nat j)) check_list).
  { induction n as [| n [[k [Hk [Hfree Hmin]]] | Hall]].
    - right. intros j Hj. lia.
    - left. exists k. split; [lia | split; assumption].
    - destruct (in_dec string_dec (numbered base (num + Z.of_nat n)) check_list)
        as [Hin | Hout].
      + right. intros j Hj. destruct (Nat.eq_dec j n) as [-> | Hne]; [exact Hin |].
        apply Hall. lia.
      + left. exists n. split; [lia | split; assumption]. }
  destruct (Hsearch (S (length check_list))) as [[k [Hk H]] | Hall].
  - exists k. split; [lia | exact H].
  - exfalso.
    set (names := map (fun j => numbered base (num + Z.of_nat j))
                      (seq 0 (S (length check_list)))).
    assert (Hnodup : NoDup names).
    { unfold names. generalize (seq_NoDup (S (length check_list)) 0).
      generalize (seq 0 (S (length check_list))) as l.
      induction l as [| i l IH]; intro Hl; cbn [map]; [constructor |].
      inversion Hl as [| ? ? Hi Hl']; subst. constructor; [| exact (IH Hl')].
      intro Hin. apply in_map_iff in Hin. destruct Hin as [j [Hj Hjl]].
      apply numbered_inj in Hj. assert (j = i) by lia. subst j. contradiction. }
    assert (Hincl : incl names check_list).
    { intros s Hs. unfold names in Hs. apply in_map_iff in Hs.
      destruct Hs as [j [<- Hj]]. apply in_seq in Hj. apply Hall. lia. }
    pose proof (NoDup_incl_length Hnodup Hincl) as Hlen.
    unfold names in Hlen. rewrite length_map, length_seq in Hlen. lia.
Qed.

Lemma mem_false (x : string) (l : list string) : mem x l = false <-> ~ In x l.
Proof.
  rewrite <- mem_In. destruct (mem x l); split; intro H; congruence.
Qed.

Lemma rename_numbered (check_list : list string) (base : string) :
  forall k fuel num,
    k <= fuel ->
    (forall j, j < k -> In (numbered base (num + Z.of_nat j)) check_list) ->
    ~ In (numbered base (num + Z.of_nat k)) check_list ->
    rename fuel check_list base (numbered base num) (num + 1)
    = Some (numbered base (num + Z.of_nat k)).
Proof.
  induction k as [| k IH]; intros fuel num Hfuel Htaken Hfree.
  - replace (num + Z.of_nat 0)%Z with num in * by lia.
    apply mem_false in Hfree. destruct fuel; cbn [rename]; rewrite Hfree; reflexivity.
  - destruct fuel as [| fuel]; [lia |]. cbn [rename].
    assert (H0 : In (numbered base num) check_list).
    { specialize (Htaken 0 ltac:(lia)). replace (num + Z.of_nat 0)%Z with num in Htaken by lia.
      exact Htaken. }
    apply mem_In in H0. rewrite H0.
    replace (num + Z.of_nat (S k))%Z with (num + 1 + Z.of_nat k)%Z in * by lia.
    apply IH; [lia | | exact Hfree].
    intros j Hj. specialize (Htaken (S j) ltac:(lia)).
    replace (num + 1 + Z.of_nat j)%Z with (num + Z.of_nat (S j))%Z by lia. exact Htaken.
Qed.

(** A taken name is replaced by the base with the first free number. *)
Lemma rename_taken (fuel : nat) (check_list : list string) (base name : string)
      (num : Z) :
  length check_list < fuel ->
  In name check_list ->
  exists k,
    k <= length check_list
    /\ rename fuel check_list base name num = Some (numbered base (num + Z.of_nat k))
    /\ ~ In (numbered base (num + Z.of_nat k)) check_list
    /\ forall j, j < k -> In (numbered base (num + Z.of_nat j)) check_list.
Proof.
  intros Hfuel Hin.
  destruct (numbered_free check_list base num) as [k [Hk [Hfree Htaken]]].
  exists k. split; [exact Hk | split; [| split; assumption]].
  destruct fuel as [| fuel]; [lia |].
  cbn [rename]. apply mem_In in Hin. rewrite Hin.
  apply rename_numbered; [lia | exact Htaken | exact Hfree].
Qed.



Lemma all_chars_split (c : ascii) (s : string) :
  no_char c s -> PyStr.split c s = [s].
Proof.
  unfold no_char. induction s as [| a s IH]; cbn [PyStr.all_chars PyStr.split];
    [reflexivity |].
  intro H. apply andb_true_iff in H. destruct H as [Ha Hs].
  apply negb_true_iff in Ha. rewrite Ha, (IH Hs). reflexivity.
Qed.

Lemma split_app_last (c : ascii) (stem suffix : string) :
  no_char c suffix ->
  PyStr.split c (stem ++ String c suffix) = PyStr.split c stem ++ [suffix].
Proof.
  intro H. induction stem as [| a stem IH]; cbn [append PyStr.split].
  - rewrite Ascii.eqb_refl, (all_chars_split _ _ H). reflexivity.
  - destruct (Ascii.eqb a c).
    + rewrite IH. reflexivity.
    + rewrite IH. pose proof (split_not_nil c stem) as Hne.
      destruct (PyStr.split c stem); [contradiction | reflexivity].
Qed.

(** The base name of a name with a number at its end is what is before the
    last dot. *)
Lemma base_name_numeric (stem suffix : string) :
  PyText.isnumeric suffix = true ->
  base_name (stem ++ "." ++ suffix) = stem.
Proof.
  intro Hnum. unfold base_name.
  assert (Hdot : no_char "."%char suffix).
  { unfold no_char. unfold PyText.isnumeric in Hnum.
    destruct suffix as [| a suffix]; [discriminate |].
    revert Hnum. apply all_chars_impl. intros b Hb.
    destruct (Ascii.eqb_spec b "."%char) as [-> | _]; [discriminate | reflexivity]. }
  cbn [append]. rewrite (split_app_last _ _ _ Hdot).
  rewrite last_last, removelast_last, Hnum. apply join_split.
Qed.

Lemma format_03d_numeric (n : Z) :
  (0 <= n)%Z -> PyText.isnumeric (PyText.format_03d n) = true.
Proof.
  intro Hn. unfold PyText.format_03d.
  replace (n <? 0)%Z with false by (symmetry; apply Z.ltb_ge; exact Hn).
  unfold PyText.isnumeric. pose proof (zfill_not_empty 3 (Z.abs_N n)) as Hne.
  pose proof (zfill_digits 3 (Z.abs_N n)) as Hd.
  destruct (PyText.zfill 3 (PyText.decimal (Z.abs_N n))); [contradiction | exact Hd].
Qed.

(** X15.  A name that [check_for_duplicates] made, the base with a number
    that is not negative, is numbered again from its base when it is taken:
    the numbers do not pile up.  The result is the base with the first free
    number from [num] upwards. *)
Theorem check_for_duplicates_renumbers (fuel : nat) (check_list : list string)
        (base : string) (n num : Z) :
  (0 <= n)%Z ->
  length check_list < fuel ->
  In (numbered base n) check_list ->
  exists k,
    k <= length check_list
    /\ check_for_duplicates fuel check_list (numbered base n) num
       = Some (numbered base (num + Z.of_nat k))
    /\ ~ In (numbered base (num + Z.of_nat k)) check_list
    /\ forall j, j < k -> In (numbered base (num + Z.of_nat j)) check_list.
Proof.
  intros Hn Hfuel Hin. unfold check_for_duplicates.
  assert (Hbase : base_name (numbered base n) = base).
  { unfold numbered. apply base_name_numeric, format_03d_numeric, Hn. }
  rewrite Hbase. apply rename_taken; assumption.
Qed.

Lemma check_for_duplicates_renumbers_witness :
  exists k,
    k <= 2
    /\ check_for_duplicates 3 ["Cube"; "Cube.001"] (numbered "Cube" 1) 1
       = Some (numbered "Cube" (1 + Z.of_nat k))
    /\ ~ In (numbered "Cube" (1 + Z.of_nat k)) ["Cube"; "Cube.001"]
    /\ forall j, j < k -> In (numbered "Cube" (1 + Z.of_nat j)) ["Cube"; "Cube.001"].
Proof.
  apply (check_for_duplicates_renumbers 3 ["Cube"; "Cube.001"] "Cube" 1%Z 1%Z).
  - lia.
  - cbn. lia.
  - right. left. reflexivity.
Defined.
(** ** The modes of the 3D view under their headings *)

Lemma fold_categorize (modes general grease_pencil curves : list Enum.Entry) :
  fold_left categorize modes (general, grease_pencil, curves)
  = (general ++ filter is_general modes,
     grease_pencil ++ filter is_grease_pencil modes,
     curves ++ filter is_curves modes).
Proof.
  revert general grease_pencil curves.
  induction modes as [| mode modes IH]; intros general grease_pencil curves;
    cbn [fold_left filter].
  - rewrite !app_nil_r. reflexivity.
  - unfold categorize at 2, is_general, is_curves, is_grease_pencil.
    destruct (PyText.contains "GPENCIL" (Enum.entry_identifier mode)); cbn [negb andb].
    + rewrite IH, <- app_assoc. reflexivity.
    + destruct (PyText.contains "CURVES" (Enum.entry_identifier mode)); cbn [negb].
      * rewrite IH, <- app_assoc. reflexivity.
      * rewrite IH, <- app_assoc. reflexivity.
Qed.

(** X16.  [get_categorized_view_3d_modes] lists every mode once, under one of
    three headings and in the order of the items: under General the modes
    whose identifier holds neither GPENCIL nor CURVES, under Grease Pencil
    those whose identifier holds GPENCIL, under Curves those whose identifier
    holds CURVES and not GPENCIL. *)
Theorem categorized_modes_by_heading (items : list Enum.Item) (value_offset : Z) :
  let modes := enum_items_to_enum_prop_list items value_offset in
  get_categorized_view_3d_modes items value_offset
  = Enum.Heading EmptyString "General" EmptyString :: filter is_general modes
    ++ Enum.Heading EmptyString "Grease Pencil" EmptyString
       :: filter is_grease_pencil modes
    ++ Enum.Heading EmptyString "Curves" EmptyString :: filter is_curves modes
  /\ Permutation (filter is_general modes ++ filter is_grease_pencil modes
                  ++ filter is_curves modes) modes.
Proof.
  cbv zeta. split.
  - unfold get_categorized_view_3d_modes. rewrite fold_categorize. reflexivity.
  - induction (enum_items_to_enum_prop_list items value_offset) as [| mode modes IH];
      cbn [filter]; [constructor |].
    assert (Hgroup :
              (is_general mode = true /\ is_grease_pencil mode = false
               /\ is_curves mode = false)
              \/ (is_general mode = false /\ is_grease_pencil mode = true
                  /\ is_curves mode = false)
              \/ (is_general mode = false /\ is_grease_pencil mode = false
                  /\ is_curves mode = true)).
    { unfold is_general, is_curves, is_grease_pencil.
      destruct (PyText.contains "GPENCIL" (Enum.entry_identifier mode));
        destruct (PyText.contains "CURVES" (Enum.entry_identifier mode));
        cbn [negb andb]; tauto. }
    destruct Hgroup as [[-> [-> ->]] | [[-> [-> ->]] | [-> [-> ->]]]].
    + cbn [app]. apply perm_skip. exact IH.
    + symmetry. apply Permutation_cons_app. symmetry. exact IH.
    + symmetry. rewrite app_assoc. apply Permutation_cons_app.
      rewrite <- app_assoc. symmetry. exact IH.
Qed.

(** ** A text cut after its separators *)

Lemma split_char_not_nil (p : N) (text : list N) : split_char p text <> [].
Proof.
  destruct text as [| c rest]; cbn [split_char]; [discriminate |].
  destruct (c =? p)%N; [discriminate |].
  destruct (split_char p rest); discriminate.
Qed.

Lemma concat_split_char (p : N) (text : list N) :
  concat (split_char p text) = filter (fun c => negb (c =? p)%N) text.
Proof.
  induction text as [| c rest IH]; cbn [split_char filter]; [reflexivity |].
  destruct (c =? p)%N; cbn [negb].
  - cbn [concat app]. exact IH.
  - pose proof (split_char_not_nil p rest) as Hne.
    destruct (split_char p rest) as [| x xs]; [contradiction |].
    cbn [concat app] in *. rewrite IH. reflexivity.
Qed.

Lemma filter_replace_char (p s : N) (text : list N) :
  filter (fun c => negb (c =? p)%N) (replace_char s [s; p] text)
  = filter (fun c => negb (c =? p)%N) text.
Proof.
  unfold replace_char.
  induction text as [| c rest IH]; cbn [flat_map filter]; [reflexivity |].
  rewrite filter_app, IH. f_equal.
  destruct (N.eqb_spec c s) as [-> | Hcs]; cbn [filter app].
  - rewrite N.eqb_refl. cbn [negb]. destruct (s =? p)%N; reflexivity.
  - destruct (c =? p)%N; reflexivity.
Qed.

Lemma filter_marked (p : N) (sep text : list N) :
  filter (fun c => negb (c =? p)%N)
         (fold_left (fun text s => replace_char s [s; p] text) sep text)
  = filter (fun c => negb (c =? p)%N) text.
Proof.
  revert text. induction sep as [| s sep IH]; intro text; cbn [fold_left];
    [reflexivity |].
  rewrite IH. apply filter_replace_char.
Qed.

Lemma fold_max_le (rest : list N) (c : N) :
  (c <= fold_left N.max rest c)%N
  /\ Forall (fun x => (x <= fold_left N.max rest c)%N) rest.
Proof.
  revert c. induction rest as [| x rest IH]; intro c; cbn [fold_left].
  - split; [lia | constructor].
  - destruct (IH (N.max c x)) as [H1 H2]. split; [lia |].
    constructor; [lia | exact H2].
Qed.

Lemma fold_max_In (rest : list N) (c : N) :
  In (fold_left N.max rest c) (c :: rest).
Proof.
  revert c. induction rest as [| x rest IH]; intro c; cbn [fold_left].
  - left. reflexivity.
  - destruct (IH (N.max c x)) as [H | H].
    + rewrite <- H.
      destruct (N.max_spec c x) as [[_ E] | [_ E]]; rewrite E;
        [right; left | left]; reflexivity.
    + right. right. exact H.
Qed.

Lemma filter_above (p : N) (text : list N) :
  Forall (fun x => (x < p)%N) text ->
  filter (fun c => negb (c =? p)%N) text = text.
Proof.
  induction 1 as [| x text Hx _ IH]; cbn [filter]; [reflexivity |].
  replace (x =? p)%N with false by (symmetry; apply N.eqb_neq; lia).
  cbn [negb]. rewrite IH. reflexivity.
Qed.

(** X17.  The pieces that [split_and_keep] returns, put together again, are
    the text: nothing is lost and nothing is added, whatever the separators.
    It raises ValueError exactly on the empty text and on a text that holds
    the last code point, for which [chr] has no successor. *)
Theorem split_and_keep_concat (sep text : list N) :
  match split_and_keep sep text with
  | Value pieces => concat pieces = text /\ text <> [] /\ ~ In 0x10FFFF%N text
  | ValueError => text = [] \/ exists c, In c text /\ (0x10FFFF <= c)%N
  end.
Proof.
  unfold split_and_keep, max_char, chr.
  destruct text as [| c rest]; [left; reflexivity |].
  destruct (fold_max_le rest c) as [Hc Hrest].
  pose proof (fold_max_In rest c) as Hin.
  set (m := fold_left N.max rest c) in *.
  destruct (N.ltb_spec (m + 1) 0x110000) as [Hlt | Hge].
  - split; [| split; [discriminate |]].
    + rewrite concat_split_char, filter_marked. apply filter_above.
      constructor; [lia |].
      revert Hrest. apply Forall_impl. intros x Hx. lia.
    + intro H. assert (Hle : (0x10FFFF <= m)%N); [| lia].
      destruct H as [<- | H]; [exact Hc |].
      rewrite Forall_forall in Hrest. exact (Hrest _ H).
  - right. exists m. split; [exact Hin | lia].
Qed.

(** Marking every separator of the text once. *)
Lemma marked_text (p : N) (sep : list N) :
  NoDup sep -> ~ In p sep ->
  forall text,
    fold_left (fun text s => replace_char s [s; p] text) sep text
    = flat_map (fun c => if existsb (N.eqb c) sep then [c; p] else [c]) text.
Proof.
  induction 1 as [| s sep Hs Hnodup IH]; intros Hp text; cbn [fold_left].
  - cbn [existsb]. induction text as [| c rest IHt]; cbn [flat_map app];
      [reflexivity | rewrite <- IHt; reflexivity].
  - assert (Hp' : ~ In p sep) by (intro H; apply Hp; right; exact H).
    assert (Hps : p <> s) by (intro H; apply Hp; left; symmetry; exact H).
    rewrite (IH Hp'). unfold replace_char.
    induction text as [| c rest IHt]; cbn [flat_map]; [reflexivity |].
    rewrite flat_map_app, IHt. f_equal.
    cbn [existsb]. destruct (N.eqb_spec c s) as [-> | Hcs].
    + cbn [flat_map app orb].
      replace (existsb (N.eqb s) sep) with false.
      * replace (existsb (N.eqb p) sep) with false; [reflexivity |].
        symmetry. apply not_true_is_false. intro H. apply existsb_exists in H.
        destruct H as [x [Hx E]]. apply N.eqb_eq in E. subst x. contradiction.
      * symmetry. apply not_true_is_false. intro H. apply existsb_exists in H.
        destruct H as [x [Hx E]]. apply N.eqb_eq in E. subst x. contradiction.
    + cbn [flat_map app orb]. rewrite app_nil_r. reflexivity.
Qed.

Lemma split_marked (p : N) (sep text : list N) :
  ~ In p sep -> ~ In p text ->
  split_char p (flat_map (fun c => if existsb (N.eqb c) sep then [c; p] else [c]) text)
  = cut_after_separators sep text.
Proof.
  intros Hsep. induction text as [| c rest IH]; intro Htext;
    cbn [flat_map cut_after_separators]; [reflexivity |].
  assert (Hcp : (c =? p)%N = false).
  { apply N.eqb_neq. intro E. apply Htext. left. exact E. }
  assert (Hrest : ~ In p rest) by (intro H; apply Htext; right; exact H).
  destruct (existsb (N.eqb c) sep); cbn [app split_char].
  - rewrite Hcp, N.eqb_refl, (IH Hrest). reflexivity.
  - rewrite Hcp, (IH Hrest). reflexivity.
Qed.

(** X18.  When the separators are distinct and the code point after the
    greatest character of the text is not one of them, [split_and_keep] cuts
    the text after each of its separator characters: every separator ends its
    piece, and the last piece is what follows the last separator. *)
Theorem split_and_keep_cuts (sep text : list N) (greatest : N) :
  max_char text = Value greatest ->
  (greatest < 0x10FFFF)%N ->
  NoDup sep ->
  ~ In (greatest + 1)%N sep ->
  split_and_keep sep text = Value (cut_after_separators sep text).
Proof.
  intros Hmax Hlt Hnodup Hp. unfold split_and_keep, chr. rewrite Hmax.
  replace (greatest + 1 <? 0x110000)%N with true by (symmetry; apply N.ltb_lt; lia).
  rewrite (marked_text _ _ Hnodup Hp), split_marked; [reflexivity | exact Hp |].
  unfold max_char in Hmax. destruct text as [| c rest]; [discriminate |].
  inversion Hmax as [Hm]. destruct (fold_max_le rest c) as [Hc Hrest].
  rewrite Hm in *. intros [E | H]; [lia |].
  rewrite Forall_forall in Hrest. specialize (Hrest _ H). lia.
Qed.

Lemma split_and_keep_cuts_witness :
  split_and_keep [32; 44]%N [97; 32; 98; 44; 32; 99]%N
  = Value (cut_after_separators [32; 44]%N [97; 32; 98; 44; 32; 99]%N).
Proof.
  apply (split_and_keep_cuts [32; 44]%N [97; 32; 98; 44; 32; 99]%N 99%N).
  - reflexivity.
  - reflexivity.
  - repeat constructor; cbn; intuition discriminate.
  - cbn. intuition discriminate.
Defined.

(** ** Categories *)

Lemma categories_find_spec (collection : list Category) (key : string) :
  (-1 <= categories_find collection key)%Z
  /\ (categories_find collection key = (-1)%Z
      <-> ~ In key (map category_id collection)).
Proof.
  induction collection as [| c rest [IHge IH]]; cbn [categories_find map In].
  - split; [lia | tauto].
  - destruct (String.eqb_spec (category_id c) key) as [E | E].
    + split; [lia |]. split; [discriminate | intro H; exfalso; apply H; left; exact E].
    + destruct (Z.eqb_spec (categories_find rest key) (-1)) as [F | F].
      * split; [lia |]. split; [| reflexivity]. intros _ [H | H]; [contradiction |].
        apply IH in F. contradiction.
      * split; [lia |]. split; [lia |]. intro H. exfalso. apply F, IH.
        intro Hin. apply H. right. exact Hin.
Qed.

Lemma categories_get_spec (collection : list Category) (key : string) :
  match categories_get collection key with
  | Some c => In c collection /\ category_id c = key
  | None => ~ In key (map category_id collection)
  end.
Proof.
  induction collection as [| c rest IH]; cbn [categories_get map In]; [tauto |].
  destruct (String.eqb_spec (category_id c) key) as [E | E].
  - split; [left; reflexivity | exact E].
  - destruct (categories_get rest key) as [c' |].
    + destruct IH as [Hin Hid]. split; [right; exact Hin | exact Hid].
    + tauto.
Qed.

(** X19.  [get_category_id] never raises.  It returns the id it was given
    when a category has it; otherwise the id of the category at the index
    when the index is within the collection; otherwise the selected category.
    In the first two cases a category with the returned id exists, so that
    [read_category_visibility] on it gives a list. *)
Theorem get_category_id_exists (ActRec_pref : CategoryPreferences) (id : string)
        (index : Z) :
  let ids := map category_id (categories ActRec_pref) in
  let within := (0 <= index < Z.of_nat (length ids))%Z in
  exists result,
    get_category_id ActRec_pref id index = Ok result
    /\ (In id ids -> result = id)
    /\ (~ In id ids -> within -> nth_error ids (Z.to_nat index) = Some result)
    /\ (~ In id ids -> ~ within -> result = selected_category ActRec_pref)
    /\ (In id ids \/ within ->
        In result ids /\ read_category_visibility ActRec_pref result <> None).
Proof.
  cbv zeta. rewrite length_map.
  assert (Hread : forall r, In r (map category_id (categories ActRec_pref)) ->
                            read_category_visibility ActRec_pref r <> None).
  { intros r Hr. unfold read_category_visibility.
    pose proof (categories_get_spec (categories ActRec_pref) r) as Hget.
    destruct (categories_get (categories ActRec_pref) r); [discriminate | contradiction]. }
  unfold get_category_id.
  destruct (categories_find_spec (categories ActRec_pref) id) as [_ Hfind].
  destruct (Z.eqb_spec (categories_find (categories ActRec_pref) id) (-1)) as [E | E].
  - apply Hfind in E.
    destruct (Z.leb_spec 0 index) as [H0 | H0];
      destruct (Z.ltb_spec index (Z.of_nat (length (categories ActRec_pref))))
        as [H1 | H1]; cbn [andb].
    + unfold categories_item.
      destruct (nth_error (categories ActRec_pref) (Z.to_nat index)) as [c |] eqn:Hnth.
      * exists (category_id c). cbn [bind].
        assert (Hids : nth_error (map category_id (categories ActRec_pref))
                                 (Z.to_nat index) = Some (category_id c))
          by (rewrite nth_error_map, Hnth; reflexivity).
        split; [reflexivity |]. split; [contradiction |]. split; [intros; exact Hids |].
        split; [intros _ H; exfalso; apply H; lia |].
        intros _. apply nth_error_In in Hids. split; [exact Hids | exact (Hread _ Hids)].
      * apply nth_error_None in Hnth. lia.
    + exists (selected_category ActRec_pref). split; [reflexivity |].
      split; [contradiction |]. split; [intros; lia |]. split; [reflexivity |].
      intros [H | H]; [contradiction | lia].
    + exists (selected_category ActRec_pref). split; [reflexivity |].
      split; [contradiction |]. split; [intros; lia |]. split; [reflexivity |].
      intros [H | H]; [contradiction | lia].
    + exists (selected_category ActRec_pref). split; [reflexivity |].
      split; [contradiction |]. split; [intros; lia |]. split; [reflexivity |].
      intros [H | H]; [contradiction | lia].
  - assert (Hin : In id (map category_id (categories ActRec_pref))).
    { destruct (in_dec string_dec id (map category_id (categories ActRec_pref)))
        as [H | H]; [exact H |]. apply Hfind in H. contradiction. }
    exists id. split; [reflexivity |]. split; [reflexivity |].
    split; [contradiction |]. split; [contradiction |].
    intros _. split; [exact Hin | exact (Hread _ Hin)].
Qed.

Lemma fold_modes (area_type : string) (modes : list string)
      (visibility : list (string * string)) :
  fold_left (fun visibility mode => visibility ++ [(area_type, mode)]) modes visibility
  = visibility ++ map (pair area_type) modes.
Proof.
  revert visibility. induction modes as [| mode modes IH]; intro visibility;
    cbn [fold_left map].
  - rewrite app_nil_r. reflexivity.
  - rewrite IH, <- app_assoc. reflexivity.
Qed.

(** X20.  [read_category_visibility] returns [None] exactly when no category
    has the id.  Otherwise it lists, for the first category with that id and
    in the order of its areas, each area with each of its modes, and an area
    that has no mode once, with the mode all. *)
Theorem read_category_visibility_lists (ActRec_pref : CategoryPreferences)
        (id : string) :
  match categories_get (categories ActRec_pref) id with
  | Some category =>
      In category (categories ActRec_pref)
      /\ category_id category = id
      /\ read_category_visibility ActRec_pref id
         = Some (flat_map area_visibility (category_areas category))
  | None =>
      ~ In id (map category_id (categories ActRec_pref))
      /\ read_category_visibility ActRec_pref id = None
  end.
Proof.
  unfold read_category_visibility.
  pose proof (categories_get_spec (categories ActRec_pref) id) as Hget.
  destruct (categories_get (categories ActRec_pref) id) as [category |].
  - destruct Hget as [Hin Hid]. split; [exact Hin | split; [exact Hid |]]. f_equal.
    assert (H : forall shown visibility,
               fold_left
                 (fun visibility area =>
                    let visibility :=
                      fold_left
                        (fun visibility mode =>
                           visibility ++ [(category_area_type area, mode)])
                        (category_area_modes area) visibility in
                    if (length (category_area_modes area) =? 0)%nat
                    then visibility ++ [(category_area_type area, "all")]
                    else visibility)
                 shown visibility
               = visibility ++ flat_map area_visibility shown).
    { induction shown as [| area shown IH]; intro visibility; cbn [fold_left flat_map].
      - rewrite app_nil_r. reflexivity.
      - rewrite IH. cbv zeta. rewrite fold_modes. unfold area_visibility.
        destruct (category_area_modes area) as [| mode modes];
          cbn [length Nat.eqb map]; rewrite <- ?app_assoc; reflexivity. }
    rewrite H. reflexivity.
  - split; [exact Hget | reflexivity].
Qed.

(** ** The properties of an operator call *)

Lemma split_join (c : ascii) (pieces : list string) :
  pieces <> [] ->
  Forall (no_char c) pieces ->
  PyStr.split c (PyStr.join (String c EmptyString) pieces) = pieces.
Proof.
  unfold PyStr.join. intros Hne H. induction H as [| x xs Hx Hxs IH]; [contradiction |].
  destruct xs as [| y ys].
  - cbn [String.concat]. apply all_chars_split. exact Hx.
  - change (String.concat (String c EmptyString) (x :: y :: ys))
      with (x ++ String c (String.concat (String c EmptyString) (y :: ys)))%string.
    rewrite (split_app_sep _ _ _ Hx), IH; [reflexivity | discriminate].
Qed.

Lemma append_empty_r (s : string) : (s ++ EmptyString)%string = s.
Proof.
  induction s as [| a s IH]; cbn [append]; [reflexivity | rewrite IH; reflexivity].
Qed.

Lemma append_assoc_string (s t u : string) :
  ((s ++ t) ++ u = s ++ (t ++ u))%string.
Proof.
  induction s as [| a s IH]; cbn [append]; [reflexivity | rewrite IH; reflexivity].
Qed.

Lemma extract_properties_continued (pieces : list string) :
  Forall (fun piece => starts_property piece = false) pieces ->
  forall rest new_props prop_str,
    extract_properties_loop (pieces ++ rest) new_props prop_str
    = extract_properties_loop rest new_props
        (prop_str ++ fold_right append EmptyString (map continued pieces)).
Proof.
  induction 1 as [| piece pieces Hpiece _ IH]; intros rest new_props prop_str;
    cbn [app map fold_right extract_properties_loop].
  - rewrite append_empty_r. reflexivity.
  - unfold starts_property in Hpiece. cbv zeta in Hpiece. rewrite Hpiece.
    rewrite IH. unfold continued at 2. rewrite <- !append_assoc_string. reflexivity.
Qed.

Lemma extract_properties_groups_loop (groups : list (string * list string)) :
  Forall (fun group =>
            starts_property (fst group) = true
            /\ Forall (fun piece => starts_property piece = false) (snd group))
         groups ->
  forall new_props prop_str,
    extract_properties_loop (flat_map (fun group => fst group :: snd group) groups)
                            new_props prop_str
    = new_props ++ PyStr.strip prop_str :: map property_text groups.
Proof.
  induction 1 as [| [start pieces] groups [Hstart Hpieces] _ IH];
    intros new_props prop_str; cbn [flat_map map fst snd] in *.
  - reflexivity.
  - cbn [app extract_properties_loop].
    unfold starts_property in Hstart. cbv zeta in Hstart. rewrite Hstart.
    rewrite join_split, (extract_properties_continued _ Hpieces), IH.
    rewrite <- app_assoc. reflexivity.
Qed.

(** X21.  [extract_properties] on a text taken as its pieces between commas:
    pieces before the first one that starts a property are dropped; each
    piece that starts a property (an identifier, then an equals sign) gives
    one property, to which every following piece that starts none is added
    back with its comma, cut at its first equals sign; each property is
    stripped of the white space around it. *)
Theorem extract_properties_groups (lead : list string)
        (groups : list (string * list string)) :
  let pieces := lead ++ flat_map (fun group => fst group :: snd group) groups in
  pieces <> [] ->
  Forall (no_char ","%char) pieces ->
  Forall (fun piece => starts_property piece = false) lead ->
  Forall (fun group =>
            starts_property (fst group) = true
            /\ Forall (fun piece => starts_property piece = false) (snd group))
         groups ->
  extract_properties (PyStr.join "," pieces) = map property_text groups.
Proof.
  cbv zeta. intros Hne Hcomma Hlead Hgroups. unfold extract_properties.
  rewrite (split_join _ _ Hne Hcomma).
  rewrite (extract_properties_continued _ Hlead).
  rewrite (extract_properties_groups_loop _ Hgroups). reflexivity.
Qed.

Lemma extract_properties_groups_witness :
  extract_properties "7, location=(1, 2=3), axis='X'"
  = ["location=(1, 2"; "axis='X'"].
Proof.
  apply (extract_properties_groups ["7"] [(" location=(1", [" 2=3)"]); (" axis='X'", [])]).
  - discriminate.
  - repeat constructor.
  - repeat constructor.
  - repeat constructor.
Defined.

(** ** Updating a command *)

Lemma prefix_app (p s t : string) :
  String.prefix p s = true -> String.prefix p (s ++ t) = true.
Proof.
  revert s. induction p as [| a p IH]; intros s H;
    [destruct (s ++ t)%string; reflexivity |].
  destruct s as [| b s]; [discriminate |]. cbn [String.prefix append] in *.
  destruct (Ascii.ascii_dec a b); [apply IH; exact H | discriminate].
Qed.

Lemma split_once_app (c : ascii) (head rest : string) :
  no_char c head ->
  PyText.split_once c (head ++ String c rest) = [head; rest].
Proof.
  unfold no_char. induction head as [| a head IH]; intro H;
    cbn [append PyText.split_once].
  - rewrite Ascii.eqb_refl. reflexivity.
  - cbn [PyStr.all_chars] in H. apply andb_true_iff in H. destruct H as [Ha H].
    apply negb_true_iff in Ha. rewrite Ha, (IH H). reflexivity.
Qed.

Lemma drop_last_app (s : string) (a : ascii) :
  PyStr.drop_last (s ++ String a EmptyString) = s.
Proof.
  induction s as [| b s IH]; cbn [append PyStr.drop_last]; [reflexivity |].
  destruct (s ++ String a EmptyString)%string eqn:E.
  - destruct s; discriminate.
  - rewrite IH. reflexivity.
Qed.

Lemma identifier_chars (k : string) :
  PyStr.isidentifier k = true -> PyStr.all_chars PyStr.is_id_char k = true.
Proof.
  destruct k as [| a k]; [discriminate |]. cbn [PyStr.isidentifier PyStr.all_chars].
  intro H. apply andb_true_iff in H. destruct H as [Ha Hk].
  unfold PyStr.is_id_char at 1. rewrite Ha, Hk. reflexivity.
Qed.

Lemma identifier_no_char (c : ascii) (k : string) :
  PyStr.is_id_char c = false ->
  PyStr.isidentifier k = true -> no_char c k.
Proof.
  intros Hc Hk. apply identifier_chars in Hk. unfold no_char.
  revert Hk. apply all_chars_impl. intros a Ha.
  destruct (Ascii.eqb_spec a c) as [-> | _]; [congruence | reflexivity].
Qed.

Lemma id_char_not_space (a : ascii) :
  PyStr.is_id_char a = true -> PyStr.is_space a = false.
Proof.
  unfold PyStr.is_id_char, PyStr.is_id_start, PyStr.is_space.
  generalize (nat_of_ascii a) as n. intros n H.
  apply not_true_is_false. intro Hs.
  repeat (apply orb_true_iff in H; destruct H as [H | H]);
    repeat (apply orb_true_iff in Hs; destruct Hs as [Hs | Hs]);
    repeat match goal with
           | H : (_ && _)%bool = true |- _ => apply andb_true_iff in H; destruct H
           | H : (_ <=? _)%nat = true |- _ => apply Nat.leb_le in H
           | H : (_ =? _)%nat = true |- _ => apply Nat.eqb_eq in H
           end; lia.
Qed.

Lemma rstrip_no_space (s : string) :
  PyStr.all_chars (fun a => negb (PyStr.is_space a)) s = true -> PyStr.rstrip s = s.
Proof.
  induction s as [| a s IH]; cbn [PyStr.all_chars PyStr.rstrip]; [reflexivity |].
  intro H. apply andb_true_iff in H. destruct H as [Ha Hs].
  apply negb_true_iff in Ha. rewrite (IH Hs), Ha. destruct s; reflexivity.
Qed.

Lemma rstrip_app (s t : string) :
  PyStr.rstrip t <> EmptyString ->
  PyStr.rstrip (s ++ t) = (s ++ PyStr.rstrip t)%string.
Proof.
  intro Ht. induction s as [| a s IH]; cbn [append PyStr.rstrip]; [reflexivity |].
  rewrite IH. destruct (s ++ PyStr.rstrip t)%string eqn:E; [| reflexivity].
  destruct s; [| discriminate]. cbn [append] in E. contradiction.
Qed.

Lemma rstrip_assignment (k v : string) :
  PyStr.rstrip v = v ->
  PyStr.rstrip (k ++ "=" ++ v) = (k ++ "=" ++ v)%string.
Proof.
  intro Hv.
  assert (H : PyStr.rstrip ("=" ++ v) = ("=" ++ v)%string).
  { cbn [append PyStr.rstrip]. rewrite Hv. destruct v; reflexivity. }
  rewrite rstrip_app; rewrite H; [reflexivity | discriminate].
Qed.

Lemma lstrip_identifier (k rest : string) :
  PyStr.isidentifier k = true -> PyStr.lstrip (k ++ rest) = (k ++ rest)%string.
Proof.
  intro Hk. pose proof (identifier_chars _ Hk) as Hc.
  destruct k as [| a k]; [discriminate |]. cbn [append PyStr.lstrip].
  cbn [PyStr.all_chars] in Hc. apply andb_true_iff in Hc. destruct Hc as [Ha _].
  rewrite (id_char_not_space _ Ha). reflexivity.
Qed.

Lemma strip_identifier (k : string) :
  PyStr.isidentifier k = true -> PyStr.strip k = k.
Proof.
  intro Hk. unfold PyStr.strip.
  pose proof (lstrip_identifier k EmptyString Hk) as H.
  rewrite append_empty_r in H. rewrite H.
  apply rstrip_no_space. apply identifier_chars in Hk. revert Hk.
  apply all_chars_impl. intros a Ha. rewrite (id_char_not_space _ Ha). reflexivity.
Qed.

(** A piece [key=value] of the argument text, as it is or after the space that
    follows a comma. *)
Lemma assignment_piece (pad : string) (kv : string * string) :
  pad = EmptyString \/ pad = " " ->
  plain_assignment kv ->
  starts_property (pad ++ assignment kv) = true
  /\ PyStr.strip (pad ++ assignment kv) = assignment kv
  /\ no_char ","%char (pad ++ assignment kv)
  /\ PyStr.split "="%char (assignment kv) = [fst kv; snd kv].
Proof.
  destruct kv as [k v]. unfold plain_assignment, assignment. cbn [fst snd].
  intros Hpad [Hk [Hcomma [Heq Hv]]].
  assert (Hkeq : no_char "="%char k) by (apply identifier_no_char; [reflexivity | exact Hk]).
  assert (Hkcomma : no_char ","%char k)
    by (apply identifier_no_char; [reflexivity | exact Hk]).
  assert (Hsplit : PyStr.split "="%char (k ++ "=" ++ v) = [k; v]).
  { cbn [append]. rewrite (split_app_sep _ _ _ Hkeq), (all_chars_split _ _ Heq).
    reflexivity. }
  assert (Hstrip : PyStr.strip (k ++ "=" ++ v) = (k ++ "=" ++ v)%string).
  { unfold PyStr.strip. rewrite (lstrip_identifier _ _ Hk).
    apply rstrip_assignment. exact Hv. }
  assert (Hno : no_char ","%char (k ++ "=" ++ v)).
  { unfold no_char in *. rewrite !all_chars_app, Hkcomma, Hcomma. reflexivity. }
  destruct Hpad as [-> | ->]; cbn [append].
  - split; [| split; [exact Hstrip | split; [exact Hno | exact Hsplit]]].
    unfold starts_property. cbv zeta. cbn [append] in Hsplit. rewrite Hsplit.
    cbn [hd length]. rewrite (strip_identifier _ Hk), Hk. reflexivity.
  - split; [| split; [| split; [| exact Hsplit]]].
    + unfold starts_property. cbv zeta.
      change (String " " (k ++ String "=" v)) with ((String " " k) ++ String "=" v)%string.
      rewrite split_app_sep, (all_chars_split _ _ Heq).
      * cbn [hd length]. unfold PyStr.strip. cbn [PyStr.lstrip].
        change (PyStr.is_space " ") with true. cbv iota.
        fold (PyStr.strip k). rewrite (strip_identifier _ Hk), Hk. reflexivity.
      * unfold no_char in *. cbn [PyStr.all_chars]. rewrite Hkeq. reflexivity.
    + unfold PyStr.strip. cbn [PyStr.lstrip]. change (PyStr.is_space " ") with true.
      cbv iota. exact Hstrip.
    + unfold no_char in *. cbn [PyStr.all_chars]. cbn [append] in Hno. rewrite Hno.
      reflexivity.
Qed.

Lemma concat_cons (sep x : string) (xs : list string) :
  String.concat sep (x :: xs)
  = (x ++ match xs with [] => EmptyString | _ => sep ++ String.concat sep xs end)%string.
Proof.
  destruct xs; cbn [String.concat]; [rewrite append_empty_r |]; reflexivity.
Qed.

Lemma join_comma_space (x : string) (xs : list string) :
  PyStr.join ", " (x :: xs) = PyStr.join "," (x :: map (append " ") xs).
Proof.
  unfold PyStr.join. revert x. induction xs as [| y ys IH]; intro x; [reflexivity |].
  rewrite concat_cons. rewrite (concat_cons "," x). cbn [map].
  rewrite IH. rewrite (concat_cons "," y), (concat_cons "," (" " ++ y)).
  cbn [append]. reflexivity.
Qed.

(** The properties read from the argument text of plain assignments. *)
Lemma extract_properties_arguments (kvs : list (string * string)) :
  Forall plain_assignment kvs ->
  map (PyStr.split "="%char) (extract_properties (arguments kvs))
  = map (fun kv => [fst kv; snd kv]) kvs.
Proof.
  intro H. destruct kvs as [| kv kvs]; [reflexivity |].
  unfold arguments. cbn [map]. rewrite join_comma_space.
  set (pieces := assignment kv :: map (append " ") (map assignment kvs)).
  assert (Hpieces : pieces = flat_map (fun group => fst group :: snd group)
                                      (map (fun piece => (piece, [])) pieces)).
  { generalize pieces. intro l. induction l as [| p l IH]; cbn [map flat_map fst snd app];
      [reflexivity | rewrite <- IH; reflexivity]. }
  assert (Hall : Forall (fun piece => exists pad kv',
                             (pad = EmptyString \/ pad = " ")
                             /\ plain_assignment kv'
                             /\ piece = (pad ++ assignment kv')%string) pieces).
  { unfold pieces. inversion H as [| ? ? Hkv Hkvs]; subst. constructor.
    - exists EmptyString, kv. split; [left; reflexivity | split; [exact Hkv | reflexivity]].
    - clear H Hkv pieces Hpieces. induction Hkvs as [| kv' kvs Hkv' _ IH]; cbn [map];
        constructor; [| exact IH].
      exists " ", kv'. split; [right; reflexivity | split; [exact Hkv' | reflexivity]]. }
  unfold extract_properties.
  rewrite split_join.
  - rewrite Hpieces at 1.
    rewrite (extract_properties_groups_loop (map (fun piece => (piece, [])) pieces)).
    + cbn [app tl]. rewrite !map_map. unfold property_text. cbn [fst snd map fold_right].
      unfold pieces. cbn [map]. rewrite append_empty_r.
      destruct (assignment_piece EmptyString kv (or_introl eq_refl)
                                 ltac:(inversion H; assumption)) as [_ [Hs [_ Hsp]]].
      cbn [append] in Hs. rewrite Hs, Hsp. f_equal.
      inversion H as [| ? ? _ Hkvs]; subst. clear - Hkvs.
      induction Hkvs as [| kv' kvs Hkv' _ IH]; cbn [map]; [reflexivity |].
      rewrite append_empty_r.
      destruct (assignment_piece " " kv' (or_intror eq_refl) Hkv') as [_ [Hs [_ Hsp]]].
      rewrite Hs, Hsp, IH. reflexivity.
    + clear Hpieces. induction Hall as [| p l [pad [kv' [Hpad [Hkv' ->]]]] _ IH];
        cbn [map]; constructor; [| exact IH].
      cbn [fst snd]. split; [| constructor].
      apply (assignment_piece pad kv' Hpad Hkv').
  - discriminate.
  - clear Hpieces. induction Hall as [| p l [pad [kv' [Hpad [Hkv' ->]]]] _ IH];
      constructor; [| exact IH].
    apply (assignment_piece pad kv' Hpad Hkv').
Qed.
Lemma take_value_found (identifier : string) (kvs : list (string * string)) :
  match List.find (fun kv => String.eqb (fst kv) identifier) kvs with
  | Some kv =>
      exists kvs',
        take_value identifier (map (fun kv => [fst kv; snd kv]) kvs)
        = Some (Ok (assignment kv), map (fun kv => [fst kv; snd kv]) kvs')
        /\ forall other,
            other <> identifier ->
            List.find (fun kv => String.eqb (fst kv) other) kvs'
            = List.find (fun kv => String.eqb (fst kv) other) kvs
  | None => take_value identifier (map (fun kv => [fst kv; snd kv]) kvs) = None
  end.
Proof.
  induction kvs as [| kv kvs IH]; cbn [List.find map take_value hd]; [reflexivity |].
  destruct (String.eqb_spec (fst kv) identifier) as [E | E].
  - exists kvs. split; [reflexivity |]. intros other Hother. cbn [List.find].
    replace (String.eqb (fst kv) other) with false; [reflexivity |].
    symmetry. apply String.eqb_neq. congruence.
  - destruct (List.find (fun kv => String.eqb (fst kv) identifier) kvs) as [found |].
    + destruct IH as [kvs' [Htake Hfind]]. exists (kv :: kvs'). rewrite Htake.
      split; [reflexivity |]. intros other Hother. cbn [List.find].
      rewrite (Hfind other Hother). reflexivity.
    + rewrite IH. reflexivity.
Qed.

Lemma collect_inputs_known (kvs0 : list (string * string)) (props : list string) :
  NoDup props ->
  forall kvs inputs,
    (forall identifier,
        In identifier props ->
        List.find (fun kv => String.eqb (fst kv) identifier) kvs
        = List.find (fun kv => String.eqb (fst kv) identifier) kvs0) ->
    collect_inputs props (map (fun kv => [fst kv; snd kv]) kvs) inputs
    = Ok (inputs ++ map assignment (known props kvs0)).
Proof.
  induction 1 as [| p props Hp Hnodup IH]; intros kvs inputs Hsame;
    cbn [collect_inputs known flat_map map].
  - rewrite app_nil_r. reflexivity.
  - pose proof (take_value_found p kvs) as Htake.
    rewrite <- (Hsame p (or_introl eq_refl)).
    destruct (List.find (fun kv => String.eqb (fst kv) p) kvs) as [kv |].
    + destruct Htake as [kvs' [Htake Hfind]]. rewrite Htake.
      rewrite (IH kvs' (inputs ++ [assignment kv])).
      * rewrite map_app, <- app_assoc. reflexivity.
      * intros q Hq. rewrite Hfind; [apply Hsame; right; exact Hq |].
        intros ->. contradiction.
    + rewrite Htake. apply IH. intros q Hq. apply Hsame. right. exact Hq.
Qed.

Lemma known_plain (props : list string) (kvs : list (string * string)) :
  Forall plain_assignment kvs -> Forall plain_assignment (known props kvs).
Proof.
  intro H. unfold known. induction props as [| p props IH]; cbn [flat_map];
    [constructor |].
  apply Forall_app. split; [| exact IH].
  destruct (List.find (fun kv => String.eqb (fst kv) p) kvs) as [kv |] eqn:E;
    [| constructor].
  apply find_some in E. destruct E as [Hin _]. rewrite Forall_forall in H.
  constructor; [exact (H _ Hin) | constructor].
Qed.

Lemma find_known_other (p : string) (props : list string)
      (kvs : list (string * string)) :
  ~ In p props ->
  List.find (fun kv => String.eqb (fst kv) p) (known props kvs) = None.
Proof.
  intro Hp. unfold known. induction props as [| q props IH]; cbn [flat_map];
    [reflexivity |].
  assert (Hq : q <> p) by (intros ->; apply Hp; left; reflexivity).
  assert (Hrest : ~ In p props) by (intro H; apply Hp; right; exact H).
  destruct (List.find (fun kv => String.eqb (fst kv) q) kvs) as [kv |] eqn:E.
  - apply find_some in E. destruct E as [_ E]. apply String.eqb_eq in E.
    cbn [app List.find].
    replace (String.eqb (fst kv) p) with false
      by (symmetry; apply String.eqb_neq; congruence).
    exact (IH Hrest).
  - exact (IH Hrest).
Qed.

Lemma find_known (p : string) (props : list string) (kvs : list (string * string)) :
  NoDup props -> In p props ->
  List.find (fun kv => String.eqb (fst kv) p) (known props kvs)
  = List.find (fun kv => String.eqb (fst kv) p) kvs.
Proof.
  induction 1 as [| q props Hq Hnodup IH]; intro Hin; [contradiction |].
  change (known (q :: props) kvs)
    with ((match List.find (fun kv => String.eqb (fst kv) q) kvs with
           | Some kv => [kv]
           | None => []
           end) ++ known props kvs).
  destruct Hin as [-> | Hin].
  - destruct (List.find (fun kv => String.eqb (fst kv) p) kvs) as [kv |] eqn:E.
    + pose proof (find_some _ _ E) as [_ Hkey]. cbn [app List.find].
      rewrite Hkey. reflexivity.
    + cbn [app]. apply find_known_other. exact Hq.
  - assert (Hqp : q <> p) by (intros ->; contradiction).
    destruct (List.find (fun kv => String.eqb (fst kv) q) kvs) as [kv |] eqn:E.
    + apply find_some in E. destruct E as [_ E]. apply String.eqb_eq in E.
      cbn [app List.find].
      replace (String.eqb (fst kv) p) with false
        by (symmetry; apply String.eqb_neq; congruence).
      exact (IH Hin).
    + exact (IH Hin).
Qed.

Lemma known_known (props : list string) (kvs : list (string * string)) :
  NoDup props -> known props (known props kvs) = known props kvs.
Proof.
  intro Hnodup.
  assert (H : forall sub,
             incl sub props ->
             known sub (known props kvs) = known sub kvs).
  { induction sub as [| p sub IH]; intro Hincl; [reflexivity |].
    unfold known in *. cbn [flat_map].
    fold (known props kvs).
    rewrite (find_known p props kvs Hnodup (Hincl p (or_introl eq_refl))).
    f_equal. apply IH. intros q Hq. apply Hincl. right. exact Hq. }
  apply H, incl_refl.
Qed.

Lemma update_command_arguments (rna_properties : string -> res (list string))
      (operator : string) (kvs : list (string * string)) (properties : list string) :
  PyStr.startswith "bpy.ops." operator = true ->
  no_char "("%char operator ->
  Forall plain_assignment kvs ->
  rna_properties operator = Ok properties ->
  NoDup (tl properties) ->
  update_command rna_properties (operator ++ "(" ++ arguments kvs ++ ")")
  = Updated (operator ++ "(" ++ arguments (known (tl properties) kvs) ++ ")").
Proof.
  intros Hops Hparen Hplain Hrna Hnodup. unfold update_command.
  unfold PyStr.startswith in *. rewrite (prefix_app _ _ _ Hops).
  cbn [append]. rewrite (split_once_app _ _ _ Hparen), drop_last_app, Hrna.
  rewrite (extract_properties_arguments _ Hplain).
  rewrite (collect_inputs_known kvs (tl properties) Hnodup kvs []); [| reflexivity].
  reflexivity.
Qed.

(** X22.  [update_command] on an operator call whose arguments are plain
    [key=value] assignments keeps, for each property that the operator has
    now and in the order of those properties, the first argument with that
    key, and drops every other argument; the first of the host's properties
    is never matched.  Updating the updated command changes nothing. *)
Theorem update_command_keeps_known (rna_properties : string -> res (list string))
        (operator : string) (kvs : list (string * string)) (properties : list string) :
  PyStr.startswith "bpy.ops." operator = true ->
  no_char "("%char operator ->
  Forall plain_assignment kvs ->
  rna_properties operator = Ok properties ->
  NoDup (tl properties) ->
  let updated :=
    (operator ++ "(" ++ arguments (known (tl properties) kvs) ++ ")")%string in
  update_command rna_properties (operator ++ "(" ++ arguments kvs ++ ")")
  = Updated updated
  /\ update_command rna_properties updated = Updated updated.
Proof.
  intros Hops Hparen Hplain Hrna Hnodup. cbv zeta. split.
  - apply update_command_arguments; assumption.
  - rewrite (update_command_arguments rna_properties operator _ properties Hops Hparen
               (known_plain _ _ Hplain) Hrna Hnodup).
    rewrite (known_known _ _ Hnodup). reflexivity.
Qed.

Lemma update_command_keeps_known_witness :
  let rna_properties := fun _ : string => Ok ["rna_type"; "type"; "size"; "align"] in
  update_command rna_properties "bpy.ops.mesh.add(size=2, radius=1, type='CUBE')"
  = Updated "bpy.ops.mesh.add(type='CUBE', size=2)"
  /\ update_command rna_properties "bpy.ops.mesh.add(type='CUBE', size=2)"
     = Updated "bpy.ops.mesh.add(type='CUBE', size=2)".
Proof.
  apply (update_command_keeps_known
           (fun _ => Ok ["rna_type"; "type"; "size"; "align"]) "bpy.ops.mesh.add"
           [("size", "2"); ("radius", "1"); ("type", "'CUBE'")]
           ["rna_type"; "type"; "size"; "align"]).
  - reflexivity.
  - reflexivity.
  - repeat constructor.
  - reflexivity.
  - repeat constructor; cbn; intuition discriminate.
Defined.

(** X23.  What [update_command] does with a command it cannot update.  A
    command that is not an operator call gives False.  An operator name with
    no parenthesis after it raises ValueError, from the unpacking of the
    split.  An operator that the host no longer has (KeyError) gives False,
    whatever its arguments. *)
Theorem update_command_not_updated (rna_properties : string -> res (list string))
        (command : string) :
  (PyStr.startswith "bpy.ops." command = false ->
   update_command rna_properties command = NoCommand)
  /\ (PyStr.startswith "bpy.ops." command = true ->
      no_char "("%char command ->
      update_command rna_properties command = UpdateRaised UnpackError)
  /\ (forall operator args key,
         command = (operator ++ "(" ++ args)%string ->
         PyStr.startswith "bpy.ops." operator = true ->
         no_char "("%char operator ->
         rna_properties operator = Raise (KeyError key) ->
         update_command rna_properties command = NoCommand).
Proof.
  unfold update_command. split; [| split].
  - intros ->. reflexivity.
  - intros -> Hparen.
    assert (H : forall s, no_char "("%char s -> PyText.split_once "("%char s = [s]).
    { unfold no_char. induction s as [| a s IH]; cbn [PyStr.all_chars PyText.split_once];
        [reflexivity |].
      intro H. apply andb_true_iff in H. destruct H as [Ha Hs].
      apply negb_true_iff in Ha. rewrite Ha, (IH Hs). reflexivity. }
    rewrite (H _ Hparen). reflexivity.
  - intros operator args key -> Hops Hparen Hrna.
    unfold PyStr.startswith in *. rewrite (prefix_app _ _ _ Hops).
    cbn [append]. rewrite (split_once_app _ _ _ Hparen), Hrna. reflexivity.
Qed.
